(** * ubx/msggen.go: the schema compiler of the UBX message generator

    A shallow embedding of [msggen.go] and of the few functions of the Go
    standard library it calls ([strconv.ParseUint], [strings.Split],
    [strings.ToLower], [strings.Title], [fmt.Sprintf] with the verb [%x],
    and the one regular expression of the file), followed by the
    properties of the resolvers, of the naming helper and of the linker.

    Conventions.
    - A Go [string] is a sequence of bytes: Rocq's [string], one [ascii]
      per byte.
    - [uint64] and [int] are [Z] with the wrap-around written out; [int]
      is 64 bits wide (amd64, arm64).
    - Pointers are locations in a heap of three finite maps, one per
      struct type; [nil] is [None]. *)

From Stdlib Require Import ZArith Lia Bool Ascii.
From Stdlib Require Import Numbers.HexadecimalString.
From stdpp Require Import gmap strings list fin_maps.

Local Open Scope Z_scope.

#[local] Arguments String.append !_ _ / : simpl nomatch.

(** ** Bytes *)

Definition byte (c : ascii) : Z := Z.of_N (N_of_ascii c).

Definition chr (z : Z) : ascii := ascii_of_N (Z.to_N z).

(** [lower(c)] of strconv: [c | ('x' - 'X')]. *)
Definition lower (c : Z) : Z := Z.lor c 32.

#[global] Arguments byte : simpl never.
#[global] Arguments lower : simpl never.

(** ** Machine integers *)

Definition maxUint64 : Z := 2 ^ 64 - 1.

(** Wrap-around of [uint64]. *)
Definition u64 (x : Z) : Z := x mod 2 ^ 64.

(** [int] is 64 bits wide. *)
Definition intSize : Z := 64.

(** Wrap-around of the signed [int]. *)
Definition wrap_int (x : Z) : Z :=
  (x + 2 ^ (intSize - 1)) mod 2 ^ intSize - 2 ^ (intSize - 1).

(** [x << n] on [uint64], the count an unsigned integer: counts of 64 and
    more shift every bit out. *)
Definition shl_u64 (x n : Z) : Z :=
  if n >=? 64 then 0 else u64 (Z.shiftl x n).

(** [x << n] on [int]. *)
Definition shl_int (x n : Z) : Z :=
  if n >=? intSize then 0 else wrap_int (Z.shiftl x n).

Definition sub_int (x y : Z) : Z := wrap_int (x - y).

(** [x ^ y] on [int]: bitwise on the two's complement representation. *)
Definition xor_int (x y : Z) : Z := Z.lxor x y.

(** ** strconv.ParseUint (go1.13 and later) *)

Module strconv.

Inductive NumError : Set :=
| ErrSyntax
| ErrRange
| ErrBase
| ErrBitSize.

(** The [switch] of the digit loop, past the case of the underscore: the
    value [d] of the byte [c], or none for the [default] case. *)
Definition digit_val (c : Z) : option Z :=
  if (48 <=? c) && (c <=? 57) then Some (c - 48)
  else if (97 <=? lower c) && (lower c <=? 122) then Some (lower c - 97 + 10)
  else None.

(** The body of [for _, c := range []byte(s)]: either an early [return]
    of a value with an error, or the loop runs to its end with the
    accumulator [n] and the flag [underscores]. *)
Fixpoint digits (base0 : bool) (base cutoff maxVal : Z) (s : string)
    (n : Z) (underscores : bool) : (Z * NumError) + (Z * bool) :=
  match s with
  | EmptyString => inr (n, underscores)
  | String ch rest =>
      let c := byte ch in
      if (c =? 95) && base0 then
        digits base0 base cutoff maxVal rest n true
      else
        match digit_val c with
        | None => inl (0, ErrSyntax)
        | Some d =>
            if d >=? base then inl (0, ErrSyntax)
            else if n >=? cutoff then inl (maxVal, ErrRange)
            else
              let n0 := u64 (n * base) in
              let n1 := u64 (n0 + d) in
              if (n1 <? n0) || (n1 >? maxVal) then inl (maxVal, ErrRange)
              else digits base0 base cutoff maxVal rest n1 underscores
        end
  end.

(** The category of the last character seen by [underscoreOK]. *)
Inductive saw_t : Set :=
| SawStart       (* '^' *)
| SawDigit       (* '0' *)
| SawUnderscore  (* '_' *)
| SawOther.      (* '!' *)

Definition saw_eqb (a b : saw_t) : bool :=
  match a, b with
  | SawStart, SawStart | SawDigit, SawDigit
  | SawUnderscore, SawUnderscore | SawOther, SawOther => true
  | _, _ => false
  end.

(** The loop [for ; i < len(s); i++] of [underscoreOK]. *)
Fixpoint underscore_scan (hex : bool) (s : string) (saw : saw_t) : bool :=
  match s with
  | EmptyString => negb (saw_eqb saw SawUnderscore)
  | String ch rest =>
      let c := byte ch in
      if ((48 <=? c) && (c <=? 57))
         || (hex && (97 <=? lower c) && (lower c <=? 102)) then
        underscore_scan hex rest SawDigit
      else if c =? 95 then
        if negb (saw_eqb saw SawDigit) then false
        else underscore_scan hex rest SawUnderscore
      else if saw_eqb saw SawUnderscore then false
      else underscore_scan hex rest SawOther
  end.

Definition underscoreOK (s : string) : bool :=
  let s :=
    match s with
    | String c0 rest =>
        if (byte c0 =? 45) || (byte c0 =? 43) then rest else s
    | _ => s
    end in
  match s with
  | String c0 (String c1 rest) =>
      if (byte c0 =? 48)
         && ((lower (byte c1) =? 98) || (lower (byte c1) =? 111)
             || (lower (byte c1) =? 120)) then
        underscore_scan (lower (byte c1) =? 120) rest SawDigit
      else underscore_scan false s SawStart
  | _ => underscore_scan false s SawStart
  end.

(** The base and the digits left after the prefix, for [base == 0]. *)
Definition base_prefix (s : string) : Z * string :=
  match s with
  | String c0 rest =>
      if byte c0 =? 48 then
        match rest with
        | String c1 (String c2 rest2) =>
            if lower (byte c1) =? 98 then (2, String c2 rest2)
            else if lower (byte c1) =? 111 then (8, String c2 rest2)
            else if lower (byte c1) =? 120 then (16, String c2 rest2)
            else (8, rest)
        | _ => (8, rest)
        end
      else (10, s)
  | EmptyString => (10, s)
  end.

Definition ParseUint (s : string) (base bitSize : Z) : Z * option NumError :=
  match s with
  | EmptyString => (0, Some ErrSyntax)
  | _ =>
      let base0 := base =? 0 in
      let s0 := s in
      let bs :=
        if (2 <=? base) && (base <=? 36) then Some (base, s)
        else if base =? 0 then Some (base_prefix s)
        else None in
      match bs with
      | None => (0, Some ErrBase)
      | Some (base, s) =>
          let bitSize' :=
            if bitSize =? 0 then Some intSize
            else if (bitSize <? 0) || (bitSize >? 64) then None
            else Some bitSize in
          match bitSize' with
          | None => (0, Some ErrBitSize)
          | Some bitSize =>
              let cutoff := maxUint64 / base + 1 in
              let maxVal := u64 (shl_u64 1 bitSize - 1) in
              match digits base0 base cutoff maxVal s 0 false with
              | inl (v, e) => (v, Some e)
              | inr (n, underscores) =>
                  if underscores && negb (underscoreOK s0)
                  then (0, Some ErrSyntax)
                  else (n, None)
              end
          end
      end
  end.

End strconv.

(** ** strings.Split, for a separator of one byte *)

Module strings.

(** [Split(s, sep)] returns the substrings between the occurrences of
    [sep]: one more than there are occurrences. *)
Fixpoint Split (s : string) (sep : ascii) : list string :=
  match s with
  | EmptyString => [EmptyString]
  | String c rest =>
      if Ascii.eqb c sep then EmptyString :: Split rest sep
      else
        match Split rest sep with
        | p :: ps => String c p :: ps
        | [] => [String c EmptyString]
        end
  end.

(** [Join(elems, "")]. *)
Definition Join (elems : list string) : string :=
  foldr String.append EmptyString elems.

End strings.

(** ** fmt.Sprintf("0x%x", v) for an [int] *)

Module fmt.

(** ["0123456789abcdef"[d]] *)
Definition ldigit (d : Z) : ascii :=
  if d <? 10 then chr (48 + d) else chr (97 + d - 10).

(** [fmtInteger], base 16: the digits are produced from the least
    significant one; a [uint64] has at most sixteen of them. *)
Fixpoint hex_digits (fuel : nat) (u : Z) (acc : string) : string :=
  match fuel with
  | O => acc
  | S fuel =>
      if u <? 16 then String (ldigit u) acc
      else hex_digits fuel (Z.shiftr u 4) (String (ldigit (Z.land u 15)) acc)
  end.

(** The verb [%x] applied to an [int]: a sign, then the magnitude. *)
Definition verb_x (v : Z) : string :=
  let u := u64 v in
  let negative := v <? 0 in
  let u := if negative then u64 (- u) else u in
  let body := hex_digits 16 u EmptyString in
  if negative then String "-" body else body.

Definition Sprintf_0x (v : Z) : string := "0x" +:+ verb_x v.

End fmt.

(** ** mask *)

Definition mask (s : string) : string :=
  let parts := strings.Split s ":" in
  match parts with
  | [p0; p1] =>
      let hi := fst (strconv.ParseUint p0 0 8) in
      let lo := fst (strconv.ParseUint p1 0 8) in
      fmt.Sprintf_0x
        (xor_int (sub_int (shl_int 1 (u64 (hi + 1))) 1)
                 (sub_int (shl_int 1 lo) 1))
  | _ =>
      let i := fst (strconv.ParseUint s 0 8) in
      fmt.Sprintf_0x (shl_int 1 i)
  end.

(** ** The regular expression of goType

    [reCType = regexp.MustCompile(`([CHIRUX0-9_]+)(\[[0-9]+\])?`)]: the
    expression carries no anchor, so [FindStringSubmatch] returns the
    leftmost match; both repetitions are greedy. Every byte of the two
    classes and of the brackets is ASCII, so matching the bytes is
    matching the runes. *)

Module regexp.

(** The class [[CHIRUX0-9_]]. *)
Definition scalar_class (ch : ascii) : bool :=
  let c := byte ch in
  (c =? 67) || (c =? 72) || (c =? 73) || (c =? 82) || (c =? 85) || (c =? 88)
  || ((48 <=? c) && (c <=? 57)) || (c =? 95).

(** The class [[0-9]]. *)
Definition digit_class (ch : ascii) : bool :=
  let c := byte ch in (48 <=? c) && (c <=? 57).

(** A greedy [cls+] or [cls*] at the head of [s]: the longest run of
    bytes of the class, and what follows it. *)
Fixpoint run (cls : ascii -> bool) (s : string) : string * string :=
  match s with
  | String c rest =>
      if cls c then let (r, t) := run cls rest in (String c r, t)
      else (EmptyString, s)
  | EmptyString => (EmptyString, EmptyString)
  end.

(** The second group, [(\[[0-9]+\])?], at the head of [s]: the text it
    captures, empty when the group does not take part in the match. *)
Definition array_group (s : string) : string :=
  match s with
  | String c rest =>
      if byte c =? 91 then
        match run digit_class rest with
        | (String d ds, String c' _) =>
            if byte c' =? 93 then "[" +:+ String d ds +:+ "]"
            else EmptyString
        | _ => EmptyString
        end
      else EmptyString
  | EmptyString => EmptyString
  end.

(** [reCType.FindStringSubmatch(s)]: [nil] when no byte of [s] starts a
    match, else the whole match and the two groups. *)
Fixpoint FindStringSubmatch (s : string) : list string :=
  match s with
  | EmptyString => []
  | String c rest =>
      if scalar_class c then
        let (g1, t) := run scalar_class s in
        let g2 := array_group t in
        [g1 +:+ g2; g1; g2]
      else FindStringSubmatch rest
  end.

End regexp.

(** ** goType *)

(** The two errors of [goType], with the arguments of their format
    strings:
    [Cannot parse %q as ctype([arraylen])] and
    [Cannot parse %q as a ctype (invalid scalar part %q)]. *)
Inductive ctype_error : Set :=
| CannotParse (ctype : string)
| InvalidScalarPart (ctype part : string).

Inductive result (A E : Type) : Type :=
| Ok (a : A)
| Err (e : E).
Arguments Ok {A E} a.
Arguments Err {A E} e.

Definition scalar_goType (code : string) : option string :=
  if String.eqb code "RU1_3" then Some "Float8"
  else if String.eqb code "R4" then Some "float32"
  else if String.eqb code "R8" then Some "float64"
  else if String.eqb code "I1" then Some "int8"
  else if String.eqb code "U1" || String.eqb code "CH" || String.eqb code "X1"
  then Some "byte"
  else if String.eqb code "I2" then Some "int16"
  else if String.eqb code "U2" || String.eqb code "X2" then Some "uint16"
  else if String.eqb code "I4" then Some "int32"
  else if String.eqb code "U4" || String.eqb code "X4" then Some "uint32"
  else if String.eqb code "I8" then Some "int64"
  else if String.eqb code "U8" then Some "uint64"
  else None.

Definition goType (ctype : string) : result string ctype_error :=
  match regexp.FindStringSubmatch ctype with
  | [_; p1; p2] =>
      match scalar_goType p1 with
      | None => Err (InvalidScalarPart ctype p1)
      | Some t =>
          if String.eqb p2 "" then Ok t
          else Ok (p2 +:+ t)
      end
  | _ => Err (CannotParse ctype)
  end.

(** ** strings.ToLower and strings.Title

    On a string of ASCII bytes both are computed as the library does.
    On any other string the library maps the runes through the tables of
    package [unicode]; these are taken as the parameters [mapLower]
    (for [Map(unicode.ToLower, s)]) and [mapTitle]. *)

Module cases.

Fixpoint isASCII (s : string) : bool :=
  match s with
  | EmptyString => true
  | String c rest => (byte c <? 128) && isASCII rest
  end.

Definition lower_byte (ch : ascii) : ascii :=
  let c := byte ch in
  if (65 <=? c) && (c <=? 90) then chr (c + 32) else ch.

Definition upper_byte (ch : ascii) : ascii :=
  let c := byte ch in
  if (97 <=? c) && (c <=? 122) then chr (c - 32) else ch.

Fixpoint map_bytes (f : ascii -> ascii) (s : string) : string :=
  match s with
  | EmptyString => EmptyString
  | String c rest => String (f c) (map_bytes f rest)
  end.

Definition ToLower (mapLower : string -> string) (s : string) : string :=
  if isASCII s then map_bytes lower_byte s else mapLower s.

(** [isSeparator] on an ASCII rune: alphanumerics and the underscore are
    not separators. *)
Definition isSeparator (ch : ascii) : bool :=
  let r := byte ch in
  negb (((48 <=? r) && (r <=? 57)) || ((97 <=? r) && (r <=? 122))
        || ((65 <=? r) && (r <=? 90)) || (r =? 95)).

(** The closure of [Title], its captured variable [prev] passed along. *)
Fixpoint title_from (prev : ascii) (s : string) : string :=
  match s with
  | EmptyString => EmptyString
  | String r rest =>
      String (if isSeparator prev then upper_byte r else r)
             (title_from r rest)
  end.

Definition Title (mapTitle : string -> string) (s : string) : string :=
  if isASCII s then title_from " " s else mapTitle s.

End cases.

(** ** notabs

    [wstospace = strings.NewReplacer("\t", " ", "\n", " ")]: every old and
    new string is one byte long, so the library builds a byte replacer,
    a table from byte to byte in which the first pair of an old byte
    wins; [Replace] maps the bytes of its argument through the table. *)

Fixpoint replace_byte (oldnew : list (ascii * ascii)) (c : ascii) : ascii :=
  match oldnew with
  | [] => c
  | (o, n) :: rest => if Ascii.eqb c o then n else replace_byte rest c
  end.

Definition Replace (oldnew : list (ascii * ascii)) (s : string) : string :=
  cases.map_bytes (replace_byte oldnew) s.

Definition wstospace : list (ascii * ascii) :=
  [("009"%char, " "%char); ("010"%char, " "%char)].

Definition notabs (s : string) : string := Replace wstospace s.

(** ** msgtypename *)

(** [for i, v := range parts { parts[i] = strings.Title(v) }]: the number
    of iterations is the length at the start of the loop; each one reads
    [parts[i]] and stores into the same slot. *)
Fixpoint title_parts (mapTitle : string -> string) (todo i : nat)
    (parts : list string) : list string :=
  match todo with
  | O => parts
  | S todo =>
      match parts !! i with
      | Some v =>
          title_parts mapTitle todo (S i) (<[i := cases.Title mapTitle v]> parts)
      | None => parts
      end
  end.

(** [parts[lo:]]: the slice expression fails out of range. *)
Definition slice_from {A} (l : list A) (lo : nat) : option (list A) :=
  if (lo <=? length l)%nat then Some (drop lo l) else None.

(** [None] is the run-time panic of an out-of-range slice expression. *)
Definition msgtypename (mapLower mapTitle : string -> string) (s : string)
    : option string :=
  let parts := strings.Split (cases.ToLower mapLower s) "-" in
  let parts := title_parts mapTitle (length parts) 0 parts in
  match slice_from parts 1 with
  | Some rest => Some (strings.Join rest)
  | None => None
  end.

(** ** Hex.UnmarshalXML *)

Definition Hex : Type := Z.

Inductive unmarshal_error : Set :=
| DecodeError (msg : string)
| NumError (e : strconv.NumError).

(** [decoded] is the outcome of [d.DecodeElement(&f, &start)]: the
    character data of the element, or the decoder's error. The result is
    the new value of [*v] and the error returned. *)
Definition Hex_UnmarshalXML (decoded : result string string) (v : Hex)
    : Hex * option unmarshal_error :=
  match decoded with
  | Err msg => (v, Some (DecodeError msg))
  | Ok f =>
      match strconv.ParseUint f 0 64 with
      | (_, Some err) => (v, Some (NumError err))
      | (vv, None) => (vv, None)
      end
  end.

(** ** The schema model *)

Definition loc : Type := positive.

(** A pointer: [None] is [nil]. *)
Definition ptr : Type := option loc.

Record Message : Type := mkMessage {
  Message_Name : string;
  Message_Type : string;
  Message_Description : string;
  Message_Comment : string;
  Message_Firmware : string;
  Message_Class : Hex;
  Message_Id : Hex;
  Message_Length : string;
  Message_Blocks : list ptr
}.

Record Block : Type := mkBlock {
  Block_Cardinality : string;
  Block_CountField : string;
  Block_Offset : string;
  Block_Name : string;
  Block_Type : string;
  Block_Comment : string;
  Block_Scale : string;
  Block_Unit : string;
  Block_Bitfield : list ptr;
  Block_Nested : list ptr;
  Block_Message : ptr
}.

Record BitDef : Type := mkBitDef {
  BitDef_Index : string;
  BitDef_Type : string;
  BitDef_Name : string;
  BitDef_Description : string;
  BitDef_Field : ptr
}.

Record Definitions : Type := mkDefinitions {
  Definitions_Message : list ptr
}.

(** The objects of the three struct types, by address. *)
Record heap : Type := mkHeap {
  messages : gmap loc Message;
  blocks : gmap loc Block;
  bitdefs : gmap loc BitDef
}.

(** The outcome of a call that only updates the heap. [Panic] is a nil
    pointer dereference. *)
Inductive outcome : Type :=
| Done (h : heap)
| Panic
| OutOfFuel.

Definition andThen (o : outcome) (k : heap -> outcome) : outcome :=
  match o with
  | Done h => k h
  | Panic => Panic
  | OutOfFuel => OutOfFuel
  end.

(** [for _, v := range l { body(v) }] *)
Fixpoint forEach (l : list ptr) (body : ptr -> heap -> outcome) (h : heap)
    : outcome :=
  match l with
  | [] => Done h
  | v :: l => andThen (body v h) (forEach l body)
  end.

Definition with_Message (m : ptr) (b : Block) : Block :=
  mkBlock (Block_Cardinality b) (Block_CountField b) (Block_Offset b)
          (Block_Name b) (Block_Type b) (Block_Comment b) (Block_Scale b)
          (Block_Unit b) (Block_Bitfield b) (Block_Nested b) m.

Definition with_Field (b : ptr) (d : BitDef) : BitDef :=
  mkBitDef (BitDef_Index d) (BitDef_Type d) (BitDef_Name d)
           (BitDef_Description d) b.

(** [b.Message = m] *)
Definition store_Message (b m : ptr) (h : heap) : outcome :=
  match b with
  | None => Panic
  | Some a =>
      match blocks h !! a with
      | None => Panic
      | Some blk =>
          Done (mkHeap (messages h) (<[a := with_Message m blk]> (blocks h))
                       (bitdefs h))
      end
  end.

(** [v.Field = b] *)
Definition store_Field (v b : ptr) (h : heap) : outcome :=
  match v with
  | None => Panic
  | Some a =>
      match bitdefs h !! a with
      | None => Panic
      | Some d =>
          Done (mkHeap (messages h) (blocks h)
                       (<[a := with_Field b d]> (bitdefs h)))
      end
  end.

(** Reading the slice fields through a pointer. *)
Definition load_block (b : ptr) (h : heap) : option Block :=
  match b with
  | None => None
  | Some a => blocks h !! a
  end.

Definition load_message (m : ptr) (h : heap) : option Message :=
  match m with
  | None => None
  | Some a => messages h !! a
  end.

(** [func (b *Block) Link(m *Message)]; the recursion follows the heap,
    so it is bounded by [fuel]. *)
Fixpoint Block_Link (fuel : nat) (b m : ptr) (h : heap) : outcome :=
  match fuel with
  | O => OutOfFuel
  | S fuel =>
      andThen (store_Message b m h) (fun h =>
      match load_block b h with
      | None => Panic
      | Some blk =>
          andThen (forEach (Block_Bitfield blk) (fun v => store_Field v b) h)
            (fun h =>
             match load_block b h with
             | None => Panic
             | Some blk =>
                 forEach (Block_Nested blk) (fun v => Block_Link fuel v m) h
             end)
      end)
  end.

(** [func (d *Message) Link()] *)
Definition Message_Link (fuel : nat) (d : ptr) (h : heap) : outcome :=
  match load_message d h with
  | None => Panic
  | Some msg => forEach (Message_Blocks msg) (fun v => Block_Link fuel v d) h
  end.

(** [func (d *Definitions) Link()] *)
Definition Definitions_Link (fuel : nat) (d : Definitions) (h : heap)
    : outcome :=
  forEach (Definitions_Message d) (fun v => Message_Link fuel v) h.

(** * Definitions for the properties *)

(** ** The documented types and predicates on texts *)

(** The table of section 4.3 of the specification: the type codes and
    the element type documented for each. *)
Inductive elem_type : Set :=
| Fixed8 | Float32 | Float64
| Int8 | Byte8 | Int16 | Uint16 | Int32 | Uint32 | Int64 | Uint64.

Definition spec_type_table : list (string * elem_type) :=
  [ ("RU1_3", Fixed8); ("R4", Float32); ("R8", Float64); ("I1", Int8);
    ("U1", Byte8); ("CH", Byte8); ("X1", Byte8);
    ("I2", Int16); ("U2", Uint16); ("X2", Uint16);
    ("I4", Int32); ("U4", Uint32); ("X4", Uint32);
    ("I8", Int64); ("U8", Uint64) ].

(** The Go type that stands for each element type in the generated code. *)
Definition go_name (t : elem_type) : string :=
  match t with
  | Fixed8 => "Float8"
  | Float32 => "float32"
  | Float64 => "float64"
  | Int8 => "int8"
  | Byte8 => "byte"
  | Int16 => "int16"
  | Uint16 => "uint16"
  | Int32 => "int32"
  | Uint32 => "uint32"
  | Int64 => "int64"
  | Uint64 => "uint64"
  end.

(** The Go type of an array of [n] elements, [n] a decimal literal. *)
Definition array_of (n : string) (elem : string) : string :=
  "[" +:+ n +:+ "]" +:+ elem.

Fixpoint all_bytes (p : ascii -> bool) (s : string) : bool :=
  match s with
  | EmptyString => true
  | String c rest => p c && all_bytes p rest
  end.

(** A decimal literal: one digit or more. *)
Definition decimal_text (n : string) : Prop :=
  all_bytes regexp.digit_class n = true /\ n <> EmptyString.

Fixpoint has_byte (c : ascii) (s : string) : bool :=
  match s with
  | EmptyString => false
  | String x rest => Ascii.eqb x c || has_byte c rest
  end.

(** The bytes the digit loop lets through are digits, letters and
    underscores. *)
Definition literal_byte (ch : ascii) : bool :=
  let c := byte ch in
  (c =? 95) || ((48 <=? c) && (c <=? 57))
  || ((97 <=? lower c) && (lower c <=? 122)).

(** ** The masks of the specification *)

(** The mask of the specification, on unbounded integers, and its
    rendering as a hexadecimal literal. *)
Definition spec_range_mask (hi lo : Z) : Z :=
  Z.lxor (Z.shiftl 1 (hi + 1) - 1) (Z.shiftl 1 lo - 1).

Definition spec_index_mask (i : Z) : Z := Z.shiftl 1 i.

Definition hex_literal (n : Z) : string :=
  "0x" +:+ NilZero.string_of_uint (N.to_hex_uint (Z.to_N n)).

(** The text parses as a bit index, as [mask] parses it. *)
Definition parses_as (s : string) (v : Z) : Prop :=
  strconv.ParseUint s 0 8 = (v, None).

(** What [mask] computes from the two parsed numbers of a range, and from
    a single index. *)
Definition range_text (hi lo : Z) : string :=
  fmt.Sprintf_0x
    (xor_int (sub_int (shl_int 1 (u64 (hi + 1))) 1) (sub_int (shl_int 1 lo) 1)).

Definition index_text (i : Z) : string := fmt.Sprintf_0x (shl_int 1 i).

(** Up to bit 62 the arithmetic of [int] agrees with the unbounded one;
    the finitely many cases are checked by evaluation. *)
Definition range_agrees (hi lo : Z) : bool :=
  String.eqb (range_text hi lo) (hex_literal (spec_range_mask hi lo)).

Definition index_agrees (i : Z) : bool :=
  String.eqb (index_text i) (hex_literal (spec_index_mask i)).

(** What [mask] makes of a component, the error of [ParseUint] dropped:
    a text that parses counts as its value, a text with a syntax error
    as zero and a text with a range error as 255. *)
Definition counts_as (comp : string) (v : Z) : Prop :=
  match snd (strconv.ParseUint comp 0 8) with
  | None => parses_as comp v
  | Some strconv.ErrSyntax => v = 0
  | Some strconv.ErrRange => v = 255
  | Some _ => False
  end.

(** A text without a decimal digit. *)
Definition no_digit (s : string) : Prop :=
  all_bytes (fun c => negb (regexp.digit_class c)) s = true.

(** ** Integer literals of the Go language

    The literals that [ParseUint] with base 0 is documented to read:
    [int_lit = decimal_lit | binary_lit | octal_lit | hex_lit], the
    digits optionally separated by single underscores. *)

Module literal.

Definition digit_value (c : ascii) : option Z :=
  let b := byte c in
  if (48 <=? b) && (b <=? 57) then Some (b - 48)
  else if (97 <=? b) && (b <=? 102) then Some (b - 87)
  else if (65 <=? b) && (b <=? 70) then Some (b - 55)
  else None.

(** The value of [c] as a digit of [base]. *)
Definition digit_of (base : Z) (c : ascii) : option Z :=
  match digit_value c with
  | Some d => if d <? base then Some d else None
  | None => None
  end.

(** [digit { [ "_" ] digit }]: [digits_lit base acc s v] reads [s] after
    the digits of value [acc] and reaches the value [v]. *)
Inductive digits_lit (base : Z) : Z -> string -> Z -> Prop :=
| dl_last acc c d :
    digit_of base c = Some d ->
    digits_lit base acc (String c EmptyString) (acc * base + d)
| dl_more acc c d s v :
    digit_of base c = Some d ->
    digits_lit base (acc * base + d) s v ->
    digits_lit base acc (String c s) v
| dl_sep acc c d s v :
    digit_of base c = Some d ->
    digits_lit base (acc * base + d) s v ->
    digits_lit base acc (String c (String "_" s)) v.

(** [[ "_" ] digits] *)
Definition sep_digits (base : Z) (body : string) (v : Z) : Prop :=
  digits_lit base 0 body v
  \/ exists t, body = String "_" t /\ digits_lit base 0 t v.

(** [decimal_lit = "0" | ( "1" ... "9" ) [ [ "_" ] decimal_digits ]] *)
Definition decimal_lit (s : string) (v : Z) : Prop :=
  (s = "0" /\ v = 0)
  \/ (exists c t, s = String c t /\ byte c <> 48 /\ digits_lit 10 0 s v).

(** [binary_lit = "0" ( "b" | "B" ) [ "_" ] binary_digits] *)
Definition binary_lit (s : string) (v : Z) : Prop :=
  exists x body,
    s = String "0" (String x body) /\ (byte x = 98 \/ byte x = 66)
    /\ sep_digits 2 body v.

(** [octal_lit = "0" [ "o" | "O" ] [ "_" ] octal_digits] *)
Definition octal_lit (s : string) (v : Z) : Prop :=
  (exists x body,
     s = String "0" (String x body) /\ (byte x = 111 \/ byte x = 79)
     /\ sep_digits 8 body v)
  \/ (exists body, s = String "0" body /\ sep_digits 8 body v).

(** [hex_lit = "0" ( "x" | "X" ) [ "_" ] hex_digits] *)
Definition hex_lit (s : string) (v : Z) : Prop :=
  exists x body,
    s = String "0" (String x body) /\ (byte x = 120 \/ byte x = 88)
    /\ sep_digits 16 body v.

Definition int_lit (s : string) (v : Z) : Prop :=
  decimal_lit s v \/ binary_lit s v \/ octal_lit s v \/ hex_lit s v.

End literal.

(** [lower] on the bytes: it adds 32 to an upper-case letter, keeps a
    lower-case one, and only letters land among the lower-case ones. *)
Definition lower_checked (x : Z) : bool :=
  implb ((65 <=? x) && (x <=? 90)) (lower x =? x + 32)
  && implb ((97 <=? x) && (x <=? 122)) (lower x =? x)
  && implb ((97 <=? lower x) && (lower x <=? 122))
           (((65 <=? x) && (x <=? 90)) || ((97 <=? x) && (x <=? 122))).

(** The digit loop as a relation: the digits of [base] accumulate, the
    underscores are passed over. *)
Inductive loose (base : Z) : Z -> string -> Z -> Prop :=
| loose_nil n : loose base n EmptyString n
| loose_us n s v : loose base n s v -> loose base n (String "_" s) v
| loose_digit n c d s v :
    literal.digit_of base c = Some d ->
    loose base (n * base + d) s v ->
    loose base n (String c s) v.

(** A valid unsigned integer literal: an integer literal of the Go
    language whose value is an unsigned 64-bit number. *)
Definition valid_uint_literal (s : string) : Prop :=
  exists v, literal.int_lit s v /\ 0 <= v <= maxUint64.

(** ** Shapes, writes and reachability in the heap *)

(** The shape of a heap: all of it but the back-references. *)
Definition strip (h : heap) : heap :=
  mkHeap (messages h) (with_Message None <$> blocks h)
         (with_Field None <$> bitdefs h).

Definition same_shape (h1 h2 : heap) : Prop := strip h1 = strip h2.

(** The last value stored into the field [Message] of each block, and
    into the field [Field] of each bit definition. *)
Record writes : Type := mkWrites {
  wr_Message : gmap loc ptr;
  wr_Field : gmap loc ptr
}.

Definition write_Message (w : writes) (a : loc) (blk : Block) : Block :=
  match wr_Message w !! a with
  | Some m => with_Message m blk
  | None => blk
  end.

Definition write_Field (w : writes) (a : loc) (d : BitDef) : BitDef :=
  match wr_Field w !! a with
  | Some b => with_Field b d
  | None => d
  end.

Definition apply_writes (w : writes) (h : heap) : heap :=
  mkHeap (messages h)
         (map_imap (fun a blk => Some (write_Message w a blk)) (blocks h))
         (map_imap (fun a d => Some (write_Field w a d)) (bitdefs h)).

(** The writes of [w1], then those of [w2]. *)
Definition after (w2 w1 : writes) : writes :=
  mkWrites (wr_Message w2 ∪ wr_Message w1) (wr_Field w2 ∪ wr_Field w1).

Definition no_writes : writes := mkWrites ∅ ∅.

(** A call [f] has the effect [w] on the heaps of the shape of [h0]. *)
Definition effect (h0 : heap) (f : heap -> outcome) (w : writes) : Prop :=
  forall h, same_shape h h0 -> f h = Done (apply_writes w h).

(** The blocks reached from a pointer through the slices [Nested]. *)
Inductive reach (h : heap) : ptr -> loc -> Prop :=
| reach_here a blk : blocks h !! a = Some blk -> reach h (Some a) a
| reach_nested a blk p a' :
    blocks h !! a = Some blk -> p ∈ Block_Nested blk -> reach h p a' ->
    reach h (Some a) a'.

(** The bit definition at [v] is in the slice [Bitfield] of the block at
    [a]. *)
Definition owns (h : heap) (a v : loc) : Prop :=
  exists blk, blocks h !! a = Some blk /\ Some v ∈ Block_Bitfield blk.

(** The block at [a] is enclosed by the message at [m]: reached from one
    of its top-level blocks. *)
Definition encloses (h : heap) (m a : loc) : Prop :=
  exists msg p,
    messages h !! m = Some msg /\ p ∈ Message_Blocks msg /\ reach h p a.

(** The writes [w] are those of linking the blocks related by [R] to
    their messages: [R m a] says that the block at [a] is to refer to
    [m]. *)
Definition covers (h0 : heap) (R : ptr -> loc -> Prop) (w : writes) : Prop :=
  (forall a m, wr_Message w !! a = Some m -> R m a)
  /\ (forall a m, R m a -> is_Some (wr_Message w !! a))
  /\ (forall v b, wr_Field w !! v = Some b ->
        exists a m, b = Some a /\ R m a /\ owns h0 a v)
  /\ (forall v a m, R m a -> owns h0 a v -> is_Some (wr_Field w !! v)).

(** A call [f] that returns links the blocks related by [R]. *)
Definition links (h0 : heap) (f : heap -> outcome) (R : ptr -> loc -> Prop) : Prop :=
  forall h h', same_shape h h0 -> f h = Done h' ->
    exists w, effect h0 f w /\ covers h0 R w.

(** What [Link] does on the block itself: [b.Message = m], then the loop
    over [b.Bitfield]. *)
Definition link_own (a : loc) (m : ptr) (fields : list ptr) (h : heap)
    : outcome :=
  andThen (store_Message (Some a) m h)
          (forEach fields (fun v => store_Field v (Some a))).

(** No slice holds a nil or a dangling pointer, and the blocks nested in
    a block have a smaller rank: the nesting has no cycle. *)
Record graph_ok (rank : loc -> nat) (h : heap) : Prop := mkGraphOk {
  ok_fields : forall a blk p,
    blocks h !! a = Some blk -> p ∈ Block_Bitfield blk ->
    exists v, p = Some v /\ is_Some (bitdefs h !! v);
  ok_nested : forall a blk p,
    blocks h !! a = Some blk -> p ∈ Block_Nested blk ->
    exists a', p = Some a' /\ is_Some (blocks h !! a')
               /\ (rank a' < rank a)%nat;
  ok_blocks : forall m msg p,
    messages h !! m = Some msg -> p ∈ Message_Blocks msg ->
    exists a, p = Some a /\ is_Some (blocks h !! a)
}.

(** A fuel above the rank of every block of the heap. *)
Definition enough_fuel (h0 : heap) (rank : loc -> nat) : nat :=
  S (max_list (rank <$> (map_to_list (blocks h0)).*1)).

(** A graph as the decoder builds it: no nil or dangling pointer in a
    slice, no cycle of nesting, every block under one message of the
    definitions and every bit definition in the slice of one block. *)
Record well_formed (h : heap) (d : Definitions) (rank : loc -> nat) : Prop :=
  mkWellFormed {
    wf_graph : graph_ok rank h;
    wf_messages : forall p,
      p ∈ Definitions_Message d ->
      exists m, p = Some m /\ is_Some (messages h !! m);
    wf_one_message : forall m1 m2 a,
      Some m1 ∈ Definitions_Message d -> Some m2 ∈ Definitions_Message d ->
      encloses h m1 a -> encloses h m2 a -> m1 = m2;
    wf_one_block : forall a1 a2 v, owns h a1 v -> owns h a2 v -> a1 = a2
  }.

(** The text of a range whose upper index is 63 or more: [1 << (hi+1)]
    is zero, and the mask comes out negative. *)
Definition top_range_text (lo : Z) : string :=
  "0x-" +:+ NilZero.string_of_uint (N.to_hex_uint (Z.to_N (2 ^ lo))).

Definition top_range_agrees (lo : Z) : bool :=
  String.eqb (range_text 63 lo) (top_range_text lo).

(** ** Counting bytes *)

Fixpoint count_byte (c : ascii) (s : string) : nat :=
  match s with
  | EmptyString => O
  | String x rest => (if Ascii.eqb x c then 1 else 0)%nat + count_byte c rest
  end.

(** A byte outside the class of the type codes. *)
Definition outside_class (c : ascii) : bool := negb (regexp.scalar_class c).

(** [part] is the first run of class bytes of [s]: no byte before it is
    in the class, every byte of it is, and the byte after it, if there
    is one, is not. *)
Definition first_class_run (s part : string) : Prop :=
  exists pre rest,
    s = pre +:+ part +:+ rest
    /\ all_bytes outside_class pre = true
    /\ part <> EmptyString
    /\ all_bytes regexp.scalar_class part = true
    /\ (rest = EmptyString
        \/ exists c t, rest = String c t /\ regexp.scalar_class c = false).

(** A byte that is none of the letters [C], [H], [I], [R], [U], [X]. *)
Definition no_class_letter (ch : ascii) : bool :=
  let c := byte ch in
  negb ((c =? 67) || (c =? 72) || (c =? 73) || (c =? 82) || (c =? 85)
        || (c =? 88)).

(** The slices of the block at [a] hold pointers to objects of the heap:
    none is nil, none dangles. *)
Definition sound_block (h : heap) (a : loc) : Prop :=
  exists blk,
    blocks h !! a = Some blk
    /\ (forall p, p ∈ Block_Bitfield blk ->
          exists v, p = Some v /\ is_Some (bitdefs h !! v))
    /\ (forall p, p ∈ Block_Nested blk ->
          exists a', p = Some a' /\ is_Some (blocks h !! a')).

(** The block at [a] is enclosed by a message of the definitions. *)
Definition in_graph (h : heap) (d : Definitions) (a : loc) : Prop :=
  exists m, Some m ∈ Definitions_Message d /\ encloses h m a.

(** A chain of [n] nesting steps leads from the block at [p] to the
    block at [a]. *)
Inductive nested_chain (h : heap) : nat -> ptr -> loc -> Prop :=
| chain_here a blk : blocks h !! a = Some blk -> nested_chain h 0 (Some a) a
| chain_step n a blk p a' :
    blocks h !! a = Some blk -> p ∈ Block_Nested blk ->
    nested_chain h n p a' -> nested_chain h (S n) (Some a) a'.

(** No pointer that [Link] follows is nil or dangles: the definitions
    point to messages, the messages to blocks, and the slices of every
    enclosed block to bit definitions and blocks of the heap. *)
Definition sound_graph (h : heap) (d : Definitions) : Prop :=
  (forall p, p ∈ Definitions_Message d ->
     exists m msg,
       p = Some m /\ messages h !! m = Some msg
       /\ forall q, q ∈ Message_Blocks msg ->
            exists a, q = Some a /\ is_Some (blocks h !! a))
  /\ (forall a, in_graph h d a -> sound_block h a).

(** Below the blocks of the graph every chain of nesting has fewer than
    [n] steps. *)
Definition nesting_below (h : heap) (d : Definitions) (n : nat) : Prop :=
  forall a k a',
    in_graph h d a -> nested_chain h k (Some a) a' -> (k < n)%nat.

(** ** An example graph *)

(** A small graph: one message, a bit-field block with one bit
    definition and one nested block. *)
Definition ex_bitdef : BitDef :=
  mkBitDef "0" "U1" "gnssFixOK" "valid fix" None.

Definition ex_flags : Block :=
  mkBlock "" "" "21" "flags" "X1" "" "" "" [Some 1%positive]
          [Some 2%positive] None.

Definition ex_inner : Block :=
  mkBlock "" "" "22" "numSV" "U1" "" "" "" [] [] None.

Definition ex_message : Message :=
  mkMessage "NAV-PVT" "Periodic/Polled" "" "" "" 1 7 "92" [Some 1%positive].

Definition ex_heap : heap :=
  mkHeap {[1%positive := ex_message]}
         {[1%positive := ex_flags; 2%positive := ex_inner]}
         {[1%positive := ex_bitdef]}.

Definition ex_definitions : Definitions := mkDefinitions [Some 1%positive].

Definition ex_rank (a : loc) : nat :=
  if decide (a = 1%positive) then 1%nat else 0%nat.

Definition ex_linked : heap :=
  match Definitions_Link 2 ex_definitions ex_heap with
  | Done h => h
  | _ => ex_heap
  end.

(** A graph with a cycle: a repeated block that is nested in itself. *)
Definition ex_loop_block : Block :=
  mkBlock "repeated" "numCh" "8" "chn" "U1" "" "" "" [] [Some 1%positive]
          None.

Definition ex_loop_heap : heap :=
  mkHeap {[1%positive := ex_message]} {[1%positive := ex_loop_block]} ∅.

(** * Properties *)

(** ** The scalar type resolver *)

Lemma append_assoc (a b c : string) : (a +:+ b) +:+ c = a +:+ b +:+ c.
Proof. induction a as [|x a IH]; cbn; [reflexivity | now f_equal]. Qed.

Lemma append_empty_r (a : string) : a +:+ "" = a.
Proof. induction a as [|x a IH]; cbn; [reflexivity | now f_equal]. Qed.

Lemma run_all (cls : ascii -> bool) (s : string) (c : ascii) (t : string) :
  all_bytes cls s = true -> cls c = false ->
  regexp.run cls (s +:+ String c t) = (s, String c t).
Proof.
  intros Hs Hc. induction s as [|x s IH]; simpl.
  - now rewrite Hc.
  - simpl in Hs. apply andb_true_iff in Hs as [Hx Hs].
    rewrite Hx, (IH Hs). reflexivity.
Qed.

Lemma byte_inj (c c' : ascii) : byte c = byte c' -> c = c'.
Proof.
  unfold byte. intros H. apply N2Z.inj in H.
  rewrite <- (ascii_N_embedding c), <- (ascii_N_embedding c'). now f_equal.
Qed.

Lemma byte_eqb (c c' : ascii) : Ascii.eqb c c' = (byte c =? byte c').
Proof.
  destruct (Ascii.eqb_spec c c') as [-> | Hne].
  - now rewrite Z.eqb_refl.
  - symmetry. apply Z.eqb_neq. intros H. now apply byte_inj in H.
Qed.

(** The match that [FindStringSubmatch] returns is a match of the
    expression at the leftmost byte of the class: a longest run of the
    class, then the bracketed decimal when one follows. *)
Lemma run_spec (cls : ascii -> bool) (s r t : string) :
  regexp.run cls s = (r, t) ->
  s = r +:+ t /\ all_bytes cls r = true
  /\ (t = EmptyString \/ exists c t', t = String c t' /\ cls c = false).
Proof.
  revert r t. induction s as [|x s IH]; intros r t; simpl.
  - intros [= <- <-]. repeat split. now left.
  - destruct (cls x) eqn:Ex.
    + destruct (regexp.run cls s) as [r' t'] eqn:Er. intros [= <- <-].
      destruct (IH r' t' eq_refl) as (-> & Hr & Ht).
      repeat split; [simpl; now rewrite Ex | exact Ht].
    + intros [= <- <-]. repeat split. right. eauto.
Qed.

Lemma array_group_spec (t : string) :
  regexp.array_group t = EmptyString
  \/ exists n rest,
       decimal_text n /\ regexp.array_group t = "[" +:+ n +:+ "]"
       /\ t = "[" +:+ n +:+ "]" +:+ rest.
Proof.
  destruct t as [|c t]; [now left|]. simpl.
  destruct (byte c =? 91) eqn:Ec; [| now left].
  destruct (regexp.run regexp.digit_class t) as [r u] eqn:Er.
  destruct (run_spec _ _ _ _ Er) as (-> & Hr & _).
  destruct r as [|d ds]; [now left|].
  destruct u as [|c' u]; [now left|].
  destruct (byte c' =? 93) eqn:Ec'; [| now left].
  right. exists (String d ds), u.
  apply Z.eqb_eq in Ec, Ec'.
  assert (c = "["%char) as -> by (apply byte_inj; exact Ec).
  assert (c' = "]"%char) as -> by (apply byte_inj; exact Ec').
  split; [split; [exact Hr | discriminate]|].
  split; [reflexivity|]. simpl. rewrite ?append_assoc. reflexivity.
Qed.

Lemma FindStringSubmatch_spec (s : string) :
  (regexp.FindStringSubmatch s = []
   /\ all_bytes (fun c => negb (regexp.scalar_class c)) s = true)
  \/ exists pre g1 g2 post,
       regexp.FindStringSubmatch s = [g1 +:+ g2; g1; g2]
       /\ s = pre +:+ g1 +:+ g2 +:+ post
       /\ all_bytes (fun c => negb (regexp.scalar_class c)) pre = true
       /\ g1 <> EmptyString /\ all_bytes regexp.scalar_class g1 = true
       /\ (g2 = EmptyString
           \/ exists n, decimal_text n /\ g2 = "[" +:+ n +:+ "]").
Proof.
  induction s as [|c s IH]; [now left|].
  cbn [regexp.FindStringSubmatch].
  destruct (regexp.scalar_class c) eqn:Ec.
  - right. destruct (regexp.run regexp.scalar_class (String c s)) as [g1 t] eqn:Er.
    destruct (run_spec _ _ _ _ Er) as (Hs & Hg1 & _).
    assert (Hne : g1 <> EmptyString).
    { simpl in Er. rewrite Ec in Er.
      destruct (regexp.run regexp.scalar_class s). now injection Er as <- <-. }
    destruct (array_group_spec t) as [Hg | (n & rest & Hn & Hg & Ht)].
    + exists EmptyString, g1, EmptyString, t. rewrite Hg.
      repeat split; auto.
    + exists EmptyString, g1, ("[" +:+ n +:+ "]"), rest. rewrite Hg.
      repeat split; auto.
      * simpl. rewrite Hs, Ht. simpl. now rewrite !append_assoc.
      * right. now exists n.
  - destruct IH as [[Hnil Hall] | (pre & g1 & g2 & post & Hm & Hs & Hp & Hr)].
    + left. split; [exact Hnil | simpl; now rewrite Ec].
    + right. exists (String c pre), g1, g2, post.
      split; [exact Hm|]. split; [simpl; now rewrite Hs|].
      split; [simpl; now rewrite Ec | exact Hr].
Qed.

Lemma array_group_decimal (n : string) :
  decimal_text n -> regexp.array_group ("[" +:+ n +:+ "]") = "[" +:+ n +:+ "]".
Proof.
  intros [Hd Hne]. simpl.
  rewrite (run_all regexp.digit_class n "]" "" Hd eq_refl).
  destruct n as [|d ds]; [congruence | reflexivity].
Qed.

Lemma FindStringSubmatch_array (code n : string) :
  all_bytes regexp.scalar_class code = true -> code <> EmptyString ->
  decimal_text n ->
  regexp.FindStringSubmatch (code +:+ "[" +:+ n +:+ "]")
  = [code +:+ "[" +:+ n +:+ "]"; code; "[" +:+ n +:+ "]"].
Proof.
  intros Hc Hne Hn.
  destruct code as [|c code]; [congruence|].
  pose proof Hc as Hc'. simpl in Hc'. apply andb_true_iff in Hc' as [Hh _].
  change ((String c code) +:+ "[" +:+ n +:+ "]")
    with (String c (code +:+ "[" +:+ n +:+ "]")).
  cbn [regexp.FindStringSubmatch]. rewrite Hh.
  change (String c (code +:+ "[" +:+ n +:+ "]"))
    with ((String c code) +:+ String "[" (n +:+ "]")).
  rewrite (run_all regexp.scalar_class (String c code) "[" (n +:+ "]") Hc eq_refl).
  change (String "[" (n +:+ "]")) with ("[" +:+ n +:+ "]").
  rewrite (array_group_decimal n Hn). reflexivity.
Qed.

Lemma FindStringSubmatch_bare (code : string) :
  all_bytes regexp.scalar_class code = true -> code <> EmptyString ->
  regexp.FindStringSubmatch code = [code; code; ""].
Proof.
  intros Hc Hne.
  assert (Hrun : regexp.run regexp.scalar_class code = (code, "")).
  { clear Hne. induction code as [|x s IH]; simpl; [reflexivity|].
    simpl in Hc. apply andb_true_iff in Hc as [Hx Hs].
    rewrite Hx, (IH Hs). reflexivity. }
  destruct code as [|c code]; [congruence|].
  pose proof Hc as Hc'. simpl in Hc'. apply andb_true_iff in Hc' as [Hh _].
  cbn [regexp.FindStringSubmatch]. rewrite Hh, Hrun. simpl.
  now rewrite append_empty_r.
Qed.

Lemma goType_code (code t : string) :
  all_bytes regexp.scalar_class code = true -> code <> EmptyString ->
  scalar_goType code = Some t ->
  goType code = Ok t.
Proof.
  intros Hc Hne Ht. unfold goType.
  rewrite (FindStringSubmatch_bare code Hc Hne), Ht. reflexivity.
Qed.

Lemma goType_code_array (code t n : string) :
  all_bytes regexp.scalar_class code = true -> code <> EmptyString ->
  scalar_goType code = Some t -> decimal_text n ->
  goType (code +:+ "[" +:+ n +:+ "]") = Ok (array_of n t).
Proof.
  intros Hc Hne Ht Hn. unfold goType.
  rewrite (FindStringSubmatch_array code n Hc Hne Hn), Ht.
  cbn. unfold array_of. now rewrite !append_assoc.
Qed.

(** C1. Every type code of the table of section 4.3 resolves, bare, to
    the Go type of its documented element type, and, followed by a
    decimal array length in brackets, to the array type of that length
    and element type; so ["U4"] gives [uint32] and ["U4[12]"] gives
    [[12]uint32]. *)
Theorem goType_resolves_table (code : string) (t : elem_type) :
  (code, t) ∈ spec_type_table ->
  goType code = Ok (go_name t) /\
  forall n, decimal_text n ->
    goType (code +:+ "[" +:+ n +:+ "]") = Ok (array_of n (go_name t)).
Proof.
  intros Hin. unfold spec_type_table in Hin.
  repeat (apply elem_of_cons in Hin as [Hin | Hin];
          [ injection Hin as -> ->; split;
            [ apply goType_code; [reflexivity | discriminate | reflexivity]
            | intros n Hn; apply goType_code_array;
              [reflexivity | discriminate | reflexivity | exact Hn] ]
          | ]).
  apply elem_of_nil in Hin. destruct Hin.
Qed.

Lemma goType_resolves_table_witness :
  goType "U4" = Ok "uint32" /\ goType "U4[12]" = Ok "[12]uint32".
Proof.
  assert (Hin : ("U4"%string, Uint32) ∈ spec_type_table).
  { unfold spec_type_table. do 11 apply list_elem_of_further.
    apply list_elem_of_here. }
  destruct (goType_resolves_table "U4" Uint32 Hin) as [H1 H2].
  split; [exact H1 |].
  apply (H2 "12"). split; [reflexivity | discriminate].
Defined.

(** C2. The expression of [goType] is not anchored: a string whose
    bracketed suffix is not a decimal number is resolved as the bare
    code, the suffix dropped without an error. A string that starts
    outside the class fails only when the first run of class bytes in it
    is not a type code. *)
Theorem goType_ignores_malformed_suffix :
  goType "U4[abc]" = Ok "uint32" /\
  goType "U4[]" = Ok "uint32" /\
  goType "QU4" = Ok "uint32" /\
  goType "Q9" = Err (InvalidScalarPart "Q9" "9").
Proof. repeat split; vm_compute; reflexivity. Qed.

(** ** The naming helper *)

Lemma Split_not_nil (s : string) (sep : ascii) : strings.Split s sep <> [].
Proof.
  destruct s as [|c s]; simpl; [discriminate|].
  destruct (Ascii.eqb c sep); [discriminate|].
  destruct (strings.Split s sep); discriminate.
Qed.

(** The loop of [msgtypename] stores the title-cased text of every slot. *)
Lemma title_parts_spec (mapTitle : string -> string) (done todo : list string) :
  title_parts mapTitle (length todo) (length done) (done ++ todo)
  = done ++ map (cases.Title mapTitle) todo.
Proof.
  revert done. induction todo as [|v todo IH]; intros done; simpl.
  - reflexivity.
  - rewrite lookup_app_r by lia. rewrite Nat.sub_diag. simpl.
    rewrite insert_app_r_alt by lia. rewrite Nat.sub_diag. simpl.
    specialize (IH (done ++ [cases.Title mapTitle v])).
    rewrite length_app in IH. simpl in IH.
    rewrite Nat.add_1_r in IH. rewrite <- !app_assoc in IH. simpl in IH.
    exact IH.
Qed.

Lemma msgtypename_eq (mapLower mapTitle : string -> string) (s : string) :
  msgtypename mapLower mapTitle s
  = Some (strings.Join
            (drop 1 (map (cases.Title mapTitle)
                         (strings.Split (cases.ToLower mapLower s) "-")))).
Proof.
  unfold msgtypename.
  pose proof (title_parts_spec mapTitle []
                (strings.Split (cases.ToLower mapLower s) "-")) as H.
  simpl in H. rewrite H. unfold slice_from. rewrite length_map.
  pose proof (Split_not_nil (cases.ToLower mapLower s) "-") as Hne.
  destruct (strings.Split (cases.ToLower mapLower s) "-"); [congruence|].
  reflexivity.
Qed.

(** C7. [msgtypename] lower-cases its input, splits it on the hyphen,
    title-cases each segment and joins the segments after the first, the
    leading one dropped: ["NAV-POSLLH"] gives ["Posllh"] and
    ["RXM-RAWX"] gives ["Rawx"]. *)
Theorem msgtypename_drops_leading_segment (mapLower mapTitle : string -> string) :
  msgtypename mapLower mapTitle "NAV-POSLLH" = Some "Posllh" /\
  msgtypename mapLower mapTitle "RXM-RAWX" = Some "Rawx" /\
  forall s,
    msgtypename mapLower mapTitle s
    = Some (strings.Join
              (drop 1 (map (cases.Title mapTitle)
                           (strings.Split (cases.ToLower mapLower s) "-")))).
Proof.
  split; [vm_compute; reflexivity|]. split; [vm_compute; reflexivity|].
  apply msgtypename_eq.
Qed.

Lemma Split_no_sep (s : string) (sep : ascii) :
  has_byte sep s = false -> strings.Split s sep = [s].
Proof.
  induction s as [|c s IH]; simpl; [reflexivity|].
  intros H. apply orb_false_iff in H as [Hc Hs].
  rewrite Hc, (IH Hs). reflexivity.
Qed.

Lemma lower_byte_hyphen (c : ascii) :
  Ascii.eqb c "-" = false -> Ascii.eqb (cases.lower_byte c) "-" = false.
Proof.
  destruct c as [[] [] [] [] [] [] [] []]; intros H; vm_compute in H |- *;
    congruence.
Qed.

Lemma map_lower_no_hyphen (s : string) :
  has_byte "-" s = false -> has_byte "-" (cases.map_bytes cases.lower_byte s) = false.
Proof.
  induction s as [|c s IH]; simpl; [reflexivity|].
  intros H. apply orb_false_iff in H as [Hc Hs].
  rewrite (lower_byte_hyphen c Hc), (IH Hs). reflexivity.
Qed.

(** C10. On an input without a hyphen [msgtypename] returns the empty
    string: the only segment is the leading one, which is dropped. The
    Unicode lower-casing of package [unicode], applied to input outside
    ASCII, is assumed not to produce a hyphen from other runes. *)
Theorem msgtypename_no_hyphen (mapLower mapTitle : string -> string) (s : string) :
  (forall t, cases.isASCII t = false -> has_byte "-" t = false ->
             has_byte "-" (mapLower t) = false) ->
  has_byte "-" s = false ->
  msgtypename mapLower mapTitle s = Some "".
Proof.
  intros Hmap Hs. rewrite msgtypename_eq.
  assert (Hl : has_byte "-" (cases.ToLower mapLower s) = false).
  { unfold cases.ToLower. destruct (cases.isASCII s) eqn:Ha.
    - now apply map_lower_no_hyphen.
    - now apply Hmap. }
  rewrite (Split_no_sep _ _ Hl). reflexivity.
Qed.

Lemma msgtypename_no_hyphen_witness :
  msgtypename (fun t => t) (fun t => t) "POSLLH" = Some "".
Proof.
  apply (msgtypename_no_hyphen (fun t => t) (fun t => t) "POSLLH").
  - intros t _ H. exact H.
  - reflexivity.
Defined.

(** ** The literal parser *)

Lemma u64_nonneg (x : Z) : 0 <= u64 x.
Proof. unfold u64. apply Z.mod_pos_bound. reflexivity. Qed.

(** [ParseUint] with base 0 and a bit size of 1 to 64, on a string that
    is not empty. *)
Lemma ParseUint_base0 (s : string) (bitSize : Z) :
  s <> EmptyString -> 1 <= bitSize <= 64 ->
  strconv.ParseUint s 0 bitSize =
  let (base, r) := strconv.base_prefix s in
  match strconv.digits true base (maxUint64 / base + 1)
                       (u64 (shl_u64 1 bitSize - 1)) r 0 false with
  | inl (v, e) => (v, Some e)
  | inr (n, underscores) =>
      if underscores && negb (strconv.underscoreOK s)
      then (0, Some strconv.ErrSyntax)
      else (n, None)
  end.
Proof.
  intros Hne Hb. destruct s as [|c s]; [congruence|].
  unfold strconv.ParseUint.
  change (0 =? 0) with true. cbv iota beta.
  change ((2 <=? 0) && (0 <=? 36)) with false. cbv iota beta.
  destruct (bitSize =? 0) eqn:E0; [lia|].
  destruct ((bitSize <? 0) || (bitSize >? 64)) eqn:E1; [lia|].
  reflexivity.
Qed.

(** An early return of the digit loop is a syntax error with the value 0
    or a range error with the largest value of the bit size. *)
Lemma digits_inl (base0 : bool) (base cutoff maxVal : Z) (s : string)
    (n : Z) (u : bool) (v : Z) (e : strconv.NumError) :
  strconv.digits base0 base cutoff maxVal s n u = inl (v, e) ->
  (e = strconv.ErrSyntax /\ v = 0) \/ (e = strconv.ErrRange /\ v = maxVal).
Proof.
  revert n u. induction s as [|ch s IH]; intros n u; simpl; [discriminate|].
  destruct ((byte ch =? 95) && base0); [apply IH|].
  destruct (strconv.digit_val (byte ch)) as [d|];
    [| intros [= <- <-]; now left].
  destruct (d >=? base); [intros [= <- <-]; now left|].
  destruct (n >=? cutoff); [intros [= <- <-]; now right|].
  destruct ((u64 (u64 (n * base) + d) <? u64 (n * base))
            || (u64 (u64 (n * base) + d) >? maxVal));
    [intros [= <- <-]; now right | apply IH].
Qed.

Lemma digits_inr_nonneg (base0 : bool) (base cutoff maxVal : Z) (s : string)
    (n : Z) (u : bool) (v : Z) (u' : bool) :
  strconv.digits base0 base cutoff maxVal s n u = inr (v, u') ->
  0 <= n -> 0 <= v.
Proof.
  revert n u. induction s as [|ch s IH]; intros n u; simpl.
  - intros [= <- <-]. trivial.
  - destruct ((byte ch =? 95) && base0); [apply IH|].
    destruct (strconv.digit_val (byte ch)) as [d|]; [| discriminate].
    destruct (d >=? base); [discriminate|].
    destruct (n >=? cutoff); [discriminate|].
    destruct ((u64 (u64 (n * base) + d) <? u64 (n * base))
              || (u64 (u64 (n * base) + d) >? maxVal)); [discriminate|].
    intros H _. apply (IH _ _ H). apply u64_nonneg.
Qed.

Lemma digit_val_literal (ch : ascii) (d : Z) :
  strconv.digit_val (byte ch) = Some d -> literal_byte ch = true.
Proof.
  unfold strconv.digit_val, literal_byte.
  destruct ((48 <=? byte ch) && (byte ch <=? 57));
    [intros _; now rewrite !orb_true_r|].
  destruct ((97 <=? lower (byte ch)) && (lower (byte ch) <=? 122));
    [intros _; now rewrite !orb_true_r | discriminate].
Qed.

Lemma digits_inr_bytes (base0 : bool) (base cutoff maxVal : Z) (s : string)
    (n : Z) (u : bool) (r : Z * bool) :
  strconv.digits base0 base cutoff maxVal s n u = inr r ->
  all_bytes literal_byte s = true.
Proof.
  revert n u. induction s as [|ch s IH]; intros n u; simpl; [reflexivity|].
  destruct (byte ch =? 95) eqn:E95.
  - assert (Hl : literal_byte ch = true) by (unfold literal_byte; now rewrite E95).
    rewrite Hl. simpl. destruct base0; simpl; [apply IH|].
    destruct (strconv.digit_val (byte ch)) as [d|]; [| discriminate].
    destruct (d >=? base); [discriminate|].
    destruct (n >=? cutoff); [discriminate|].
    destruct (_ || _); [discriminate | apply IH].
  - simpl. destruct (strconv.digit_val (byte ch)) as [d|] eqn:Ed; [| discriminate].
    rewrite (digit_val_literal ch d Ed). simpl.
    destruct (d >=? base); [discriminate|].
    destruct (n >=? cutoff); [discriminate|].
    destruct (_ || _); [discriminate | apply IH].
Qed.

Lemma base_prefix_bytes (s r : string) (base : Z) :
  strconv.base_prefix s = (base, r) ->
  all_bytes literal_byte r = true -> all_bytes literal_byte s = true.
Proof.
  destruct s as [|c0 rest]; simpl; [now intros [= <- <-]|].
  destruct (byte c0 =? 48) eqn:E0; [| now intros [= <- <-]].
  assert (H0 : literal_byte c0 = true).
  { unfold literal_byte. apply Z.eqb_eq in E0. rewrite E0. reflexivity. }
  rewrite H0. simpl.
  assert (Hl : forall c k, (lower (byte c) =? k) = true ->
                 (97 <=? k) && (k <=? 122) = true -> literal_byte c = true).
  { intros c k Hk Hr. unfold literal_byte. apply Z.eqb_eq in Hk.
    rewrite Hk, Hr. apply orb_true_r. }
  destruct rest as [|c1 [|c2 rest2]]; try now intros [= <- <-].
  destruct (lower (byte c1) =? 98) eqn:Eb;
    [intros [= <- <-] Hr; simpl; now rewrite (Hl c1 98 Eb eq_refl)|].
  destruct (lower (byte c1) =? 111) eqn:Eo;
    [intros [= <- <-] Hr; simpl; now rewrite (Hl c1 111 Eo eq_refl)|].
  destruct (lower (byte c1) =? 120) eqn:Ex;
    [intros [= <- <-] Hr; simpl; now rewrite (Hl c1 120 Ex eq_refl)|].
  now intros [= <- <-].
Qed.

(** A string that [ParseUint] accepts holds digits, letters and
    underscores only. *)
Lemma ParseUint_ok_bytes (s : string) (bitSize v : Z) :
  1 <= bitSize <= 64 ->
  strconv.ParseUint s 0 bitSize = (v, None) ->
  all_bytes literal_byte s = true.
Proof.
  intros Hb. destruct (decide (s = EmptyString)) as [-> | Hne]; [reflexivity|].
  rewrite (ParseUint_base0 s bitSize Hne Hb).
  destruct (strconv.base_prefix s) as [base r] eqn:Ep.
  destruct (strconv.digits _ _ _ _ r 0 false) as [[? ?] | [n u]] eqn:Ed;
    [discriminate|].
  intros _. apply (base_prefix_bytes s r base Ep).
  apply (digits_inr_bytes _ _ _ _ _ _ _ _ Ed).
Qed.

Lemma ParseUint_ok_nonneg (s : string) (bitSize v : Z) :
  1 <= bitSize <= 64 ->
  strconv.ParseUint s 0 bitSize = (v, None) -> 0 <= v.
Proof.
  intros Hb. destruct (decide (s = EmptyString)) as [-> | Hne]; [discriminate|].
  rewrite (ParseUint_base0 s bitSize Hne Hb).
  destruct (strconv.base_prefix s) as [base r] eqn:Ep.
  destruct (strconv.digits _ _ _ _ r 0 false) as [[? ?] | [n u]] eqn:Ed;
    [discriminate|].
  destruct (u && negb (strconv.underscoreOK s)); [discriminate|].
  intros [= <-]. apply (digits_inr_nonneg _ _ _ _ _ _ _ _ _ Ed). lia.
Qed.

Lemma literal_byte_not_colon (c : ascii) :
  literal_byte c = true -> Ascii.eqb c ":" = false.
Proof.
  destruct c as [[] [] [] [] [] [] [] []]; intros H; vm_compute in H |- *;
    congruence.
Qed.

Lemma literal_no_colon (s : string) :
  all_bytes literal_byte s = true -> has_byte ":" s = false.
Proof.
  induction s as [|c s IH]; simpl; [reflexivity|].
  intros H. apply andb_true_iff in H as [Hc Hs].
  rewrite (literal_byte_not_colon c Hc), (IH Hs). reflexivity.
Qed.

Lemma Split_pair (p0 p1 : string) (sep : ascii) :
  has_byte sep p0 = false -> has_byte sep p1 = false ->
  strings.Split (p0 +:+ String sep p1) sep = [p0; p1].
Proof.
  intros H0 H1. induction p0 as [|c p0 IH]; simpl.
  - rewrite Ascii.eqb_refl. now rewrite (Split_no_sep p1 sep H1).
  - simpl in H0. apply orb_false_iff in H0 as [Hc H0].
    rewrite Hc, (IH H0). reflexivity.
Qed.

Lemma Split_length (s : string) (sep : ascii) :
  length (strings.Split s sep) = S (count_byte sep s).
Proof.
  induction s as [|c s IH]; [reflexivity|]. simpl.
  destruct (Ascii.eqb c sep); simpl; [now rewrite IH|].
  destruct (strings.Split s sep); simpl in *; lia.
Qed.

Lemma has_byte_count (c : ascii) (s : string) :
  has_byte c s = false -> count_byte c s = O.
Proof.
  induction s as [|x s IH]; [reflexivity|]. simpl.
  intros H. apply orb_false_iff in H as [Hx Hs]. now rewrite Hx, (IH Hs).
Qed.

(** ** The bit-mask resolver *)

Lemma mask_range (p0 p1 : string) :
  has_byte ":" p0 = false -> has_byte ":" p1 = false ->
  mask (p0 +:+ ":" +:+ p1)
  = range_text (fst (strconv.ParseUint p0 0 8)) (fst (strconv.ParseUint p1 0 8)).
Proof.
  intros H0 H1. unfold mask.
  change (":" +:+ p1) with (String ":" p1).
  rewrite (Split_pair p0 p1 ":" H0 H1). reflexivity.
Qed.

Lemma mask_index (s : string) :
  has_byte ":" s = false ->
  mask s = index_text (fst (strconv.ParseUint s 0 8)).
Proof. intros H. unfold mask. rewrite (Split_no_sep s ":" H). reflexivity. Qed.

Lemma range_agrees_below_63 :
  forallb (fun hi => forallb (range_agrees hi) (seqZ 0 63)) (seqZ 0 63) = true.
Proof. vm_compute. reflexivity. Qed.

Lemma index_agrees_below_63 : forallb index_agrees (seqZ 0 63) = true.
Proof. vm_compute. reflexivity. Qed.

Lemma in_seqZ_63 (k : Z) : 0 <= k <= 62 -> In k (seqZ 0 63).
Proof. intros H. apply list_elem_of_In, elem_of_seqZ. lia. Qed.

Lemma range_text_spec (hi lo : Z) :
  0 <= hi <= 62 -> 0 <= lo <= 62 ->
  range_text hi lo = hex_literal (spec_range_mask hi lo).
Proof.
  intros Hh Hl. pose proof range_agrees_below_63 as H.
  rewrite forallb_forall in H. specialize (H hi (in_seqZ_63 hi Hh)).
  rewrite forallb_forall in H. specialize (H lo (in_seqZ_63 lo Hl)).
  now apply String.eqb_eq in H.
Qed.

Lemma index_text_spec (i : Z) :
  0 <= i <= 62 -> index_text i = hex_literal (spec_index_mask i).
Proof.
  intros Hi. pose proof index_agrees_below_63 as H.
  rewrite forallb_forall in H. specialize (H i (in_seqZ_63 i Hi)).
  now apply String.eqb_eq in H.
Qed.

(** C3, as stated, fails from bit 63 on: [1 << 63] is negative as an
    [int] and is printed with a sign, and higher counts shift to zero. *)
Lemma mask_bit_63_signed :
  parses_as "63" 63 /\ parses_as "64" 64 /\
  mask "63" = "0x-8000000000000000" /\
  mask "63" <> hex_literal (spec_index_mask 63) /\
  mask "64" = "0x0" /\
  mask "64" <> hex_literal (spec_index_mask 64) /\
  parses_as "0" 0 /\
  mask "63:0" = "0x-1" /\
  mask "63:0" <> hex_literal (spec_range_mask 63 0).
Proof. repeat split; try (vm_compute; congruence). Qed.

(** C3, amended. The four examples hold, and up to bit 62 the result is
    the hexadecimal literal of the mask of the specification:
    [((1 << (hi+1)) - 1) XOR ((1 << lo) - 1)] for a range [hi:lo] of
    parsable components with [lo <= hi <= 62], and [1 << i] for a
    parsable single index [i <= 62]. *)
Theorem mask_hex_literal :
  mask "3" = "0x8" /\ mask "0" = "0x1" /\
  mask "7:4" = "0xf0" /\ mask "0:0" = "0x1" /\
  (forall p0 p1 hi lo,
     parses_as p0 hi -> parses_as p1 lo -> lo <= hi -> hi <= 62 ->
     mask (p0 +:+ ":" +:+ p1) = hex_literal (spec_range_mask hi lo)) /\
  (forall s i,
     parses_as s i -> i <= 62 ->
     mask s = hex_literal (spec_index_mask i)).
Proof.
  do 4 (split; [vm_compute; reflexivity|]).
  assert (Hb : 1 <= 8 <= 64) by lia.
  split.
  - intros p0 p1 hi lo H0 H1 Hle H62.
    pose proof (ParseUint_ok_nonneg _ _ _ Hb H0).
    pose proof (ParseUint_ok_nonneg _ _ _ Hb H1).
    rewrite mask_range
      by (apply literal_no_colon; eapply ParseUint_ok_bytes; eauto).
    unfold parses_as in H0, H1. rewrite H0, H1. simpl.
    apply range_text_spec; lia.
  - intros s i Hs H62.
    pose proof (ParseUint_ok_nonneg _ _ _ Hb Hs).
    rewrite mask_index
      by (apply literal_no_colon; eapply ParseUint_ok_bytes; eauto).
    unfold parses_as in Hs. rewrite Hs. simpl.
    apply index_text_spec; lia.
Qed.

Lemma mask_hex_literal_witness :
  mask "0x3e:0b1" = hex_literal (spec_range_mask 62 1) /\
  mask "0o17" = hex_literal (spec_index_mask 15).
Proof.
  destruct mask_hex_literal as (_ & _ & _ & _ & Hr & Hi).
  split.
  - apply (Hr "0x3e" "0b1" 62 1); [reflexivity | reflexivity | lia | lia].
  - apply (Hi "0o17" 15); [reflexivity | lia].
Defined.

Lemma digits_no_digit (cutoff maxVal : Z) (s : string) (u : bool) :
  no_digit s ->
  strconv.digits true 10 cutoff maxVal s 0 u = inl (0, strconv.ErrSyntax)
  \/ exists u', strconv.digits true 10 cutoff maxVal s 0 u = inr (0, u').
Proof.
  unfold no_digit. revert u.
  induction s as [|ch s IH]; intros u; simpl; [right; eauto|].
  intros H. apply andb_true_iff in H as [Hc Hs].
  unfold regexp.digit_class in Hc. apply negb_true_iff in Hc.
  destruct (byte ch =? 95); simpl; [now apply IH|].
  unfold strconv.digit_val. rewrite Hc.
  destruct ((97 <=? lower (byte ch)) && (lower (byte ch) <=? 122)) eqn:El;
    [| now left].
  apply andb_true_iff in El as [El _]. apply Z.leb_le in El.
  destruct (lower (byte ch) - 97 + 10 >=? 10) eqn:Ed; [now left|].
  rewrite Z.geb_leb in Ed. apply Z.leb_gt in Ed. lia.
Qed.

Lemma ParseUint_no_digit (s : string) :
  no_digit s -> fst (strconv.ParseUint s 0 8) = 0.
Proof.
  intros Hs. destruct (decide (s = EmptyString)) as [-> | Hne]; [reflexivity|].
  rewrite (ParseUint_base0 s 8 Hne) by lia.
  assert (Hp : strconv.base_prefix s = (10, s)).
  { destruct s as [|c0 rest]; [congruence|]. simpl.
    unfold no_digit in Hs. simpl in Hs. apply andb_true_iff in Hs as [Hc _].
    unfold regexp.digit_class in Hc. apply negb_true_iff in Hc.
    destruct (byte c0 =? 48) eqn:E0; [| reflexivity].
    apply Z.eqb_eq in E0. rewrite E0 in Hc. discriminate. }
  rewrite Hp.
  destruct (digits_no_digit (maxUint64 / 10 + 1) (u64 (shl_u64 1 8 - 1)) s
                            false Hs) as [-> | [u' ->]]; [reflexivity|].
  destruct (u' && negb (strconv.underscoreOK s)); reflexivity.
Qed.

Lemma Split_no_digit (s : string) (sep : ascii) :
  no_digit s -> Forall no_digit (strings.Split s sep).
Proof.
  unfold no_digit. induction s as [|c s IH]; simpl.
  - intros _. constructor; [reflexivity | constructor].
  - intros H. apply andb_true_iff in H as [Hc Hs]. specialize (IH Hs).
    destruct (Ascii.eqb c sep).
    + constructor; [reflexivity | exact IH].
    + destruct (strings.Split s sep) as [|q qs].
      * constructor; [simpl; now rewrite Hc | constructor].
      * inversion IH as [|? ? Hq Hqs]; subst.
        constructor; [simpl; now rewrite Hc, Hq | exact Hqs].
Qed.

(** C4, as stated, fails on a component whose leading digits exceed 255:
    [ParseUint] reports a range error, also before it reaches an invalid
    byte, and returns the largest 8-bit value, not zero. *)
Lemma mask_range_error_is_255 :
  strconv.ParseUint "999x" 0 8 = (255, Some strconv.ErrRange) /\
  strconv.ParseUint "999x" 0 64 = (0, Some strconv.ErrSyntax) /\
  mask "999x" = "0x0" /\
  mask "999x" <> mask "0" /\
  strconv.ParseUint "256" 0 8 = (255, Some strconv.ErrRange) /\
  mask "256" = "0x0" /\
  mask "300:z" = "0x-1" /\
  mask "300:z" <> mask "0:0".
Proof. repeat split; try (vm_compute; congruence). Qed.

Lemma ParseUint8_error_kind (comp : string) (v : Z) (e : strconv.NumError) :
  strconv.ParseUint comp 0 8 = (v, Some e) ->
  (e = strconv.ErrSyntax /\ v = 0) \/ (e = strconv.ErrRange /\ v = 255).
Proof.
  destruct (decide (comp = EmptyString)) as [-> | Hne];
    [intros [= <- <-]; now left|].
  rewrite (ParseUint_base0 comp 8 Hne) by lia.
  destruct (strconv.base_prefix comp) as [base r].
  destruct (strconv.digits _ _ _ _ r 0 false) as [[v' e'] | [n u]] eqn:Ed.
  - intros [= <- <-]. apply (digits_inl _ _ _ _ _ _ _ _ _ Ed).
  - destruct (u && negb (strconv.underscoreOK comp)); [| discriminate].
    intros [= <- <-]. now left.
Qed.

(** The number a component counts as is the number that [mask] takes
    from [ParseUint], whatever the error. *)
Lemma counts_as_fst (comp : string) (v : Z) :
  counts_as comp v -> fst (strconv.ParseUint comp 0 8) = v /\ 0 <= v.
Proof.
  unfold counts_as, parses_as.
  destruct (strconv.ParseUint comp 0 8) as [v' [e|]] eqn:E; simpl.
  - destruct (ParseUint8_error_kind comp v' e E) as [[-> ->] | [-> ->]];
      intros ->; split; [reflexivity | lia | reflexivity | lia].
  - intros [= <-]. split; [reflexivity|].
    apply (ParseUint_ok_nonneg comp 8 v'); [lia | exact E].
Qed.

Lemma counts_as_total (comp : string) : exists v, counts_as comp v.
Proof.
  unfold counts_as, parses_as.
  destruct (strconv.ParseUint comp 0 8) as [v' [e|]] eqn:E; simpl.
  - destruct (ParseUint8_error_kind comp v' e E) as [[-> _] | [-> _]]; eauto.
  - eauto.
Qed.

(** Without a colon, and with two colons or more, the whole text is one
    index. *)
Lemma mask_not_range (s : string) :
  count_byte ":" s <> 1%nat ->
  mask s = index_text (fst (strconv.ParseUint s 0 8)).
Proof.
  intros Hc. pose proof (Split_length s ":") as Hl. unfold mask.
  destruct (strings.Split s ":") as [|p0 [|p1 [|p2 ps]]]; try reflexivity.
  simpl in Hl. lia.
Qed.

(** C4, amended. [mask] returns a mask text on every input: the error of
    [ParseUint] is dropped, and the result is the mask of the numbers
    that the components count as. A component on which [ParseUint]
    reports a syntax error counts as zero, and one on which it reports a
    range error counts as 255; a specifier without any digit gives the
    mask of bit 0. *)
Theorem mask_discards_parse_error :
  (forall comp v e,
     strconv.ParseUint comp 0 8 = (v, Some e) ->
     (e = strconv.ErrSyntax /\ v = 0) \/ (e = strconv.ErrRange /\ v = 255)) /\
  (forall s, no_digit s -> mask s = "0x1") /\
  (forall comp, exists v, counts_as comp v) /\
  (forall p0 p1 hi lo,
     has_byte ":" p0 = false -> has_byte ":" p1 = false ->
     counts_as p0 hi -> counts_as p1 lo ->
     mask (p0 +:+ ":" +:+ p1) = range_text hi lo
     /\ (lo <= hi -> hi <= 62 ->
         mask (p0 +:+ ":" +:+ p1) = hex_literal (spec_range_mask hi lo))) /\
  (forall s i,
     count_byte ":" s <> 1%nat -> counts_as s i ->
     mask s = index_text i
     /\ (i <= 62 -> mask s = hex_literal (spec_index_mask i))
     /\ (i = 255 -> mask s = "0x0")).
Proof.
  split; [exact ParseUint8_error_kind|].
  split; [| split; [exact counts_as_total | split]].
  - intros s Hs. unfold mask.
    pose proof (Split_no_digit s ":" Hs) as Hf.
    pose proof (ParseUint_no_digit s Hs) as Hz.
    destruct (strings.Split s ":") as [|p0 [|p1 [|p2 ps]]];
      try (rewrite Hz; reflexivity).
    inversion Hf as [|? ? H0 Hf1]; subst.
    inversion Hf1 as [|? ? H1 _]; subst.
    rewrite (ParseUint_no_digit p0 H0), (ParseUint_no_digit p1 H1).
    reflexivity.
  - intros p0 p1 hi lo Hc0 Hc1 H0 H1.
    destruct (counts_as_fst p0 hi H0) as [E0 Hhi].
    destruct (counts_as_fst p1 lo H1) as [E1 Hlo].
    rewrite (mask_range p0 p1 Hc0 Hc1), E0, E1.
    split; [reflexivity|]. intros Hle H62. apply range_text_spec; lia.
  - intros s i Hc Hs. destruct (counts_as_fst s i Hs) as [Es Hi].
    rewrite (mask_not_range s Hc), Es.
    split; [reflexivity|]. split.
    + intros H62. apply index_text_spec; lia.
    + intros ->. reflexivity.
Qed.

Lemma mask_discards_parse_error_witness :
  ((strconv.ErrSyntax = strconv.ErrSyntax /\ 0 = 0)
   \/ (strconv.ErrSyntax = strconv.ErrRange /\ 0 = 255)) /\
  mask "x:y" = "0x1" /\
  mask "7:x" = hex_literal (spec_range_mask 7 0) /\
  mask "300:z" = range_text 255 0 /\
  mask "999x" = "0x0" /\
  mask "1:2:3" = hex_literal (spec_index_mask 0).
Proof.
  destruct mask_discards_parse_error as (He & Hm & _ & Hr & Hi).
  split; [| split; [| split; [| split; [| split]]]].
  - apply (He "1_" 0 strconv.ErrSyntax). reflexivity.
  - apply (Hm "x:y"). reflexivity.
  - apply (Hr "7" "x" 7 0); [reflexivity .. | lia | lia].
  - apply (Hr "300" "z" 255 0); reflexivity.
  - apply (Hi "999x" 255); [vm_compute; lia | reflexivity | reflexivity].
  - apply (Hi "1:2:3" 0); [vm_compute; lia | reflexivity | lia].
Defined.

(** ** The literal parser and the grammar of integer literals *)

Lemma byte_range (c : ascii) : 0 <= byte c < 256.
Proof. destruct c as [[] [] [] [] [] [] [] []]; vm_compute; split; congruence. Qed.

Lemma lower_checked_all : forallb lower_checked (seqZ 0 256) = true.
Proof. vm_compute. reflexivity. Qed.

Lemma lower_spec (x : Z) :
  0 <= x < 256 ->
  (65 <= x <= 90 -> lower x = x + 32)
  /\ (97 <= x <= 122 -> lower x = x)
  /\ (97 <= lower x <= 122 -> 65 <= x <= 90 \/ 97 <= x <= 122).
Proof.
  intros Hx. pose proof lower_checked_all as H.
  rewrite forallb_forall in H.
  assert (Hin : In x (seqZ 0 256)) by (apply list_elem_of_In, elem_of_seqZ; lia).
  specialize (H x Hin). unfold lower_checked in H.
  apply andb_true_iff in H as [H H3]. apply andb_true_iff in H as [H1 H2].
  repeat split.
  - intros Hr. destruct ((65 <=? x) && (x <=? 90)) eqn:E; simpl in H1; [lia|].
    apply andb_false_iff in E as [E | E]; lia.
  - intros Hr. destruct ((97 <=? x) && (x <=? 122)) eqn:E; simpl in H2; [lia|].
    apply andb_false_iff in E as [E | E]; lia.
  - intros Hr. destruct ((97 <=? lower x) && (lower x <=? 122)) eqn:E.
    + simpl in H3. apply orb_true_iff in H3 as [H3 | H3];
        apply andb_true_iff in H3 as [Ha Hb]; lia.
    + apply andb_false_iff in E as [E | E]; lia.
Qed.

(** Case analysis on the comparisons of a goal or a hypothesis. *)
Ltac cmp_cases :=
  repeat (match goal with
  | |- context [?a <=? ?b] => destruct (Z.leb_spec a b)
  | |- context [?a <? ?b] => destruct (Z.ltb_spec a b)
  | |- context [?a =? ?b] => destruct (Z.eqb_spec a b)
  | H : context [?a <=? ?b] |- _ => destruct (Z.leb_spec a b)
  | H : context [?a <? ?b] |- _ => destruct (Z.ltb_spec a b)
  | H : context [?a =? ?b] |- _ => destruct (Z.eqb_spec a b)
  end; simpl in *).

(** A digit of the grammar is a digit for the loop of [ParseUint]. *)
Lemma digit_of_digit_val (base : Z) (c : ascii) (d : Z) :
  literal.digit_of base c = Some d ->
  (byte c =? 95) = false /\ strconv.digit_val (byte c) = Some d
  /\ 0 <= d < base.
Proof.
  pose proof (byte_range c) as Hr.
  destruct (lower_spec (byte c) Hr) as (Hu & Hl & _).
  intros H.
  assert (Hd : ((48 <= byte c <= 57 /\ d = byte c - 48)
                \/ (97 <= byte c <= 102 /\ d = byte c - 87)
                \/ (65 <= byte c <= 70 /\ d = byte c - 55)) /\ d < base).
  { unfold literal.digit_of, literal.digit_value in H.
    cmp_cases; try discriminate; injection H as <-; lia. }
  clear H. unfold strconv.digit_val.
  destruct Hd as [[(Hr1 & ->) | [(Hr1 & ->) | (Hr1 & ->)]] Hlt].
  - clear Hu Hl. cmp_cases; try lia. repeat split; lia.
  - rewrite Hl by lia. clear Hu Hl. cmp_cases; try lia.
    repeat split; try lia. f_equal; lia.
  - rewrite Hu by lia. clear Hu Hl. cmp_cases; try lia.
    repeat split; try lia. f_equal; lia.
Qed.

(** A byte that the loop takes as a digit below [base], with [base] at
    most 16, is a digit of the grammar. *)
Lemma digit_val_digit_of (base : Z) (c : ascii) (d : Z) :
  strconv.digit_val (byte c) = Some d -> (d >=? base) = false -> base <= 16 ->
  literal.digit_of base c = Some d.
Proof.
  pose proof (byte_range c) as Hr.
  destruct (lower_spec (byte c) Hr) as (Hu & Hl & Hc).
  unfold literal.digit_of, literal.digit_value, strconv.digit_val.
  intros H Hd Hb. rewrite Z.geb_leb in Hd. apply Z.leb_gt in Hd.
  destruct ((48 <=? byte c) && (byte c <=? 57)) eqn:E1.
  - injection H as <-. cmp_cases; try lia; reflexivity.
  - destruct ((97 <=? lower (byte c)) && (lower (byte c) <=? 122)) eqn:E2;
      [| discriminate].
    injection H as <-. apply andb_true_iff in E2 as [Ea Eb].
    apply Z.leb_le in Ea, Eb.
    destruct (Hc (conj Ea Eb)) as [Hup | Hlo].
    + rewrite (Hu Hup) in *. cmp_cases; try lia; f_equal; lia.
    + rewrite (Hl Hlo) in *. cmp_cases; try lia; f_equal; lia.
Qed.

Lemma u64_small (x : Z) : 0 <= x <= maxUint64 -> u64 x = x.
Proof. intros H. unfold u64. apply Z.mod_small. unfold maxUint64 in H. lia. Qed.

(** The overflow test [n1 < n] of the digit loop. *)
Lemma u64_add_no_wrap (n d : Z) :
  0 <= n <= maxUint64 -> 0 <= d <= maxUint64 ->
  (u64 (n + d) <? n) = false -> u64 (n + d) = n + d.
Proof.
  intros Hn Hd H. apply Z.ltb_ge in H.
  destruct (Z_le_gt_dec (n + d) maxUint64) as [Hs | Hb].
  - apply u64_small. lia.
  - exfalso. unfold u64, maxUint64 in *.
    assert (E : (n + d) mod 2 ^ 64 = n + d - 2 ^ 64).
    { symmetry. apply (Z.mod_unique (n + d) (2 ^ 64) 1); lia. }
    lia.
Qed.

Lemma digits_inr_loose (base maxVal : Z) (s : string) (n : Z) (u : bool)
    (v : Z) (u' : bool) :
  2 <= base <= 16 -> maxVal <= maxUint64 -> 0 <= n ->
  strconv.digits true base (maxUint64 / base + 1) maxVal s n u = inr (v, u') ->
  loose base n s v /\ u' = u || has_byte "_" s.
Proof.
  intros Hb Hm. revert n u.
  induction s as [|ch s IH]; intros n u Hn; simpl.
  - intros [= <- <-]. split; [constructor | now rewrite orb_false_r].
  - rewrite byte_eqb. change (byte "_") with 95.
    destruct (byte ch =? 95) eqn:E95; simpl.
    + intros H. destruct (IH n true Hn H) as [Hl ->].
      apply Z.eqb_eq in E95.
      assert (ch = "_"%char) as -> by (apply byte_inj; exact E95).
      split; [now constructor | now rewrite orb_true_r].
    + destruct (strconv.digit_val (byte ch)) as [d|] eqn:Ed; [| discriminate].
      destruct (d >=? base) eqn:Eb; [discriminate|].
      pose proof (digit_val_digit_of base ch d Ed Eb ltac:(lia)) as Hdig.
      destruct (digit_of_digit_val base ch d Hdig) as (_ & _ & Hd).
      destruct (n >=? maxUint64 / base + 1) eqn:Ec; [discriminate|].
      rewrite Z.geb_leb in Ec. apply Z.leb_gt in Ec.
      assert (Hnb : 0 <= n * base <= maxUint64).
      { split; [apply Z.mul_nonneg_nonneg; lia|].
        pose proof (Z.mul_div_le maxUint64 base ltac:(lia)) as Hq.
        transitivity (maxUint64 / base * base);
          [apply Z.mul_le_mono_nonneg_r; lia | now rewrite Z.mul_comm]. }
      rewrite (u64_small (n * base) Hnb).
      destruct (u64 (n * base + d) <? n * base) eqn:Ew; [discriminate|].
      simpl.
      assert (Hdm : 0 <= d <= maxUint64) by (unfold maxUint64; lia).
      rewrite (u64_add_no_wrap _ _ Hnb Hdm Ew).
      destruct (n * base + d >? maxVal); [discriminate|].
      intros H. destruct (IH (n * base + d) u ltac:(lia) H) as [Hl ->].
      split; [econstructor; eauto | reflexivity].
Qed.

Lemma digit_of_scan (base : Z) (hex : bool) (c : ascii) (d : Z) :
  base <= 10 \/ hex = true ->
  literal.digit_of base c = Some d ->
  ((48 <=? byte c) && (byte c <=? 57))
  || (hex && (97 <=? lower (byte c)) && (lower (byte c) <=? 102)) = true.
Proof.
  intros Hh H. pose proof (byte_range c) as Hr.
  destruct (lower_spec (byte c) Hr) as (Hu & Hl & _).
  assert (Hd : ((48 <= byte c <= 57 /\ d = byte c - 48)
                \/ (97 <= byte c <= 102 /\ d = byte c - 87)
                \/ (65 <= byte c <= 70 /\ d = byte c - 55)) /\ d < base).
  { unfold literal.digit_of, literal.digit_value in H.
    cmp_cases; try discriminate; injection H as <-; lia. }
  clear H.
  destruct Hd as [[(Hr1 & ->) | [(Hr1 & ->) | (Hr1 & ->)]] Hlt].
  - clear Hu Hl. cmp_cases; try lia; try reflexivity.
  - destruct Hh as [Hh | ->]; [lia|]. rewrite Hl by lia. clear Hu Hl.
    cmp_cases; try lia; try reflexivity.
  - destruct Hh as [Hh | ->]; [lia|]. rewrite Hu by lia. clear Hu Hl.
    cmp_cases; try lia; try reflexivity.
Qed.

Lemma scan_digit (base : Z) (hex : bool) (c : ascii) (d : Z) (s : string)
    (saw : strconv.saw_t) :
  base <= 10 \/ hex = true ->
  literal.digit_of base c = Some d ->
  strconv.underscore_scan hex (String c s) saw
  = strconv.underscore_scan hex s strconv.SawDigit.
Proof.
  intros Hh Hd. cbn [strconv.underscore_scan].
  now rewrite (digit_of_scan base hex c d Hh Hd).
Qed.

Lemma scan_underscore (hex : bool) (s : string) (saw : strconv.saw_t) :
  strconv.underscore_scan hex (String "_" s) saw
  = if strconv.saw_eqb saw strconv.SawDigit
    then strconv.underscore_scan hex s strconv.SawUnderscore
    else false.
Proof. destruct hex, saw; reflexivity. Qed.

(** Where [underscoreOK] accepts what the loop has read, the text is a
    digit sequence of the grammar. *)
Lemma scan_digits_lit (base : Z) (hex : bool) (n : Z) (r : string) (v : Z) :
  base <= 10 \/ hex = true ->
  loose base n r v ->
  (strconv.underscore_scan hex r strconv.SawUnderscore = true ->
   literal.digits_lit base n r v)
  /\ (strconv.underscore_scan hex r strconv.SawStart = true ->
      r = EmptyString \/ literal.digits_lit base n r v)
  /\ (strconv.underscore_scan hex r strconv.SawDigit = true ->
      r = EmptyString \/ literal.digits_lit base n r v
      \/ exists t, r = String "_" t /\ literal.digits_lit base n t v).
Proof.
  intros Hh Hl. induction Hl as [n | n s v Hl IH | n c d s v Hd Hl IH].
  - repeat split; try discriminate; now left.
  - rewrite !scan_underscore. simpl.
    repeat split; try discriminate.
    intros H. right. right. exists s. split; [reflexivity|].
    now apply IH.
  - rewrite !(scan_digit base hex c d s _ Hh Hd).
    assert (Hall : strconv.underscore_scan hex s strconv.SawDigit = true ->
                   literal.digits_lit base n (String c s) v).
    { intros H. destruct IH as (_ & _ & IH).
      destruct (IH H) as [-> | [Hd' | (t & -> & Hd')]].
      - inversion Hl; subst. now constructor.
      - now apply (literal.dl_more base n c d s v).
      - now apply (literal.dl_sep base n c d t v). }
    repeat split; intros H; auto.
Qed.

Lemma loose_no_underscore_scan (base : Z) (hex : bool) (n : Z) (r : string)
    (v : Z) (saw : strconv.saw_t) :
  base <= 10 \/ hex = true ->
  loose base n r v -> has_byte "_" r = false ->
  saw <> strconv.SawUnderscore ->
  strconv.underscore_scan hex r saw = true.
Proof.
  intros Hh Hl. revert saw.
  induction Hl as [n | n s v Hl IH | n c d s v Hd Hl IH]; intros saw Hu Hs.
  - destruct saw; simpl; congruence.
  - simpl in Hu. discriminate.
  - rewrite (scan_digit base hex c d s _ Hh Hd).
    simpl in Hu. apply orb_false_iff in Hu as [_ Hu].
    apply IH; [exact Hu | discriminate].
Qed.

Lemma maxVal_64 : u64 (shl_u64 1 64 - 1) = maxUint64.
Proof. reflexivity. Qed.

Lemma base_prefix_zero (rest : string) :
  strconv.base_prefix (String "0" rest)
  = match rest with
    | String c1 (String c2 rest2) =>
        if lower (byte c1) =? 98 then (2, String c2 rest2)
        else if lower (byte c1) =? 111 then (8, String c2 rest2)
        else if lower (byte c1) =? 120 then (16, String c2 rest2)
        else (8, rest)
    | _ => (8, rest)
    end.
Proof. reflexivity. Qed.

Lemma underscoreOK_zero (rest : string) :
  strconv.underscoreOK (String "0" rest)
  = match rest with
    | String c1 rest' =>
        if (lower (byte c1) =? 98) || (lower (byte c1) =? 111)
           || (lower (byte c1) =? 120)
        then strconv.underscore_scan (lower (byte c1) =? 120) rest'
                                     strconv.SawDigit
        else strconv.underscore_scan false rest strconv.SawDigit
    | EmptyString => true
    end.
Proof.
  destruct rest as [|c1 rest']; [reflexivity|].
  unfold strconv.underscoreOK. change (byte "0") with 48.
  change ((48 =? 45) || (48 =? 43)) with false. cbv beta iota.
  change (48 =? 48) with true.
  destruct (lower (byte c1) =? 98), (lower (byte c1) =? 111),
    (lower (byte c1) =? 120); reflexivity.
Qed.

Lemma underscoreOK_decimal (c0 : ascii) (rest : string) :
  (byte c0 =? 48) = false -> (byte c0 =? 45) = false ->
  (byte c0 =? 43) = false ->
  strconv.underscoreOK (String c0 rest)
  = strconv.underscore_scan false (String c0 rest) strconv.SawStart.
Proof.
  intros H48 H45 H43. unfold strconv.underscoreOK.
  rewrite H45, H43. cbv beta iota. simpl orb. cbv beta iota.
  rewrite H48. destruct rest; reflexivity.
Qed.

(** Past a prefix, or past the leading zero of an octal literal. *)
Lemma after_prefix (base : Z) (hex : bool) (r : string) (v : Z) (u : bool) :
  2 <= base <= 16 -> base <= 10 \/ hex = true ->
  strconv.digits true base (maxUint64 / base + 1) maxUint64 r 0 false
  = inr (v, u) ->
  u && negb (strconv.underscore_scan hex r strconv.SawDigit) = false ->
  r <> EmptyString ->
  literal.sep_digits base r v.
Proof.
  intros Hb Hh Hd Hu Hne.
  destruct (digits_inr_loose base maxUint64 r 0 false v u Hb ltac:(lia)
              ltac:(lia) Hd) as [Hl Hu'].
  simpl in Hu'.
  assert (Hs : strconv.underscore_scan hex r strconv.SawDigit = true).
  { destruct u.
    - simpl in Hu. now apply negb_false_iff in Hu.
    - apply (loose_no_underscore_scan base hex 0 r v); auto; discriminate. }
  destruct (scan_digits_lit base hex 0 r v Hh Hl) as (_ & _ & H3).
  destruct (H3 Hs) as [-> | [H | (t & -> & H)]]; [congruence | now left |].
  right. now exists t.
Qed.

(** A letter of a base prefix does not start the digits of an octal
    literal. *)
Lemma loose_not_prefix_letter (c1 : ascii) (t : string) (v : Z) :
  (lower (byte c1) =? 98) || (lower (byte c1) =? 111)
  || (lower (byte c1) =? 120) = true ->
  loose 8 0 (String c1 t) v -> False.
Proof.
  intros Hp Hl. pose proof (byte_range c1) as Hr.
  destruct (lower_spec (byte c1) Hr) as (_ & _ & Hc).
  assert (Hletter : 65 <= byte c1 <= 90 \/ 97 <= byte c1 <= 122).
  { apply Hc. cmp_cases; try discriminate; lia. }
  inversion Hl as [| ? ? ? Hl' | ? ? d ? ? Hd Hl']; subst.
  - change (byte "_") with 95 in Hletter. lia.
  - unfold literal.digit_of, literal.digit_value in Hd.
    clear Hp Hc. cmp_cases; try discriminate; try lia.
Qed.

Lemma prefix_letter (x : ascii) (k : Z) :
  lower (byte x) = k -> 97 <= k <= 122 ->
  byte x = k \/ byte x = k - 32.
Proof.
  intros Hk Hr.
  pose proof (byte_range x) as Hx.
  destruct (lower_spec (byte x) Hx) as (Hu & Hl & Hc).
  destruct (Hc ltac:(lia)) as [H | H].
  - rewrite (Hu H) in Hk. lia.
  - rewrite (Hl H) in Hk. lia.
Qed.

(** Whatever [ParseUint] with base 0 accepts is an integer literal of the
    Go language, and the value returned is the value of the literal. *)
Lemma ParseUint_ok_literal (s : string) (v : Z) :
  strconv.ParseUint s 0 64 = (v, None) -> literal.int_lit s v.
Proof.
  destruct s as [|c0 rest]; [discriminate|].
  rewrite ParseUint_base0 by (discriminate || lia). rewrite maxVal_64.
  destruct (byte c0 =? 48) eqn:E0.
  - apply Z.eqb_eq in E0.
    assert (c0 = "0"%char) as -> by (apply byte_inj; exact E0).
    rewrite base_prefix_zero, underscoreOK_zero.
    destruct rest as [|c1 t].
    { simpl. intros [= <-]. left. now left. }
    destruct ((lower (byte c1) =? 98) || (lower (byte c1) =? 111)
              || (lower (byte c1) =? 120)) eqn:Ep.
    + (* a prefix letter *)
      destruct t as [|c2 rest2].
      { destruct (strconv.digits _ _ _ _ _ 0 false) as [[? ?] | [n u]] eqn:Ed;
          [discriminate|].
        destruct (digits_inr_loose 8 maxUint64 _ 0 false n u ltac:(lia)
                    ltac:(lia) ltac:(lia) Ed) as [Hl _].
        now destruct (loose_not_prefix_letter c1 "" n Ep Hl). }
      destruct (Z.eqb_spec (lower (byte c1)) 98) as [Eb | Eb],
               (Z.eqb_spec (lower (byte c1)) 111) as [Eo | Eo],
               (Z.eqb_spec (lower (byte c1)) 120) as [Ex | Ex];
        try lia; try discriminate Ep;
        (destruct (strconv.digits _ _ _ _ _ 0 false) as [[? ?] | [n u]] eqn:Ed;
           [discriminate|];
         destruct (u && negb _) eqn:Eu; [discriminate|];
         intros [= <-]).
      * right. left. exists c1, (String c2 rest2).
        split; [reflexivity|]. split; [now apply prefix_letter|].
        apply (after_prefix 2 false _ _ u); auto; (lia || discriminate).
      * right. right. left. left. exists c1, (String c2 rest2).
        split; [reflexivity|]. split; [now apply prefix_letter|].
        apply (after_prefix 8 false _ _ u); auto; (lia || discriminate).
      * right. right. right. exists c1, (String c2 rest2).
        split; [reflexivity|]. split; [now apply prefix_letter|].
        apply (after_prefix 16 true _ _ u); auto; (lia || discriminate).
    + (* the leading zero of an octal literal *)
      assert (Hp : (let (base, r) :=
                      match t with
                      | String c2 rest2 =>
                          if lower (byte c1) =? 98 then (2, String c2 rest2)
                          else if lower (byte c1) =? 111 then (8, String c2 rest2)
                          else if lower (byte c1) =? 120 then (16, String c2 rest2)
                          else (8, String c1 t)
                      | EmptyString => (8, String c1 t)
                      end in (base, r)) = (8, String c1 t)).
      { apply orb_false_iff in Ep as [Ep Ex].
        apply orb_false_iff in Ep as [Eb Eo].
        rewrite Eb, Eo, Ex. now destruct t. }
      destruct (match t with String _ _ => _ | EmptyString => _ end)
        as [base r]. injection Hp as -> ->.
      destruct (strconv.digits _ _ _ _ _ 0 false) as [[? ?] | [n u]] eqn:Ed;
        [discriminate|].
      destruct (u && negb _) eqn:Eu; [discriminate|].
      intros [= <-]. right. right. left. right. exists (String c1 t).
      split; [reflexivity|].
      apply (after_prefix 8 false _ _ u); auto; (lia || discriminate).
  - (* a decimal literal *)
    assert (Hp : strconv.base_prefix (String c0 rest) = (10, String c0 rest))
      by (simpl; now rewrite E0).
    rewrite Hp.
    destruct (strconv.digits _ _ _ _ _ 0 false) as [[? ?] | [n u]] eqn:Ed;
      [discriminate|].
    destruct (digits_inr_loose 10 maxUint64 _ 0 false n u ltac:(lia)
                ltac:(lia) ltac:(lia) Ed) as [Hl Hu].
    simpl orb in Hu.
    assert (Hsign : (byte c0 =? 45) = false /\ (byte c0 =? 43) = false).
    { inversion Hl as [| ? ? ? Hl' | ? ? d ? ? Hd Hl']; subst.
      - now split.
      - unfold literal.digit_of, literal.digit_value in Hd.
        split; cmp_cases; try discriminate; try lia; reflexivity. }
    destruct Hsign as [H45 H43].
    rewrite (underscoreOK_decimal c0 rest E0 H45 H43).
    destruct (u && negb _) eqn:Eu; [discriminate|].
    intros [= <-].
    assert (Hs : strconv.underscore_scan false (String c0 rest)
                   strconv.SawStart = true).
    { destruct u.
      - simpl in Eu. now apply negb_false_iff in Eu.
      - apply (loose_no_underscore_scan 10 false 0 _ n);
          auto; try lia; discriminate. }
    destruct (scan_digits_lit 10 false 0 _ n ltac:(lia) Hl) as (_ & H2 & _).
    destruct (H2 Hs) as [? | Hd]; [discriminate|].
    left. right. exists c0, rest. split; [reflexivity|].
    split; [now apply Z.eqb_neq | exact Hd].
Qed.

(** The converse: the loop reads every digit sequence of the grammar
    whose value fits. *)
Lemma digits_lit_grows (base n : Z) (t : string) (v : Z) :
  literal.digits_lit base n t v -> 1 <= base -> 0 <= n -> n * base <= v.
Proof.
  intros H Hb. induction H as [n c d Hd | n c d s v Hd H IH | n c d s v Hd H IH];
    intros Hn; destruct (digit_of_digit_val base c d Hd) as (_ & _ & Hr).
  - lia.
  - assert (0 <= n * base) by (apply Z.mul_nonneg_nonneg; lia).
    specialize (IH ltac:(lia)). nia.
  - assert (0 <= n * base) by (apply Z.mul_nonneg_nonneg; lia).
    specialize (IH ltac:(lia)). nia.
Qed.

Lemma digits_step (base : Z) (c : ascii) (d : Z) (s : string) (n : Z) (u : bool) :
  literal.digit_of base c = Some d -> 2 <= base <= 16 -> 0 <= n ->
  n * base + d <= maxUint64 ->
  strconv.digits true base (maxUint64 / base + 1) maxUint64 (String c s) n u
  = strconv.digits true base (maxUint64 / base + 1) maxUint64 s
                   (n * base + d) u.
Proof.
  intros Hd Hb Hn Hv.
  destruct (digit_of_digit_val base c d Hd) as (E95 & Ev & Hr).
  assert (Hnb : 0 <= n * base) by (apply Z.mul_nonneg_nonneg; lia).
  cbn [strconv.digits]. rewrite E95, Ev. cbn [andb].
  assert (Eb : (d >=? base) = false)
    by (rewrite Z.geb_leb; apply Z.leb_gt; lia).
  rewrite Eb.
  assert (Ec : (n >=? maxUint64 / base + 1) = false).
  { rewrite Z.geb_leb. apply Z.leb_gt.
    assert (n <= maxUint64 / base); [| lia].
    apply Z.div_le_lower_bound; [lia|]. lia. }
  rewrite Ec. rewrite (u64_small (n * base)) by lia.
  rewrite (u64_small (n * base + d)) by lia.
  assert (E1 : (n * base + d <? n * base) = false) by (apply Z.ltb_ge; lia).
  assert (E2 : (n * base + d >? maxUint64) = false)
    by (rewrite Z.gtb_ltb; apply Z.ltb_ge; lia).
  rewrite E1, E2. reflexivity.
Qed.

Lemma digits_skip (base cutoff maxVal : Z) (s : string) (n : Z) (u : bool) :
  strconv.digits true base cutoff maxVal (String "_" s) n u
  = strconv.digits true base cutoff maxVal s n true.
Proof. reflexivity. Qed.

Lemma digits_lit_loop (base n : Z) (t : string) (v : Z) :
  literal.digits_lit base n t v -> 2 <= base <= 16 -> 0 <= n ->
  v <= maxUint64 ->
  forall u,
    strconv.digits true base (maxUint64 / base + 1) maxUint64 t n u
    = inr (v, u || has_byte "_" t).
Proof.
  intros H Hb.
  induction H as [n c d Hd | n c d s v Hd H IH | n c d s v Hd H IH];
    intros Hn Hv u;
    destruct (digit_of_digit_val base c d Hd) as (E95 & _ & Hr);
    assert (Hnb : 0 <= n * base) by (apply Z.mul_nonneg_nonneg; lia);
    assert (Hc : Ascii.eqb c "_" = false)
      by (rewrite byte_eqb; exact E95).
  - rewrite (digits_step base c d _ n u Hd Hb Hn Hv). simpl.
    now rewrite Hc, orb_false_r.
  - pose proof (digits_lit_grows _ _ _ _ H ltac:(lia) ltac:(lia)) as Hg.
    rewrite (digits_step base c d _ n u Hd Hb Hn) by nia.
    rewrite IH by lia. simpl. now rewrite Hc.
  - pose proof (digits_lit_grows _ _ _ _ H ltac:(lia) ltac:(lia)) as Hg.
    rewrite (digits_step base c d _ n u Hd Hb Hn) by nia.
    rewrite digits_skip. rewrite IH by lia. simpl.
    now rewrite Hc, orb_true_r.
Qed.

Lemma digits_lit_scan (base : Z) (hex : bool) (n : Z) (t : string) (v : Z) :
  literal.digits_lit base n t v -> base <= 10 \/ hex = true ->
  forall saw, strconv.underscore_scan hex t saw = true.
Proof.
  intros H Hh.
  induction H as [n c d Hd | n c d s v Hd H IH | n c d s v Hd H IH];
    intros saw; rewrite (scan_digit base hex c d _ saw Hh Hd).
  - reflexivity.
  - apply IH.
  - rewrite scan_underscore. simpl. apply IH.
Qed.

Lemma sep_digits_loop (base : Z) (hex : bool) (body : string) (v : Z) :
  literal.sep_digits base body v -> 2 <= base <= 16 ->
  base <= 10 \/ hex = true -> v <= maxUint64 ->
  body <> EmptyString
  /\ strconv.digits true base (maxUint64 / base + 1) maxUint64 body 0 false
     = inr (v, has_byte "_" body)
  /\ strconv.underscore_scan hex body strconv.SawDigit = true.
Proof.
  intros [H | (t & -> & H)] Hb Hh Hv.
  - split; [inversion H; discriminate|]. split.
    + now rewrite (digits_lit_loop base 0 body v H Hb ltac:(lia) Hv false).
    + now apply (digits_lit_scan base hex 0 body v).
  - split; [discriminate|]. split.
    + rewrite digits_skip.
      now rewrite (digits_lit_loop base 0 t v H Hb ltac:(lia) Hv true).
    + rewrite scan_underscore. simpl.
      now apply (digits_lit_scan base hex 0 t v).
Qed.

(** The result of [ParseUint] on a literal with a base prefix. *)
Lemma ParseUint_prefixed (base : Z) (hex : bool) (x : ascii) (body : string)
    (v : Z) :
  strconv.base_prefix (String "0" (String x body)) = (base, body) ->
  strconv.underscoreOK (String "0" (String x body))
  = strconv.underscore_scan hex body strconv.SawDigit ->
  literal.sep_digits base body v -> 2 <= base <= 16 ->
  base <= 10 \/ hex = true -> v <= maxUint64 ->
  strconv.ParseUint (String "0" (String x body)) 0 64 = (v, None).
Proof.
  intros Hp Hu Hs Hb Hh Hv.
  destruct (sep_digits_loop base hex body v Hs Hb Hh Hv) as (_ & Hd & Hsc).
  rewrite ParseUint_base0 by (discriminate || lia).
  rewrite maxVal_64, Hp, Hd, Hu, Hsc. simpl. now rewrite andb_false_r.
Qed.

Lemma lower_letter (x : ascii) (k : Z) :
  byte x = k \/ byte x = k - 32 -> 97 <= k <= 122 -> lower (byte x) = k.
Proof.
  intros Hx Hk. pose proof (byte_range x) as Hr.
  destruct (lower_spec (byte x) Hr) as (Hu & Hl & _).
  destruct Hx as [Hx | Hx]; [rewrite Hl | rewrite Hu]; lia.
Qed.

(** Every integer literal of the Go language whose value fits 64 bits is
    read by [ParseUint] with base 0, with its value. *)
Lemma ParseUint_accepts_literal (s : string) (v : Z) :
  literal.int_lit s v -> v <= maxUint64 ->
  strconv.ParseUint s 0 64 = (v, None).
Proof.
  intros [Hdec | [Hbin | [Hoct | Hhex]]] Hv.
  - (* decimal *)
    destruct Hdec as [[-> ->] | (c & t & -> & Hc & Hd)]; [reflexivity|].
    assert (Hc0 : literal.digit_of 10 c <> None).
    { inversion Hd; subst; congruence. }
    assert (Hsign : (byte c =? 45) = false /\ (byte c =? 43) = false).
    { unfold literal.digit_of, literal.digit_value in Hc0.
      split; cmp_cases; try congruence; try lia; reflexivity. }
    destruct Hsign as [H45 H43].
    apply Z.eqb_neq in Hc.
    rewrite ParseUint_base0 by (discriminate || lia). rewrite maxVal_64.
    assert (Hp : strconv.base_prefix (String c t) = (10, String c t))
      by (simpl; now rewrite Hc).
    rewrite Hp, (digits_lit_loop 10 0 _ v Hd) by lia.
    rewrite (underscoreOK_decimal c t Hc H45 H43).
    rewrite (digits_lit_scan 10 false 0 _ v Hd) by lia.
    simpl. now rewrite andb_false_r.
  - (* binary *)
    destruct Hbin as (x & body & -> & Hx & Hs).
    pose proof (lower_letter x 98 ltac:(lia) ltac:(lia)) as Hl.
    destruct (sep_digits_loop 2 false body v Hs) as (Hne & _); try lia.
    apply (ParseUint_prefixed 2 false); auto; try lia.
    + rewrite base_prefix_zero. destruct body; [congruence|].
      now rewrite Hl.
    + rewrite underscoreOK_zero. now rewrite Hl.
  - (* octal *)
    destruct Hoct as [(x & body & -> & Hx & Hs) | (body & -> & Hs)].
    + pose proof (lower_letter x 111 ltac:(lia) ltac:(lia)) as Hl.
      destruct (sep_digits_loop 8 false body v Hs) as (Hne & _); try lia.
      apply (ParseUint_prefixed 8 false); auto; try lia.
      * rewrite base_prefix_zero. destruct body; [congruence|].
        now rewrite Hl.
      * rewrite underscoreOK_zero. now rewrite Hl.
    + destruct (sep_digits_loop 8 false body v Hs) as (Hne & Hd & Hsc);
        try lia.
      destruct body as [|c1 t]; [congruence|].
      destruct (digits_inr_loose 8 maxUint64 _ 0 false _ _ ltac:(lia)
                  ltac:(lia) ltac:(lia) Hd) as [Hl _].
      assert (Ep : (lower (byte c1) =? 98) || (lower (byte c1) =? 111)
                   || (lower (byte c1) =? 120) = false).
      { destruct (_ || _) eqn:Ep; [| reflexivity].
        now destruct (loose_not_prefix_letter c1 t v Ep Hl). }
      rewrite ParseUint_base0 by (discriminate || lia). rewrite maxVal_64.
      rewrite base_prefix_zero, underscoreOK_zero, Ep.
      apply orb_false_iff in Ep as [Ep Ex].
      apply orb_false_iff in Ep as [Eb Eo].
      rewrite Eb, Eo, Ex.
      assert (Hm : (let (base, r) :=
                      match t with
                      | String _ _ => (8, String c1 t)
                      | EmptyString => (8, String c1 t)
                      end in
                    match strconv.digits true base (maxUint64 / base + 1)
                            maxUint64 r 0 false with
                    | inl (v0, e) => (v0, Some e)
                    | inr (n, underscores) =>
                        if underscores
                           && negb (strconv.underscore_scan false (String c1 t)
                                      strconv.SawDigit)
                        then (0, Some strconv.ErrSyntax)
                        else (n, None)
                    end) = (v, None)).
      { destruct t; rewrite Hd, Hsc; simpl; now rewrite andb_false_r. }
      exact Hm.
  - (* hexadecimal *)
    destruct Hhex as (x & body & -> & Hx & Hs).
    pose proof (lower_letter x 120 ltac:(lia) ltac:(lia)) as Hl.
    destruct (sep_digits_loop 16 true body v Hs) as (Hne & _);
      try lia; auto.
    apply (ParseUint_prefixed 16 true); auto; try lia.
    + rewrite base_prefix_zero. destruct body; [congruence|].
      now rewrite Hl.
    + rewrite underscoreOK_zero. now rewrite Hl.
Qed.

Lemma digits_inr_le (base0 : bool) (base cutoff maxVal : Z) (s : string)
    (n : Z) (u : bool) (v : Z) (u' : bool) :
  strconv.digits base0 base cutoff maxVal s n u = inr (v, u') ->
  n <= maxVal -> v <= maxVal.
Proof.
  revert n u. induction s as [|ch s IH]; intros n u; simpl.
  - intros [= <- <-]. trivial.
  - destruct ((byte ch =? 95) && base0); [apply IH|].
    destruct (strconv.digit_val (byte ch)) as [d|]; [| discriminate].
    destruct (d >=? base); [discriminate|].
    destruct (n >=? cutoff); [discriminate|].
    destruct (u64 (u64 (n * base) + d) <? u64 (n * base)); [discriminate|].
    simpl. destruct (u64 (u64 (n * base) + d) >? maxVal) eqn:E; [discriminate|].
    intros H _. apply (IH _ _ H).
    rewrite Z.gtb_ltb in E. now apply Z.ltb_ge in E.
Qed.

Lemma ParseUint_ok_le (s : string) (v : Z) :
  strconv.ParseUint s 0 64 = (v, None) -> v <= maxUint64.
Proof.
  destruct (decide (s = EmptyString)) as [-> | Hne]; [discriminate|].
  rewrite (ParseUint_base0 s 64 Hne) by lia. rewrite maxVal_64.
  destruct (strconv.base_prefix s) as [base r].
  destruct (strconv.digits _ _ _ _ r 0 false) as [[? ?] | [n u]] eqn:Ed;
    [discriminate|].
  destruct (u && negb (strconv.underscoreOK s)); [discriminate|].
  intros [= <-]. apply (digits_inr_le _ _ _ _ _ _ _ _ _ Ed).
  unfold maxUint64. lia.
Qed.

(** ** The class and id fields *)

Lemma Hex_accepts (s : string) (v : Z) (old : Hex) :
  literal.int_lit s v -> v <= maxUint64 ->
  Hex_UnmarshalXML (Ok s) old = (v, None).
Proof.
  intros Hl Hv. unfold Hex_UnmarshalXML.
  now rewrite (ParseUint_accepts_literal s v Hl Hv).
Qed.

(** C8. The text of a class or id element is read as decimal and as
    hexadecimal with the prefix [0x]: ["0x01"] and ["1"] both give 1, and
    every decimal or hexadecimal literal that fits 64 bits gives its
    value; a text that is not a valid unsigned integer literal, such as
    ["xyz"], gives a parse error and leaves the field as it was. *)
Theorem Hex_UnmarshalXML_literals (old : Hex) :
  Hex_UnmarshalXML (Ok "0x01") old = (1, None) /\
  Hex_UnmarshalXML (Ok "1") old = (1, None) /\
  Hex_UnmarshalXML (Ok "xyz") old = (old, Some (NumError strconv.ErrSyntax)) /\
  (forall s v,
     literal.decimal_lit s v \/ literal.hex_lit s v -> v <= maxUint64 ->
     Hex_UnmarshalXML (Ok s) old = (v, None)) /\
  (forall s,
     ~ valid_uint_literal s ->
     exists e, Hex_UnmarshalXML (Ok s) old = (old, Some (NumError e))).
Proof.
  do 3 (split; [reflexivity|]). split.
  - intros s v [H | H] Hv; apply Hex_accepts; auto; unfold literal.int_lit; auto.
  - intros s Hs. unfold Hex_UnmarshalXML.
    destruct (strconv.ParseUint s 0 64) as [v [e|]] eqn:E; [now exists e|].
    exfalso. apply Hs. exists v. split; [now apply ParseUint_ok_literal|].
    split; [apply (ParseUint_ok_nonneg s 64 v); [lia | exact E]
           | exact (ParseUint_ok_le s v E)].
Qed.

Lemma Hex_UnmarshalXML_literals_witness :
  Hex_UnmarshalXML (Ok "0xFf") 7 = (255, None) /\
  exists e, Hex_UnmarshalXML (Ok "0x") 7 = (7, Some (NumError e)).
Proof.
  destruct (Hex_UnmarshalXML_literals 7) as (_ & _ & _ & Ha & Hr). split.
  - apply (Ha "0xFf" 255); [| unfold maxUint64; lia].
    right. exists "x"%char, "Ff". split; [reflexivity|].
    split; [left; reflexivity|]. left.
    exact (literal.dl_more 16 0 "F" 15 "f" 255 eq_refl
             (literal.dl_last 16 15 "f" 15 eq_refl)).
  - apply (Hr "0x"). intros (v & Hl & _).
    destruct Hl as [Hl | [Hl | [Hl | Hl]]].
    + destruct Hl as [[H _] | (c & t & H & Hc & Hd)]; [discriminate|].
      injection H as <- <-. now apply Hc.
    + destruct Hl as (x & body & H & [Hx | Hx] & _); injection H as <- <-;
        discriminate Hx.
    + destruct Hl as [(x & body & H & [Hx | Hx] & _) | (body & H & Hs)].
      * injection H as <- <-. discriminate Hx.
      * injection H as <- <-. discriminate Hx.
      * injection H as <-.
        destruct Hs as [Hd | (t & H & _)]; [| discriminate].
        inversion Hd; subst; discriminate.
    + destruct Hl as (x & body & H & _ & Hs). injection H as <- <-.
      destruct Hs as [Hd | (t & H & _)]; [| discriminate].
      inversion Hd.
Defined.

(** C9. The parse is the one of base 0, so it reads more than decimal
    and [0x] literals: a literal with a leading zero is octal (["010"]
    is 8), the prefixes [0b] and [0o] are read, and single underscores
    may separate the digits; every integer literal of the Go language
    that fits 64 bits is accepted with its value. *)
Theorem Hex_UnmarshalXML_base0 (old : Hex) :
  Hex_UnmarshalXML (Ok "010") old = (8, None) /\
  Hex_UnmarshalXML (Ok "0b101") old = (5, None) /\
  Hex_UnmarshalXML (Ok "0o17") old = (15, None) /\
  Hex_UnmarshalXML (Ok "1_000") old = (1000, None) /\
  Hex_UnmarshalXML (Ok "0x_ff") old = (255, None) /\
  (forall s v,
     literal.octal_lit s v \/ literal.binary_lit s v -> v <= maxUint64 ->
     Hex_UnmarshalXML (Ok s) old = (v, None)) /\
  (forall s v,
     literal.int_lit s v -> has_byte "_" s = true -> v <= maxUint64 ->
     Hex_UnmarshalXML (Ok s) old = (v, None)).
Proof.
  do 5 (split; [reflexivity|]). split.
  - intros s v [H | H] Hv; apply Hex_accepts; auto; unfold literal.int_lit; auto.
  - intros s v H _ Hv. now apply Hex_accepts.
Qed.

Lemma Hex_UnmarshalXML_base0_witness :
  Hex_UnmarshalXML (Ok "0_17") 0 = (15, None) /\
  Hex_UnmarshalXML (Ok "1_0") 0 = (10, None).
Proof.
  destruct (Hex_UnmarshalXML_base0 0) as (_ & _ & _ & _ & _ & Ho & Hu).
  assert (H17 : literal.digits_lit 8 0 "17" 15).
  { exact (literal.dl_more 8 0 "1" 1 "7" 15 eq_refl
             (literal.dl_last 8 1 "7" 7 eq_refl)). }
  split.
  - apply (Ho "0_17" 15); [| unfold maxUint64; lia].
    left. right. exists "_17". split; [reflexivity|].
    right. exists "17". split; [reflexivity | exact H17].
  - apply (Hu "1_0" 10); [| reflexivity | unfold maxUint64; lia].
    left. right. exists "1"%char, "_0". split; [reflexivity|].
    split; [discriminate|].
    exact (literal.dl_sep 10 0 "1" 1 "0" 10 eq_refl
             (literal.dl_last 10 1 "0" 0 eq_refl)).
Defined.

(** ** The linker

    [Link] only stores back-references, and where it stores them depends
    on the slices of the graph alone, which it never changes. A run is
    therefore the application of a set of writes that is the same for
    every heap of the same shape. *)

Lemma heap_eq (h1 h2 : heap) :
  messages h1 = messages h2 -> blocks h1 = blocks h2 ->
  bitdefs h1 = bitdefs h2 -> h1 = h2.
Proof. destruct h1, h2; simpl; intros -> -> ->; reflexivity. Qed.

Lemma lookup_apply_blocks (w : writes) (h : heap) (a : loc) :
  blocks (apply_writes w h) !! a = write_Message w a <$> blocks h !! a.
Proof.
  simpl. rewrite map_lookup_imap. now destruct (blocks h !! a).
Qed.

Lemma lookup_apply_bitdefs (w : writes) (h : heap) (a : loc) :
  bitdefs (apply_writes w h) !! a = write_Field w a <$> bitdefs h !! a.
Proof.
  simpl. rewrite map_lookup_imap. now destruct (bitdefs h !! a).
Qed.

Lemma apply_after (w2 w1 : writes) (h : heap) :
  apply_writes w2 (apply_writes w1 h) = apply_writes (after w2 w1) h.
Proof.
  apply heap_eq; [reflexivity | |]; apply map_eq; intros a.
  - rewrite !lookup_apply_blocks. destruct (blocks h !! a) as [blk|]; simpl;
      [| reflexivity].
    f_equal. unfold write_Message, after. simpl. rewrite lookup_union.
    destruct (wr_Message w2 !! a), (wr_Message w1 !! a); reflexivity.
  - rewrite !lookup_apply_bitdefs. destruct (bitdefs h !! a) as [d|]; simpl;
      [| reflexivity].
    f_equal. unfold write_Field, after. simpl. rewrite lookup_union.
    destruct (wr_Field w2 !! a), (wr_Field w1 !! a); reflexivity.
Qed.

Lemma apply_no_writes (h : heap) : apply_writes no_writes h = h.
Proof.
  apply heap_eq; [reflexivity | |]; apply map_eq; intros a.
  - rewrite lookup_apply_blocks. unfold write_Message. simpl.
    rewrite lookup_empty. now destruct (blocks h !! a).
  - rewrite lookup_apply_bitdefs. unfold write_Field. simpl.
    rewrite lookup_empty. now destruct (bitdefs h !! a).
Qed.

Lemma after_idem (w : writes) : after w w = w.
Proof.
  destruct w as [wm wf]. unfold after. simpl.
  f_equal; apply map_eq; intros a; rewrite lookup_union;
    [destruct (wm !! a) | destruct (wf !! a)]; reflexivity.
Qed.

Lemma apply_same_shape (w : writes) (h : heap) :
  same_shape (apply_writes w h) h.
Proof.
  unfold same_shape, strip.
  apply heap_eq; [reflexivity | |]; apply map_eq; intros a;
    cbn [messages blocks bitdefs]; rewrite !lookup_fmap.
  - rewrite (lookup_apply_blocks w h a).
    destruct (blocks h !! a) as [blk|]; simpl; [| reflexivity].
    unfold write_Message. now destruct (wr_Message w !! a).
  - rewrite (lookup_apply_bitdefs w h a).
    destruct (bitdefs h !! a) as [d|]; simpl; [| reflexivity].
    unfold write_Field. now destruct (wr_Field w !! a).
Qed.

Lemma same_shape_sym (h1 h2 : heap) : same_shape h1 h2 -> same_shape h2 h1.
Proof. unfold same_shape. congruence. Qed.

Lemma same_shape_trans (h1 h2 h3 : heap) :
  same_shape h1 h2 -> same_shape h2 h3 -> same_shape h1 h3.
Proof. unfold same_shape. congruence. Qed.

Lemma same_shape_messages (h1 h2 : heap) :
  same_shape h1 h2 -> messages h1 = messages h2.
Proof. unfold same_shape, strip. now intros [= H _ _]. Qed.

(** Heaps of the same shape hold the same blocks, up to the field
    [Message]. *)
Lemma same_shape_block (h1 h2 : heap) (a : loc) :
  same_shape h1 h2 ->
  with_Message None <$> blocks h1 !! a = with_Message None <$> blocks h2 !! a.
Proof.
  unfold same_shape, strip. intros [= _ H _].
  rewrite <- !lookup_fmap. now rewrite H.
Qed.

Lemma same_shape_bitdef (h1 h2 : heap) (a : loc) :
  same_shape h1 h2 ->
  with_Field None <$> bitdefs h1 !! a = with_Field None <$> bitdefs h2 !! a.
Proof.
  unfold same_shape, strip. intros [= _ _ H].
  rewrite <- !lookup_fmap. now rewrite H.
Qed.

Lemma same_shape_block_Some (h1 h2 : heap) (a : loc) (blk : Block) :
  same_shape h1 h2 -> blocks h1 !! a = Some blk ->
  exists blk', blocks h2 !! a = Some blk'
    /\ Block_Bitfield blk' = Block_Bitfield blk
    /\ Block_Nested blk' = Block_Nested blk.
Proof.
  intros Hs Hb. pose proof (same_shape_block h1 h2 a Hs) as H.
  rewrite Hb in H. destruct (blocks h2 !! a) as [blk'|]; [| discriminate].
  exists blk'. split; [reflexivity|].
  assert (E : with_Message None blk = with_Message None blk')
    by (simpl in H; congruence).
  split.
  - change (Block_Bitfield (with_Message None blk')
            = Block_Bitfield (with_Message None blk)). now rewrite E.
  - change (Block_Nested (with_Message None blk')
            = Block_Nested (with_Message None blk)). now rewrite E.
Qed.

Lemma same_shape_bitdef_Some (h1 h2 : heap) (a : loc) (d : BitDef) :
  same_shape h1 h2 -> bitdefs h1 !! a = Some d ->
  is_Some (bitdefs h2 !! a).
Proof.
  intros Hs Hb. pose proof (same_shape_bitdef h1 h2 a Hs) as H.
  rewrite Hb in H. destruct (bitdefs h2 !! a); [eauto | discriminate].
Qed.

Lemma effect_seq (h0 : heap) (f : heap -> outcome) (g : heap -> outcome)
    (w1 w2 : writes) :
  effect h0 f w1 -> effect h0 g w2 ->
  effect h0 (fun h => andThen (f h) g) (after w2 w1).
Proof.
  intros Hf Hg h Hs. rewrite (Hf h Hs). simpl.
  rewrite (Hg (apply_writes w1 h)).
  - now rewrite apply_after.
  - eapply same_shape_trans; [apply apply_same_shape | exact Hs].
Qed.

Lemma effect_shape (h0 : heap) (f : heap -> outcome) (w : writes)
    (h h' : heap) :
  effect h0 f w -> same_shape h h0 -> f h = Done h' -> same_shape h' h0.
Proof.
  intros He Hs Hrun. rewrite (He h Hs) in Hrun. injection Hrun as <-.
  eapply same_shape_trans; [apply apply_same_shape | exact Hs].
Qed.

Lemma reach_same_shape (h1 h2 : heap) (p : ptr) (a : loc) :
  same_shape h1 h2 -> reach h1 p a -> reach h2 p a.
Proof.
  intros Hs H. induction H as [a blk Hb | a blk p a' Hb Hp H IH].
  - destruct (same_shape_block_Some h1 h2 a blk Hs Hb) as (blk' & Hb' & _).
    now apply (reach_here h2 a blk').
  - destruct (same_shape_block_Some h1 h2 a blk Hs Hb) as (blk' & Hb' & _ & Hn).
    apply (reach_nested h2 a blk' p a' Hb'); [now rewrite Hn | exact IH].
Qed.

Lemma encloses_same_shape (h1 h2 : heap) (m a : loc) :
  same_shape h1 h2 -> encloses h1 m a -> encloses h2 m a.
Proof.
  intros Hs (msg & p & Hm & Hp & Hr). exists msg, p.
  rewrite <- (same_shape_messages h1 h2 Hs).
  repeat split; auto. now apply (reach_same_shape h1 h2).
Qed.

Lemma reach_is_block (h : heap) (p : ptr) (a : loc) :
  reach h p a -> is_Some (blocks h !! a).
Proof. induction 1; eauto. Qed.

Section Linking.

Variable h0 : heap.

Lemma covers_after (R1 R2 : ptr -> loc -> Prop) (w1 w2 : writes) :
  covers h0 R1 w1 -> covers h0 R2 w2 ->
  covers h0 (fun m a => R1 m a \/ R2 m a) (after w2 w1).
Proof.
  intros (A1 & B1 & C1 & D1) (A2 & B2 & C2 & D2).
  unfold after. repeat split; simpl.
  - intros a m H. apply lookup_union_Some_raw in H as [H | [_ H]]; eauto.
  - intros a m [H | H]; apply lookup_union_is_Some; eauto.
  - intros v b H. apply lookup_union_Some_raw in H as [H | [_ H]].
    + destruct (C2 v b H) as (a & m & -> & HR & Ho). eauto 6.
    + destruct (C1 v b H) as (a & m & -> & HR & Ho). eauto 6.
  - intros v a m [H | H] Ho; apply lookup_union_is_Some; eauto.
Qed.

Lemma covers_iff (R R' : ptr -> loc -> Prop) (w : writes) :
  (forall m a, R m a <-> R' m a) -> covers h0 R w -> covers h0 R' w.
Proof.
  intros HR (A & B & C & D). repeat split.
  - intros a m H. apply HR. eauto.
  - intros a m H. apply HR in H. eauto.
  - intros v b H. destruct (C v b H) as (a & m & -> & Hr & Ho).
    exists a, m. repeat split; auto. now apply HR.
  - intros v a m H Ho. apply HR in H. eauto.
Qed.

Lemma covers_none : covers h0 (fun _ _ => False) no_writes.
Proof.
  repeat split; simpl.
  - intros a m H. now rewrite lookup_empty in H.
  - intros a m [].
  - intros v b H. now rewrite lookup_empty in H.
  - intros v a m [].
Qed.

Lemma links_seq (f g : heap -> outcome) (R1 R2 : ptr -> loc -> Prop) :
  links h0 f R1 -> links h0 g R2 ->
  links h0 (fun h => andThen (f h) g) (fun m a => R1 m a \/ R2 m a).
Proof.
  intros Hf Hg h h' Hs Hrun.
  destruct (f h) as [h1 | |] eqn:Ef; try discriminate. simpl in Hrun.
  destruct (Hf h h1 Hs Ef) as (w1 & He1 & Hc1).
  assert (Hs1 : same_shape h1 h0)
    by exact (effect_shape h0 _ _ h _ He1 Hs Ef).
  destruct (Hg h1 h' Hs1 Hrun) as (w2 & He2 & Hc2).
  exists (after w2 w1). split; [now apply effect_seq | now apply covers_after].
Qed.

Lemma links_ext (f g : heap -> outcome) (R R' : ptr -> loc -> Prop) :
  (forall h, same_shape h h0 -> f h = g h) ->
  (forall m a, R m a <-> R' m a) ->
  links h0 g R -> links h0 f R'.
Proof.
  intros Hfg HR Hg h h' Hs Hrun. rewrite (Hfg h Hs) in Hrun.
  destruct (Hg h h' Hs Hrun) as (w & He & Hc).
  exists w. split; [| now apply (covers_iff R R')].
  intros h2 Hs2. rewrite (Hfg h2 Hs2). now apply He.
Qed.

Lemma links_forEach (l : list ptr) (body : ptr -> heap -> outcome)
    (R : ptr -> ptr -> loc -> Prop) :
  (forall x, x ∈ l -> links h0 (body x) (R x)) ->
  links h0 (forEach l body) (fun m a => exists x, x ∈ l /\ R x m a).
Proof.
  induction l as [|x l IH]; intros Hb.
  - intros h h' Hs Hrun. exists no_writes. split.
    + intros h2 _. simpl. now rewrite apply_no_writes.
    + apply (covers_iff (fun _ _ => False)); [| apply covers_none].
      intros m a. split; [intros [] | intros (y & Hy & _)].
      now apply elem_of_nil in Hy.
  - apply (links_ext _ (fun h => andThen (body x h) (forEach l body))
             (fun m a => R x m a \/ exists y, y ∈ l /\ R y m a)).
    + reflexivity.
    + intros m a. split.
      * intros [H | (y & Hy & H)]; [exists x | exists y];
          split; auto; [apply list_elem_of_here | now apply list_elem_of_further].
      * intros (y & Hy & H). apply elem_of_cons in Hy as [-> | Hy]; eauto.
    + apply links_seq.
      * apply Hb. apply list_elem_of_here.
      * apply IH. intros y Hy. apply Hb. now apply list_elem_of_further.
Qed.

Lemma store_Message_effect (a : loc) (m : ptr) :
  is_Some (blocks h0 !! a) ->
  effect h0 (store_Message (Some a) m) (mkWrites {[a := m]} ∅).
Proof.
  intros [blk0 H0] h Hs.
  destruct (same_shape_block_Some h0 h a blk0 (same_shape_sym _ _ Hs) H0)
    as (blk & Hb & _).
  unfold store_Message. rewrite Hb. f_equal.
  apply heap_eq; [reflexivity | |]; apply map_eq; intros a';
    cbn [messages blocks bitdefs].
  - rewrite lookup_apply_blocks. unfold write_Message. simpl.
    destruct (decide (a = a')) as [<- | Hne].
    + now rewrite lookup_insert_eq, lookup_singleton_eq, Hb.
    + rewrite lookup_insert_ne, lookup_singleton_ne by exact Hne.
      now destruct (blocks h !! a').
  - rewrite lookup_apply_bitdefs. unfold write_Field. simpl.
    rewrite lookup_empty. now destruct (bitdefs h !! a').
Qed.

Lemma store_Field_effect (v : loc) (b : ptr) :
  is_Some (bitdefs h0 !! v) ->
  effect h0 (store_Field (Some v) b) (mkWrites ∅ {[v := b]}).
Proof.
  intros [d0 H0] h Hs.
  destruct (same_shape_bitdef_Some h0 h v d0 (same_shape_sym _ _ Hs) H0)
    as (d & Hd).
  unfold store_Field. rewrite Hd. f_equal.
  apply heap_eq; [reflexivity | |]; apply map_eq; intros a';
    cbn [messages blocks bitdefs].
  - rewrite lookup_apply_blocks. unfold write_Message. simpl.
    rewrite lookup_empty. now destruct (blocks h !! a').
  - rewrite lookup_apply_bitdefs. unfold write_Field. simpl.
    destruct (decide (v = a')) as [<- | Hne].
    + now rewrite lookup_insert_eq, lookup_singleton_eq, Hd.
    + rewrite lookup_insert_ne, lookup_singleton_ne by exact Hne.
      now destruct (bitdefs h !! a').
Qed.

(** A store that returns was made through a pointer to an object. *)
Lemma store_Message_Done (b m : ptr) (h h' : heap) :
  store_Message b m h = Done h' ->
  exists a, b = Some a /\ is_Some (blocks h !! a).
Proof.
  unfold store_Message. destruct b as [a|]; [| discriminate].
  destruct (blocks h !! a) eqn:E; [eauto | discriminate].
Qed.

Lemma store_Field_Done (v b : ptr) (h h' : heap) :
  store_Field v b h = Done h' ->
  exists a, v = Some a /\ is_Some (bitdefs h !! a).
Proof.
  unfold store_Field. destruct v as [a|]; [| discriminate].
  destruct (bitdefs h !! a) eqn:E; [eauto | discriminate].
Qed.

Lemma same_shape_is_block (h : heap) (a : loc) :
  same_shape h h0 -> is_Some (blocks h !! a) -> is_Some (blocks h0 !! a).
Proof.
  intros Hs [blk Hb].
  destruct (same_shape_block_Some h h0 a blk Hs Hb) as (blk' & Hb' & _).
  eauto.
Qed.

Lemma same_shape_is_bitdef (h : heap) (a : loc) :
  same_shape h h0 -> is_Some (bitdefs h !! a) -> is_Some (bitdefs h0 !! a).
Proof. intros Hs [d Hd]. now apply (same_shape_bitdef_Some h h0 a d). Qed.

(** The loop over the slice [Bitfield] of the block [b]. *)
Lemma fields_effect (b : ptr) (l : list ptr) (h h' : heap) :
  same_shape h h0 ->
  forEach l (fun v => store_Field v b) h = Done h' ->
  exists fw,
    effect h0 (forEach l (fun v => store_Field v b)) (mkWrites ∅ fw)
    /\ (forall v p, fw !! v = Some p -> p = b /\ Some v ∈ l)
    /\ (forall v, Some v ∈ l -> is_Some (fw !! v)).
Proof.
  revert h. induction l as [|x l IH]; intros h Hs Hrun.
  - exists ∅. split; [| split].
    + intros h2 _. simpl. pose proof (apply_no_writes h2) as E.
      unfold no_writes in E. now rewrite E.
    + intros v p H. now rewrite lookup_empty in H.
    + intros v H. now apply elem_of_nil in H.
  - simpl in Hrun.
    destruct (store_Field x b h) as [h1 | |] eqn:E1; try discriminate.
    simpl in Hrun.
    destruct (store_Field_Done x b h h1 E1) as (v & -> & Hv).
    pose proof (store_Field_effect v b (same_shape_is_bitdef h v Hs Hv)) as He1.
    assert (Hs1 : same_shape h1 h0)
    by exact (effect_shape h0 _ _ h _ He1 Hs E1).
    destruct (IH h1 Hs1 Hrun) as (fw & He & Hin & Hcov).
    exists (fw ∪ {[v := b]}). split; [| split].
    + pose proof (effect_seq h0 _ _ _ _ He1 He) as H.
      unfold after in H. simpl in H. now rewrite (left_id_L ∅ (∪)) in H.
    + intros v' p H. apply lookup_union_Some_raw in H as [H | [_ H]].
      * destruct (Hin v' p H) as [-> Hl].
        split; [reflexivity | now apply list_elem_of_further].
      * apply lookup_singleton_Some in H as [<- <-].
        split; [reflexivity | apply list_elem_of_here].
    + intros v' H. apply lookup_union_is_Some.
      apply elem_of_cons in H as [[= ->] | H]; [right | left; auto].
      rewrite lookup_singleton_eq. eauto.
Qed.

Lemma link_own_links (a : loc) (m : ptr) (blk0 : Block) :
  blocks h0 !! a = Some blk0 ->
  links h0 (link_own a m (Block_Bitfield blk0)) (fun m' a' => m' = m /\ a' = a).
Proof.
  intros H0 h h' Hs Hrun. unfold link_own in Hrun.
  destruct (store_Message (Some a) m h) as [h1 | |] eqn:E1; try discriminate.
  simpl in Hrun.
  pose proof (store_Message_effect a m ltac:(eauto)) as He1.
  assert (Hs1 : same_shape h1 h0)
    by exact (effect_shape h0 _ _ h _ He1 Hs E1).
  destruct (fields_effect (Some a) _ h1 h' Hs1 Hrun) as (fw & He & Hin & Hcov).
  exists (after (mkWrites ∅ fw) (mkWrites {[a := m]} ∅)). split.
  - now apply effect_seq.
  - unfold after, covers. cbn [wr_Message wr_Field].
    rewrite (left_id_L ∅ (∪)), (right_id_L ∅ (∪)).
    split; [| split; [| split]].
    + intros a' m' H. now apply lookup_singleton_Some in H as [<- <-].
    + intros a' m' [-> ->]. rewrite lookup_singleton_eq. eauto.
    + intros v b H. destruct (Hin v b H) as [-> Hl]. exists a, m.
      repeat split; auto. now exists blk0.
    + intros v a' m' [-> ->] (blk & Hb & Hv). apply Hcov. congruence.
Qed.

(** One call of [Block.Link] on a block of the graph: its own part, then
    the loop over the nested blocks. *)
Lemma Block_Link_step (fuel : nat) (a : loc) (m : ptr) (blk0 : Block)
    (h : heap) :
  same_shape h h0 -> blocks h0 !! a = Some blk0 ->
  Block_Link (S fuel) (Some a) m h
  = andThen (link_own a m (Block_Bitfield blk0) h)
            (forEach (Block_Nested blk0) (fun v => Block_Link fuel v m)).
Proof.
  intros Hs H0. cbn [Block_Link]. unfold link_own.
  destruct (store_Message (Some a) m h) as [h1 | |] eqn:E1; try reflexivity.
  cbn [andThen].
  pose proof (store_Message_effect a m ltac:(eauto)) as He1.
  assert (Hs1 : same_shape h1 h0)
    by exact (effect_shape h0 _ _ h _ He1 Hs E1).
  destruct (same_shape_block_Some h0 h1 a blk0 (same_shape_sym _ _ Hs1) H0)
    as (blk1 & Hb1 & Hf1 & _).
  cbn [load_block]. rewrite Hb1, Hf1.
  destruct (forEach (Block_Bitfield blk0) (fun v => store_Field v (Some a)) h1)
    as [h2 | |] eqn:E2; try reflexivity.
  cbn [andThen].
  destruct (fields_effect (Some a) _ h1 h2 Hs1 E2) as (fw & He & _).
  assert (Hs2 : same_shape h2 h0)
    by exact (effect_shape h0 _ _ h1 _ He Hs1 E2).
  destruct (same_shape_block_Some h0 h2 a blk0 (same_shape_sym _ _ Hs2) H0)
    as (blk2 & Hb2 & _ & Hn2).
  now rewrite Hb2, Hn2.
Qed.

Lemma reach_inv (a : loc) (blk0 : Block) (a' : loc) :
  blocks h0 !! a = Some blk0 ->
  reach h0 (Some a) a' <->
  a' = a \/ exists x, x ∈ Block_Nested blk0 /\ reach h0 x a'.
Proof.
  intros H0. split.
  - intros H. inversion H as [? blk Hb | ? blk p ? Hb Hp Hr]; subst.
    + now left.
    + right. exists p. split; [congruence | exact Hr].
  - intros [-> | (x & Hx & Hr)].
    + now apply (reach_here h0 a blk0).
    + now apply (reach_nested h0 a blk0 x a').
Qed.

(** [Block.Link(m)] links the blocks reached from its receiver to [m]. *)
Lemma Block_Link_links (fuel : nat) :
  forall b m,
    links h0 (Block_Link fuel b m) (fun m' a' => m' = m /\ reach h0 b a').
Proof.
  induction fuel as [|fuel IH]; intros b m.
  - intros h h' _ H. discriminate.
  - destruct b as [a|]; [| intros h h' _ H; discriminate].
    destruct (blocks h0 !! a) as [blk0|] eqn:H0.
    + apply (links_ext _
               (fun h => andThen (link_own a m (Block_Bitfield blk0) h)
                           (forEach (Block_Nested blk0)
                                    (fun v => Block_Link fuel v m)))
               (fun m' a' =>
                  (m' = m /\ a' = a)
                  \/ exists x, x ∈ Block_Nested blk0
                       /\ (m' = m /\ reach h0 x a'))).
      * intros h Hs. now apply Block_Link_step.
      * intros m' a'. rewrite (reach_inv a blk0 a' H0). split.
        -- intros [[-> ->] | (x & Hx & -> & Hr)]; split; eauto.
        -- intros [-> [-> | (x & Hx & Hr)]]; [now left | right; eauto].
      * apply links_seq; [now apply link_own_links|].
        apply links_forEach. intros x _. apply IH.
    + intros h h' Hs Hrun. exfalso. cbn [Block_Link] in Hrun.
      destruct (store_Message (Some a) m h) as [h1 | |] eqn:E1;
        try discriminate.
      destruct (store_Message_Done _ _ _ _ E1) as (a1 & [= <-] & Hb).
      apply (same_shape_is_block h a Hs) in Hb. rewrite H0 in Hb.
      now destruct Hb.
Qed.

(** [Message.Link()] links the blocks that the message encloses. *)
Lemma Message_Link_links (fuel : nat) (d : ptr) :
  links h0 (Message_Link fuel d)
        (fun m' a' => exists ma, d = Some ma /\ m' = Some ma
                                 /\ encloses h0 ma a').
Proof.
  destruct (load_message d h0) as [msg|] eqn:E0.
  - apply (links_ext _
             (forEach (Message_Blocks msg) (fun v => Block_Link fuel v d))
             (fun m' a' => exists x, x ∈ Message_Blocks msg
                             /\ (m' = d /\ reach h0 x a'))).
    + intros h Hs. unfold Message_Link, load_message in *.
      rewrite (same_shape_messages h h0 Hs). now rewrite E0.
    + intros m' a'. destruct d as [ma|]; [| discriminate]. simpl in E0.
      split.
      * intros (x & Hx & -> & Hr). exists ma. repeat split.
        now exists msg, x.
      * intros (ma' & [= <-] & -> & msg' & x & Hm & Hx & Hr).
        exists x. rewrite E0 in Hm. injection Hm as <-. auto.
    + apply links_forEach. intros x _. apply Block_Link_links.
  - intros h h' Hs Hrun. exfalso. unfold Message_Link, load_message in *.
    rewrite (same_shape_messages h h0 Hs), E0 in Hrun. discriminate.
Qed.

(** [Definitions.Link()] links every block to the message of the
    definitions that encloses it. *)
Lemma Definitions_Link_links (fuel : nat) (d : Definitions) :
  links h0 (Definitions_Link fuel d)
        (fun m' a' => exists ma, Some ma ∈ Definitions_Message d
                                 /\ m' = Some ma /\ encloses h0 ma a').
Proof.
  apply (links_ext _
           (forEach (Definitions_Message d) (fun v => Message_Link fuel v))
           (fun m' a' => exists x, x ∈ Definitions_Message d
                           /\ exists ma, x = Some ma /\ m' = Some ma
                                         /\ encloses h0 ma a')).
  - reflexivity.
  - intros m' a'. split.
    + intros (x & Hx & ma & -> & -> & He). eauto.
    + intros (ma & Hx & -> & He). eauto 6.
  - apply links_forEach. intros x _. apply Message_Link_links.
Qed.

(** *** Termination on a well-founded graph *)

Variable rank : loc -> nat.

Hypothesis h0_ok : graph_ok rank h0.

Lemma forEach_total (l : list ptr) (body : ptr -> heap -> outcome) :
  (forall x h, x ∈ l -> same_shape h h0 ->
     exists h', body x h = Done h' /\ same_shape h' h0) ->
  forall h, same_shape h h0 ->
    exists h', forEach l body h = Done h' /\ same_shape h' h0.
Proof.
  induction l as [|x l IH]; intros Hb h Hs; simpl.
  - eauto.
  - destruct (Hb x h (list_elem_of_here x l) Hs) as (h1 & -> & Hs1). simpl.
    apply IH; [| exact Hs1].
    intros y h2 Hy. apply Hb. now apply list_elem_of_further.
Qed.

Lemma effect_total (f : heap -> outcome) (w : writes) (h : heap) :
  effect h0 f w -> same_shape h h0 ->
  exists h', f h = Done h' /\ same_shape h' h0.
Proof.
  intros He Hs. exists (apply_writes w h). split; [now apply He|].
  eapply same_shape_trans; [apply apply_same_shape | exact Hs].
Qed.

Lemma link_own_total (a : loc) (m : ptr) (blk0 : Block) (h : heap) :
  blocks h0 !! a = Some blk0 -> same_shape h h0 ->
  exists h', link_own a m (Block_Bitfield blk0) h = Done h'
             /\ same_shape h' h0.
Proof.
  intros H0 Hs. unfold link_own.
  destruct (effect_total _ _ h (store_Message_effect a m ltac:(eauto)) Hs)
    as (h1 & -> & Hs1). simpl.
  apply forEach_total; [| exact Hs1].
  intros x h2 Hx Hs2.
  destruct (ok_fields rank h0 h0_ok a blk0 x H0 Hx) as (v & -> & Hv).
  now apply (effect_total _ _ h2 (store_Field_effect v (Some a) Hv)).
Qed.

Lemma Block_Link_total (fuel : nat) :
  forall a m h,
    is_Some (blocks h0 !! a) -> (rank a < fuel)%nat -> same_shape h h0 ->
    exists h', Block_Link fuel (Some a) m h = Done h' /\ same_shape h' h0.
Proof.
  induction fuel as [|fuel IH]; intros a m h [blk0 H0] Hr Hs; [lia|].
  rewrite (Block_Link_step fuel a m blk0 h Hs H0).
  destruct (link_own_total a m blk0 h H0 Hs) as (h1 & -> & Hs1). simpl.
  apply forEach_total; [| exact Hs1].
  intros x h2 Hx Hs2.
  destruct (ok_nested rank h0 h0_ok a blk0 x H0 Hx) as (a' & -> & Ha' & Hlt).
  apply IH; auto. lia.
Qed.

Lemma Message_Link_total (fuel : nat) (m : loc) (msg : Message) (h : heap) :
  messages h0 !! m = Some msg ->
  (forall a, is_Some (blocks h0 !! a) -> (rank a < fuel)%nat) ->
  same_shape h h0 ->
  exists h', Message_Link fuel (Some m) h = Done h' /\ same_shape h' h0.
Proof.
  intros Hm Hf Hs. unfold Message_Link, load_message.
  rewrite (same_shape_messages h h0 Hs), Hm.
  apply forEach_total; [| exact Hs].
  intros x h2 Hx Hs2.
  destruct (ok_blocks rank h0 h0_ok m msg x Hm Hx) as (a & -> & Ha).
  apply Block_Link_total; auto.
Qed.

Lemma Definitions_Link_total (fuel : nat) (d : Definitions) (h : heap) :
  (forall p, p ∈ Definitions_Message d ->
     exists m, p = Some m /\ is_Some (messages h0 !! m)) ->
  (forall a, is_Some (blocks h0 !! a) -> (rank a < fuel)%nat) ->
  same_shape h h0 ->
  exists h', Definitions_Link fuel d h = Done h' /\ same_shape h' h0.
Proof.
  intros Hd Hf Hs. unfold Definitions_Link.
  apply forEach_total; [| exact Hs].
  intros x h2 Hx Hs2. destruct (Hd x Hx) as (m & -> & msg & Hm).
  now apply (Message_Link_total fuel m msg).
Qed.

Lemma enough_fuel_spec (a : loc) :
  is_Some (blocks h0 !! a) -> (rank a < enough_fuel h0 rank)%nat.
Proof.
  intros [blk Hb]. unfold enough_fuel.
  assert (Hin : rank a ∈ rank <$> (map_to_list (blocks h0)).*1).
  { apply list_elem_of_fmap_2. apply list_elem_of_fmap.
    exists (a, blk). split; [reflexivity | now apply elem_of_map_to_list]. }
  apply max_list_elem_of_le in Hin. lia.
Qed.

End Linking.

(** C5. On a well-formed graph [Link] returns, and afterwards every
    block that a message of the definitions encloses in the graph it was
    given, at any depth of nesting, is the block it was with its field
    [Message] set to that message, and every bit definition in the slice
    [Bitfield] of such a block is the bit definition it was with its
    field [Field] set to the block. The messages enclose the same blocks
    after the run as before, so the same holds read off the linked
    graph alone. *)
Theorem Link_sets_back_references (h : heap) (d : Definitions)
    (rank : loc -> nat) :
  well_formed h d rank ->
  exists fuel h',
    Definitions_Link fuel d h = Done h'
    /\ (forall m a,
          Some m ∈ Definitions_Message d -> encloses h m a ->
          exists blk,
            blocks h !! a = Some blk
            /\ blocks h' !! a = Some (with_Message (Some m) blk)
            /\ forall p, p ∈ Block_Bitfield blk ->
                 exists v bd, p = Some v /\ bitdefs h !! v = Some bd
                              /\ bitdefs h' !! v
                                 = Some (with_Field (Some a) bd))
    /\ (forall m a, encloses h' m a <-> encloses h m a)
    /\ forall m a,
         Some m ∈ Definitions_Message d -> encloses h' m a ->
         exists blk,
           blocks h' !! a = Some blk
           /\ Block_Message blk = Some m
           /\ forall p, p ∈ Block_Bitfield blk ->
                exists v bd, p = Some v /\ bitdefs h' !! v = Some bd
                             /\ BitDef_Field bd = Some a.
Proof.
  intros [Hg Hmsgs Hone Hown].
  assert (Hs : same_shape h h) by reflexivity.
  destruct (Definitions_Link_total h rank Hg (enough_fuel h rank) d h Hmsgs
              (enough_fuel_spec h rank) Hs) as (h' & Hrun & Hs').
  exists (enough_fuel h rank), h'. split; [exact Hrun|].
  destruct (Definitions_Link_links h (enough_fuel h rank) d h h' Hs Hrun)
    as (w & He & HA & HB & HC & HD).
  rewrite (He h Hs) in Hrun. injection Hrun as <-.
  assert (Henc : forall m a,
            encloses (apply_writes w h) m a <-> encloses h m a).
  { intros m a. split.
    - apply encloses_same_shape. exact Hs'.
    - apply encloses_same_shape. apply same_shape_sym. exact Hs'. }
  assert (HX : forall m a,
            Some m ∈ Definitions_Message d -> encloses h m a ->
            exists blk,
              blocks h !! a = Some blk
              /\ blocks (apply_writes w h) !! a
                 = Some (with_Message (Some m) blk)
              /\ forall p, p ∈ Block_Bitfield blk ->
                   exists v bd, p = Some v /\ bitdefs h !! v = Some bd
                                /\ bitdefs (apply_writes w h) !! v
                                   = Some (with_Field (Some a) bd)).
  { intros m a Hm Hin.
    assert (HR : exists ma, Some ma ∈ Definitions_Message d
                            /\ Some m = Some ma /\ encloses h ma a) by eauto.
    pose proof Hin as (msg & p0 & Hmsg & Hp0 & Hreach).
    destruct (reach_is_block h p0 a Hreach) as [blk Hblk].
    destruct (HB a (Some m) HR) as [mw Hmw].
    destruct (HA a mw Hmw) as (m2 & Hm2 & -> & Henc2).
    assert (m2 = m) as -> by (apply (Hone m2 m a); auto).
    exists blk. split; [exact Hblk|]. split.
    - rewrite lookup_apply_blocks, Hblk. simpl.
      unfold write_Message. now rewrite Hmw.
    - intros p Hp.
      destruct (ok_fields rank h Hg a blk p Hblk Hp) as (v & -> & bd & Hbd).
      assert (Ho : owns h a v) by now exists blk.
      destruct (HD v a (Some m) HR Ho) as [b Hb].
      destruct (HC v b Hb) as (a2 & m3 & -> & _ & Ho2).
      assert (a2 = a) as -> by now apply (Hown a2 a v).
      exists v, bd. split; [reflexivity|]. split; [exact Hbd|].
      rewrite lookup_apply_bitdefs, Hbd. simpl.
      unfold write_Field. now rewrite Hb. }
  split; [exact HX|]. split; [exact Henc|].
  intros m a Hm Hin. apply Henc in Hin.
  destruct (HX m a Hm Hin) as (blk & _ & Hb' & Hf).
  exists (with_Message (Some m) blk). split; [exact Hb'|].
  split; [reflexivity|].
  intros p Hp. destruct (Hf p Hp) as (v & bd & -> & _ & Hv).
  exists v, (with_Field (Some a) bd). now repeat split.
Qed.

Lemma Link_twice (fuel : nat) (d : Definitions) (h h' : heap) :
  Definitions_Link fuel d h = Done h' ->
  Definitions_Link fuel d h' = Done h' /\ same_shape h' h.
Proof.
  intros Hrun. assert (Hs : same_shape h h) by reflexivity.
  destruct (Definitions_Link_links h fuel d h h' Hs Hrun) as (w & He & _).
  rewrite (He h Hs) in Hrun. injection Hrun as <-.
  pose proof (apply_same_shape w h) as Hs'. split; [| exact Hs'].
  rewrite (He _ Hs'). now rewrite apply_after, after_idem.
Qed.

(** C6. A second run of [Link] returns the heap of the first, and a run
    changes nothing but back-references: the messages are the same, and
    every block and bit definition is the same up to the fields
    [Message] and [Field]. This holds of every run that returns, on a
    graph with shared blocks too; on a well-formed graph the two runs do
    return. *)
Theorem Link_idempotent (d : Definitions) (h : heap) :
  (forall fuel h',
     Definitions_Link fuel d h = Done h' ->
     Definitions_Link fuel d h' = Done h'
     /\ messages h' = messages h
     /\ (forall a, with_Message None <$> blocks h' !! a
                   = with_Message None <$> blocks h !! a)
     /\ (forall v, with_Field None <$> bitdefs h' !! v
                   = with_Field None <$> bitdefs h !! v))
  /\ (forall rank,
        well_formed h d rank ->
        exists fuel h',
          Definitions_Link fuel d h = Done h'
          /\ Definitions_Link fuel d h' = Done h').
Proof.
  split.
  - intros fuel h' Hrun.
    destruct (Link_twice fuel d h h' Hrun) as [H2 Hs].
    split; [exact H2|]. split; [now apply same_shape_messages|].
    split; [intros a; now apply same_shape_block
           | intros v; now apply same_shape_bitdef].
  - intros rank [Hg Hmsgs _ _].
    assert (Hs : same_shape h h) by reflexivity.
    destruct (Definitions_Link_total h rank Hg (enough_fuel h rank) d h Hmsgs
                (enough_fuel_spec h rank) Hs) as (h' & Hrun & _).
    exists (enough_fuel h rank), h'. split; [exact Hrun|].
    now destruct (Link_twice _ d h h' Hrun).
Qed.

Lemma ex_block_cases (a : loc) (blk : Block) :
  blocks ex_heap !! a = Some blk ->
  (a = 1%positive /\ blk = ex_flags) \/ (a = 2%positive /\ blk = ex_inner).
Proof.
  simpl. intros H. apply lookup_insert_Some in H as [[<- <-] | [Hne H]].
  - now left.
  - apply lookup_singleton_Some in H as [<- <-]. now right.
Qed.

Lemma ex_owns (a v : loc) : owns ex_heap a v -> a = 1%positive.
Proof.
  intros (blk & Hb & Hv).
  destruct (ex_block_cases a blk Hb) as [[-> ->] | [-> ->]]; [reflexivity|].
  simpl in Hv. now apply elem_of_nil in Hv.
Qed.

Lemma ex_well_formed : well_formed ex_heap ex_definitions ex_rank.
Proof.
  split; [split|..].
  - intros a blk p Hb Hp.
    destruct (ex_block_cases a blk Hb) as [[-> ->] | [-> ->]]; simpl in Hp.
    + apply list_elem_of_singleton in Hp as ->.
      exists 1%positive. split; [reflexivity|]. now exists ex_bitdef.
    + now apply elem_of_nil in Hp.
  - intros a blk p Hb Hp.
    destruct (ex_block_cases a blk Hb) as [[-> ->] | [-> ->]]; simpl in Hp.
    + apply list_elem_of_singleton in Hp as ->.
      exists 2%positive. split; [reflexivity|].
      split; [now exists ex_inner | vm_compute; lia].
    + now apply elem_of_nil in Hp.
  - intros m msg p Hm Hp. simpl in Hm.
    apply lookup_singleton_Some in Hm as [<- <-]. simpl in Hp.
    apply list_elem_of_singleton in Hp as ->.
    exists 1%positive. split; [reflexivity|]. now exists ex_flags.
  - intros p Hp. simpl in Hp. apply list_elem_of_singleton in Hp as ->.
    exists 1%positive. split; [reflexivity|]. now exists ex_message.
  - intros m1 m2 a H1 H2 _ _. simpl in H1, H2.
    apply list_elem_of_singleton in H1, H2. congruence.
  - intros a1 a2 v H1 H2.
    rewrite (ex_owns a1 v H1), (ex_owns a2 v H2). reflexivity.
Qed.

Lemma Link_sets_back_references_witness :
  exists fuel h',
    Definitions_Link fuel ex_definitions ex_heap = Done h'
    /\ (forall m a,
          Some m ∈ Definitions_Message ex_definitions ->
          encloses ex_heap m a ->
          exists blk,
            blocks ex_heap !! a = Some blk
            /\ blocks h' !! a = Some (with_Message (Some m) blk)
            /\ forall p, p ∈ Block_Bitfield blk ->
                 exists v bd, p = Some v /\ bitdefs ex_heap !! v = Some bd
                              /\ bitdefs h' !! v
                                 = Some (with_Field (Some a) bd))
    /\ (forall m a, encloses h' m a <-> encloses ex_heap m a)
    /\ forall m a,
         Some m ∈ Definitions_Message ex_definitions -> encloses h' m a ->
         exists blk,
           blocks h' !! a = Some blk
           /\ Block_Message blk = Some m
           /\ forall p, p ∈ Block_Bitfield blk ->
                exists v bd, p = Some v /\ bitdefs h' !! v = Some bd
                             /\ BitDef_Field bd = Some a.
Proof.
  exact (Link_sets_back_references ex_heap ex_definitions ex_rank
           ex_well_formed).
Defined.

Lemma ex_Link : Definitions_Link 2 ex_definitions ex_heap = Done ex_linked.
Proof. vm_compute. reflexivity. Qed.

Lemma Link_idempotent_witness :
  (Definitions_Link 2 ex_definitions ex_linked = Done ex_linked
   /\ messages ex_linked = messages ex_heap
   /\ (forall a, with_Message None <$> blocks ex_linked !! a
                 = with_Message None <$> blocks ex_heap !! a)
   /\ (forall v, with_Field None <$> bitdefs ex_linked !! v
                 = with_Field None <$> bitdefs ex_heap !! v))
  /\ exists fuel h',
       Definitions_Link fuel ex_definitions ex_heap = Done h'
       /\ Definitions_Link fuel ex_definitions h' = Done h'.
Proof.
  destruct (Link_idempotent ex_definitions ex_heap) as [Hrun Hwf].
  split.
  - exact (Hrun 2%nat ex_linked ex_Link).
  - exact (Hwf ex_rank ex_well_formed).
Defined.

(** The linked example, read back. *)
Example ex_linked_back_references :
  (Block_Message <$> blocks ex_linked !! 1%positive) = Some (Some 1%positive)
  /\ (Block_Message <$> blocks ex_linked !! 2%positive) = Some (Some 1%positive)
  /\ (BitDef_Field <$> bitdefs ex_linked !! 1%positive) = Some (Some 1%positive).
Proof. vm_compute. repeat split. Qed.

(** * Further properties of the code *)

(** ** goType: errors, results, and the text around the match *)

Lemma FindStringSubmatch_nil (s : string) :
  regexp.FindStringSubmatch s = [] <-> all_bytes outside_class s = true.
Proof.
  induction s as [|c s IH]; [now split|].
  cbn [regexp.FindStringSubmatch all_bytes]. unfold outside_class at 1.
  destruct (regexp.scalar_class c) eqn:Ec.
  - destruct (regexp.run regexp.scalar_class (String c s)).
    split; discriminate.
  - exact IH.
Qed.

Lemma FindStringSubmatch_three (s : string) :
  regexp.FindStringSubmatch s = []
  \/ exists g1 g2,
       regexp.FindStringSubmatch s = [g1 +:+ g2; g1; g2]
       /\ g1 <> EmptyString /\ all_bytes regexp.scalar_class g1 = true
       /\ (g2 = EmptyString
           \/ exists n, decimal_text n /\ g2 = "[" +:+ n +:+ "]").
Proof.
  destruct (FindStringSubmatch_spec s)
    as [[H _] | (pre & g1 & g2 & post & H & _ & _ & Hr)]; [now left|].
  right. now exists g1, g2.
Qed.

(** The codes that [goType] knows are those of the table. *)
Lemma scalar_goType_table (code t : string) :
  scalar_goType code = Some t ->
  exists ty, (code, ty) ∈ spec_type_table /\ t = go_name ty.
Proof.
  unfold scalar_goType, spec_type_table.
  repeat match goal with
  | |- context [String.eqb code ?k] =>
      destruct (String.eqb_spec code k) as [-> | _]
  end; simpl; intros [= <-];
    eexists;
    (split;
     [repeat first [apply list_elem_of_here | apply list_elem_of_further]
     | reflexivity]).
Qed.

(** The first group is the first run of class bytes of the text, and the
    second group, when it took part, follows it at once. *)
Lemma FindStringSubmatch_first_run (s w g1 g2 : string) :
  regexp.FindStringSubmatch s = [w; g1; g2] ->
  exists pre rest,
    s = pre +:+ g1 +:+ rest
    /\ all_bytes outside_class pre = true
    /\ g1 <> EmptyString
    /\ all_bytes regexp.scalar_class g1 = true
    /\ (rest = EmptyString
        \/ exists c t, rest = String c t /\ regexp.scalar_class c = false)
    /\ (g2 = EmptyString
        \/ exists n tail,
             decimal_text n /\ g2 = "[" +:+ n +:+ "]"
             /\ rest = "[" +:+ n +:+ "]" +:+ tail).
Proof.
  induction s as [|c s IH]; [discriminate|].
  cbn [regexp.FindStringSubmatch].
  destruct (regexp.scalar_class c) eqn:Ec.
  - destruct (regexp.run regexp.scalar_class (String c s)) as [r t] eqn:Er.
    intros [= _ <- <-].
    destruct (run_spec _ _ _ _ Er) as (Hs & Hg1 & Ht).
    exists EmptyString, t. split; [exact Hs|]. split; [reflexivity|].
    split.
    { simpl in Er. rewrite Ec in Er.
      destruct (regexp.run regexp.scalar_class s).
      injection Er as <- _. discriminate. }
    split; [exact Hg1|]. split; [exact Ht|].
    destruct (array_group_spec t) as [Hg | (n & rest & Hn & Hg & Ht')];
      [now left|].
    right. exists n, rest. now rewrite Hg.
  - intros H. destruct (IH H) as (pre & rest & Hs & Hp & Hr).
    exists (String c pre), rest. split; [simpl; now rewrite Hs|].
    split; [| exact Hr].
    simpl. unfold outside_class at 1. now rewrite Ec.
Qed.

Lemma FindStringSubmatch_skip (pre s : string) :
  all_bytes outside_class pre = true ->
  regexp.FindStringSubmatch (pre +:+ s) = regexp.FindStringSubmatch s.
Proof.
  induction pre as [|c pre IH]; simpl; [reflexivity|].
  unfold outside_class at 1. intros H. apply andb_true_iff in H as [Hc Hp].
  apply negb_true_iff in Hc. rewrite Hc. now apply IH.
Qed.

Lemma all_bytes_app (p : ascii -> bool) (a b : string) :
  all_bytes p (a +:+ b) = all_bytes p a && all_bytes p b.
Proof.
  induction a as [|c a IH]; simpl; [reflexivity|].
  now rewrite IH, andb_assoc.
Qed.

(** A run of class bytes that ends the text, or that a byte outside the
    class follows, is what the greedy loop takes. *)
Lemma run_maximal (cls : ascii -> bool) (r rest : string) :
  all_bytes cls r = true ->
  (rest = EmptyString \/ exists c t, rest = String c t /\ cls c = false) ->
  regexp.run cls (r +:+ rest) = (r, rest).
Proof.
  intros Hr Hrest. induction r as [|x r IH]; simpl.
  - destruct Hrest as [-> | (c & t & -> & Hc)]; simpl;
      [reflexivity | now rewrite Hc].
  - simpl in Hr. apply andb_true_iff in Hr as [Hx Hr].
    now rewrite Hx, (IH Hr).
Qed.

(** The first run of class bytes gives the first group of the match. *)
Lemma first_class_run_match (s part : string) :
  first_class_run s part ->
  exists g2,
    regexp.FindStringSubmatch s = [part +:+ g2; part; g2].
Proof.
  intros (pre & rest & -> & Hp & Hne & Hc & Hrest).
  rewrite (FindStringSubmatch_skip pre _ Hp).
  destruct part as [|c part]; [congruence|].
  pose proof Hc as Hc'. simpl in Hc'. apply andb_true_iff in Hc' as [Hh _].
  change (String c part +:+ rest) with (String c (part +:+ rest)).
  cbn [regexp.FindStringSubmatch]. rewrite Hh.
  change (String c (part +:+ rest)) with (String c part +:+ rest).
  rewrite (run_maximal regexp.scalar_class (String c part) rest Hc Hrest).
  eauto.
Qed.

(** A text has one first run of class bytes at most. *)
Lemma first_class_run_unique (s p1 p2 : string) :
  first_class_run s p1 -> first_class_run s p2 -> p1 = p2.
Proof.
  intros H1 H2.
  destruct (first_class_run_match s p1 H1) as (g1 & E1).
  destruct (first_class_run_match s p2 H2) as (g2 & E2).
  congruence.
Qed.

(** X1. An error of [goType] always carries the input text. The error
    is [CannotParse] exactly when no byte of the input is in the class
    [[CHIRUX0-9_]]; otherwise it names the first run of class bytes of
    the input, which is not a type code. Conversely, an input whose
    first run of class bytes is not a type code is refused with that
    run named. *)
Theorem goType_errors (s : string) :
  (forall e,
     goType s = Err e ->
     (e = CannotParse s /\ all_bytes outside_class s = true)
     \/ (exists part,
           e = InvalidScalarPart s part /\ part <> EmptyString
           /\ all_bytes regexp.scalar_class part = true
           /\ scalar_goType part = None
           /\ all_bytes outside_class s = false
           /\ first_class_run s part))
  /\ (all_bytes outside_class s = true -> goType s = Err (CannotParse s))
  /\ (forall part,
        first_class_run s part -> scalar_goType part = None ->
        goType s = Err (InvalidScalarPart s part)).
Proof.
  split; [| split].
  - intros e. unfold goType.
    destruct (FindStringSubmatch_three s) as [H | (g1 & g2 & H & Hne & Hc & _)].
    + rewrite H. intros [= <-]. left. split; [reflexivity|].
      now apply FindStringSubmatch_nil.
    + rewrite H. destruct (scalar_goType g1) eqn:Eg.
      * destruct (String.eqb g2 ""); discriminate.
      * intros [= <-]. right. exists g1.
        split; [reflexivity|]. split; [exact Hne|]. split; [exact Hc|].
        split; [exact Eg|]. split.
        -- destruct (all_bytes outside_class s) eqn:Ea; [| reflexivity].
           apply FindStringSubmatch_nil in Ea. congruence.
        -- destruct (FindStringSubmatch_first_run s _ g1 g2 H)
             as (pre & rest & Hs & Hp & _ & _ & Hrest & _).
           now exists pre, rest.
  - intros Ha. apply FindStringSubmatch_nil in Ha. unfold goType.
    now rewrite Ha.
  - intros part Hrun Hnone.
    destruct (first_class_run_match s part Hrun) as (g2 & H).
    unfold goType. now rewrite H, Hnone.
Qed.

Lemma goType_errors_witness :
  goType "an I3[2] field" = Err (InvalidScalarPart "an I3[2] field" "I3").
Proof.
  destruct (goType_errors "an I3[2] field") as (_ & _ & H).
  apply (H "I3"); [| reflexivity].
  exists "an ", "[2] field". split; [reflexivity|].
  split; [reflexivity|]. split; [discriminate|]. split; [reflexivity|].
  right. exists "["%char, "2] field". split; reflexivity.
Defined.

Lemma table_code_letter (code : string) (ty : elem_type) :
  (code, ty) ∈ spec_type_table -> all_bytes no_class_letter code = false.
Proof.
  unfold spec_type_table. intros H.
  repeat (apply elem_of_cons in H as [[= -> _] | H]; [reflexivity|]).
  now apply elem_of_nil in H.
Qed.

Lemma go_name_no_letter (ty : elem_type) :
  all_bytes no_class_letter (go_name ty) = true
  /\ go_name ty <> EmptyString.
Proof. destruct ty; split; (reflexivity || discriminate). Qed.

Lemma digit_no_letter (c : ascii) :
  regexp.digit_class c = true -> no_class_letter c = true.
Proof.
  destruct c as [[] [] [] [] [] [] [] []]; intros H; vm_compute in H |- *;
    congruence.
Qed.

Lemma decimal_no_letter (n : string) :
  all_bytes regexp.digit_class n = true ->
  all_bytes no_class_letter n = true.
Proof.
  induction n as [|c n IH]; simpl; [reflexivity|].
  intros H. apply andb_true_iff in H as [Hc Hn].
  now rewrite (digit_no_letter c Hc), (IH Hn).
Qed.

(** X2. What [goType] returns without an error is the Go type of the
    code that is the first run of class bytes of the input, a code of
    the table, or an array of that type whose length is the decimal
    number that follows the code in brackets: never an empty text,
    never the input echoed back. *)
Theorem goType_result_shape (s t : string) :
  goType s = Ok t ->
  (exists code ty,
     (code, ty) ∈ spec_type_table
     /\ first_class_run s code
     /\ (t = go_name ty
         \/ exists n pre tail,
              decimal_text n /\ t = array_of n (go_name ty)
              /\ all_bytes outside_class pre = true
              /\ s = pre +:+ code +:+ "[" +:+ n +:+ "]" +:+ tail))
  /\ t <> EmptyString /\ t <> s.
Proof.
  unfold goType.
  destruct (FindStringSubmatch_three s) as [H | (g1 & g2 & H & _)];
    rewrite H; [discriminate|].
  destruct (FindStringSubmatch_first_run s _ g1 g2 H)
    as (pre & rest & Hs & Hp & Hne & Hc & Hrest & Hg2).
  destruct (scalar_goType g1) as [t0|] eqn:Eg; [| discriminate].
  destruct (scalar_goType_table g1 t0 Eg) as (ty & Hin & ->).
  destruct (go_name_no_letter ty) as [Hname Hnonempty].
  assert (Hletter : all_bytes no_class_letter s = false).
  { rewrite Hs, !all_bytes_app, (table_code_letter g1 ty Hin).
    now rewrite andb_false_r. }
  assert (Hrun : first_class_run s g1) by now exists pre, rest.
  destruct Hg2 as [-> | (n & tail & Hn & -> & ->)]; simpl; intros [= <-].
  - split; [| split].
    + exists g1, ty. split; [exact Hin|]. split; [exact Hrun | now left].
    + exact Hnonempty.
    + intros E. rewrite <- E, Hname in Hletter. discriminate.
  - split; [| split].
    + exists g1, ty. split; [exact Hin|]. split; [exact Hrun|].
      right. exists n, pre, tail. split; [exact Hn|].
      split; [unfold array_of; now rewrite !append_assoc|].
      split; [exact Hp | exact Hs].
    + discriminate.
    + intros E. rewrite <- E in Hletter.
      change (String "[" ((n +:+ "]") +:+ go_name ty))
        with ("[" +:+ (n +:+ "]") +:+ go_name ty) in Hletter.
      rewrite !all_bytes_app, Hname in Hletter.
      rewrite (decimal_no_letter n (proj1 Hn)) in Hletter. discriminate.
Qed.

Lemma goType_result_shape_witness :
  (exists code ty,
     (code, ty) ∈ spec_type_table
     /\ first_class_run "x CH[3]y" code
     /\ ("[3]byte" = go_name ty
         \/ exists n pre tail,
              decimal_text n /\ "[3]byte" = array_of n (go_name ty)
              /\ all_bytes outside_class pre = true
              /\ "x CH[3]y" = pre +:+ code +:+ "[" +:+ n +:+ "]" +:+ tail))
  /\ "[3]byte" <> EmptyString /\ "[3]byte" <> "x CH[3]y".
Proof. apply (goType_result_shape "x CH[3]y" "[3]byte"). reflexivity. Defined.

(** X3. Bytes outside the class in front of a type code are passed over:
    with such a prefix [goType] returns the type it returns without. *)
Theorem goType_skips_prefix (pre s t : string) :
  all_bytes outside_class pre = true ->
  goType s = Ok t -> goType (pre +:+ s) = Ok t.
Proof.
  intros Hp. unfold goType. rewrite (FindStringSubmatch_skip pre s Hp).
  destruct (regexp.FindStringSubmatch s) as [|w [|p1 [|p2 [|]]]];
    try discriminate.
  destruct (scalar_goType p1); [| discriminate].
  destruct (String.eqb p2 ""); exact (fun H => H).
Qed.

Lemma goType_skips_prefix_witness : goType "  (U2[4]" = Ok "[4]uint16".
Proof.
  apply (goType_skips_prefix "  (" "U2[4]" "[4]uint16"); reflexivity.
Defined.

(** ** notabs *)

Lemma replace_wstospace (c : ascii) :
  Ascii.eqb (replace_byte wstospace c) "009" = false
  /\ Ascii.eqb (replace_byte wstospace c) "010" = false
  /\ replace_byte wstospace (replace_byte wstospace c)
     = replace_byte wstospace c.
Proof.
  unfold wstospace. simpl.
  destruct (Ascii.eqb_spec c "009") as [-> | H9]; [now repeat split|].
  destruct (Ascii.eqb_spec c "010") as [-> | H10]; [now repeat split|].
  apply Ascii.eqb_neq in H9, H10. now rewrite H9, H10.
Qed.

(** X4. [notabs] keeps the length of its argument, leaves no tab and no
    newline in the result, and applied twice gives what it gives once. *)
Theorem notabs_clean (s : string) :
  String.length (notabs s) = String.length s
  /\ has_byte "009" (notabs s) = false
  /\ has_byte "010" (notabs s) = false
  /\ notabs (notabs s) = notabs s.
Proof.
  unfold notabs, Replace.
  induction s as [|c s (IHl & IHt & IHn & IHi)]; [now repeat split|].
  destruct (replace_wstospace c) as (Ht & Hn & Hi).
  cbn [cases.map_bytes String.length has_byte].
  rewrite IHl, Ht, Hn, IHt, IHn, Hi, IHi. now repeat split.
Qed.

(** ** mask: the bits of the result *)

Lemma spec_range_mask_testbit (hi lo k : Z) :
  0 <= hi -> 0 <= lo -> 0 <= k ->
  Z.testbit (spec_range_mask hi lo) k = xorb (k <=? hi) (k <? lo).
Proof.
  intros Hh Hl Hk. unfold spec_range_mask.
  rewrite !Z.shiftl_1_l, !Z.sub_1_r, <- !Z.ones_equiv, Z.lxor_spec.
  rewrite !Z.testbit_ones_nonneg by lia.
  f_equal. cmp_cases; (reflexivity || lia).
Qed.

Lemma spec_index_mask_testbit (i k : Z) :
  0 <= i -> Z.testbit (spec_index_mask i) k = (k =? i).
Proof.
  intros Hi. unfold spec_index_mask. rewrite Z.shiftl_1_l.
  rewrite Z.pow2_bits_eqb by exact Hi. apply Z.eqb_sym.
Qed.

Lemma mask_parsed_range (p0 p1 : string) (hi lo : Z) :
  parses_as p0 hi -> parses_as p1 lo ->
  mask (p0 +:+ ":" +:+ p1) = range_text hi lo /\ 0 <= hi /\ 0 <= lo.
Proof.
  intros H0 H1. assert (Hb : 1 <= 8 <= 64) by lia.
  pose proof (ParseUint_ok_nonneg _ _ _ Hb H0).
  pose proof (ParseUint_ok_nonneg _ _ _ Hb H1).
  rewrite mask_range
    by (apply literal_no_colon; eapply ParseUint_ok_bytes; eauto).
  unfold parses_as in H0, H1. rewrite H0, H1. auto.
Qed.

Lemma mask_parsed_index (s : string) (i : Z) :
  parses_as s i -> mask s = index_text i /\ 0 <= i.
Proof.
  intros Hs. assert (Hb : 1 <= 8 <= 64) by lia.
  pose proof (ParseUint_ok_nonneg _ _ _ Hb Hs).
  rewrite mask_index
    by (apply literal_no_colon; eapply ParseUint_ok_bytes; eauto).
  unfold parses_as in Hs. rewrite Hs. auto.
Qed.

(** X5. Up to bit 62 the mask of a range [hi:lo], [lo <= hi], has
    exactly the bits [lo] to [hi] set, and the mask of a single index
    exactly that bit. *)
Theorem mask_exact_bits :
  (forall p0 p1 hi lo,
     parses_as p0 hi -> parses_as p1 lo -> lo <= hi -> hi <= 62 ->
     exists v,
       mask (p0 +:+ ":" +:+ p1) = hex_literal v
       /\ forall k, 0 <= k -> Z.testbit v k = (lo <=? k) && (k <=? hi))
  /\ (forall s i,
        parses_as s i -> i <= 62 ->
        exists v,
          mask s = hex_literal v
          /\ forall k, 0 <= k -> Z.testbit v k = (k =? i)).
Proof.
  split.
  - intros p0 p1 hi lo H0 H1 Hle H62.
    destruct (mask_parsed_range p0 p1 hi lo H0 H1) as (-> & Hh & Hl).
    exists (spec_range_mask hi lo).
    split; [apply range_text_spec; lia|].
    intros k Hk. rewrite spec_range_mask_testbit by lia.
    cmp_cases; (reflexivity || lia).
  - intros s i Hs H62.
    destruct (mask_parsed_index s i Hs) as (-> & Hi).
    exists (spec_index_mask i).
    split; [apply index_text_spec; lia|].
    intros k _. now apply spec_index_mask_testbit.
Qed.

Lemma mask_exact_bits_witness :
  (exists v,
     mask "11:8" = hex_literal v
     /\ forall k, 0 <= k -> Z.testbit v k = (8 <=? k) && (k <=? 11))
  /\ exists v,
       mask "5" = hex_literal v
       /\ forall k, 0 <= k -> Z.testbit v k = (k =? 5).
Proof.
  destruct mask_exact_bits as [Hr Hi]. split.
  - apply (Hr "11" "8" 11 8); [reflexivity | reflexivity | lia | lia].
  - apply (Hi "5" 5); [reflexivity | lia].
Defined.

(** X6. A range written the wrong way round is not refused: for
    [hi < lo] the result has the bits strictly between [hi] and [lo]
    set, and is zero when [lo = hi + 1]. *)
Theorem mask_reversed_range (p0 p1 : string) (hi lo : Z) :
  parses_as p0 hi -> parses_as p1 lo -> hi < lo -> lo <= 62 ->
  exists v,
    mask (p0 +:+ ":" +:+ p1) = hex_literal v
    /\ (forall k, 0 <= k -> Z.testbit v k = (hi <? k) && (k <? lo))
    /\ (lo = hi + 1 -> mask (p0 +:+ ":" +:+ p1) = "0x0").
Proof.
  intros H0 H1 Hlt H62.
  destruct (mask_parsed_range p0 p1 hi lo H0 H1) as (-> & Hh & Hl).
  assert (Hbits : forall k, 0 <= k ->
            Z.testbit (spec_range_mask hi lo) k = (hi <? k) && (k <? lo)).
  { intros k Hk. rewrite spec_range_mask_testbit by lia.
    cmp_cases; (reflexivity || lia). }
  exists (spec_range_mask hi lo).
  split; [apply range_text_spec; lia|]. split; [exact Hbits|].
  intros ->. rewrite range_text_spec by lia.
  assert (Hz : spec_range_mask hi (hi + 1) = 0).
  { apply Z.bits_inj'. intros k Hk. rewrite Hbits by exact Hk.
    rewrite Z.bits_0. cmp_cases; (reflexivity || lia). }
  now rewrite Hz.
Qed.

Lemma mask_reversed_range_witness :
  exists v,
    mask "0:3" = hex_literal v
    /\ (forall k, 0 <= k -> Z.testbit v k = (0 <? k) && (k <? 3))
    /\ (3 = 0 + 1 -> mask "0:3" = "0x0").
Proof.
  apply (mask_reversed_range "0" "3" 0 3); [reflexivity | reflexivity | lia | lia].
Defined.

(** ** mask: indices beyond the width of [int], and stray colons *)

Lemma ParseUint8_error (comp : string) (v : Z) (e : strconv.NumError) :
  strconv.ParseUint comp 0 8 = (v, Some e) -> v = 0 \/ v = 255.
Proof.
  destruct (decide (comp = EmptyString)) as [-> | Hne];
    [intros [= <- <-]; now left|].
  rewrite (ParseUint_base0 comp 8 Hne) by lia.
  destruct (strconv.base_prefix comp) as [base r].
  destruct (strconv.digits _ _ _ _ r 0 false) as [[v' e'] | [n u]] eqn:Ed.
  - intros [= <- <-].
    destruct (digits_inl _ _ _ _ _ _ _ _ _ Ed) as [[_ ->] | [_ ->]];
      [now left | now right].
  - destruct (u && negb (strconv.underscoreOK comp)); [| discriminate].
    intros [= <- <-]. now left.
Qed.

Lemma ParseUint8_ok_le (s : string) (v : Z) : parses_as s v -> v <= 255.
Proof.
  unfold parses_as.
  destruct (decide (s = EmptyString)) as [-> | Hne]; [discriminate|].
  rewrite (ParseUint_base0 s 8 Hne) by lia.
  destruct (strconv.base_prefix s) as [base r].
  destruct (strconv.digits _ _ _ _ r 0 false) as [[? ?] | [n u]] eqn:Ed;
    [discriminate|].
  destruct (u && negb (strconv.underscoreOK s)); [discriminate|].
  intros [= <-].
  change 255 with (u64 (shl_u64 1 8 - 1)).
  apply (digits_inr_le _ _ _ _ _ _ _ _ _ Ed). vm_compute. discriminate.
Qed.

Lemma index_text_high (i : Z) : 64 <= i -> index_text i = "0x0".
Proof.
  intros Hi. unfold index_text, shl_int, intSize.
  destruct (i >=? 64) eqn:E; [reflexivity|].
  rewrite Z.geb_leb in E. apply Z.leb_gt in E. lia.
Qed.

(** X7. A single index of 64 or more shifts the bit out of the [int]:
    the result is ["0x0"], without an error. The same holds of a text
    without a colon on which the parse reports a range error, which
    counts as 255. *)
Theorem mask_index_shifted_out :
  (forall s i, parses_as s i -> 64 <= i -> mask s = "0x0")
  /\ (forall s,
        has_byte ":" s = false ->
        snd (strconv.ParseUint s 0 8) = Some strconv.ErrRange ->
        mask s = "0x0").
Proof.
  split.
  - intros s i Hs Hi. destruct (mask_parsed_index s i Hs) as (-> & _).
    now apply index_text_high.
  - intros s Hc He. rewrite (mask_index s Hc).
    destruct (strconv.ParseUint s 0 8) as [v [e|]] eqn:E; [| discriminate].
    simpl in He. injection He as He. subst e.
    assert (v = 255) as ->.
    { destruct (decide (s = EmptyString)) as [-> | Hne]; [discriminate|].
      rewrite (ParseUint_base0 s 8 Hne) in E by lia.
      destruct (strconv.base_prefix s) as [base r].
      destruct (strconv.digits _ _ _ _ r 0 false) as [[v' e'] | [n u]] eqn:Ed.
      - injection E as <- ->.
        destruct (digits_inl _ _ _ _ _ _ _ _ _ Ed) as [[? _] | [_ ->]];
          [discriminate | reflexivity].
      - destruct (u && negb (strconv.underscoreOK s)); discriminate. }
    reflexivity.
Qed.

Lemma mask_index_shifted_out_witness :
  mask "0x40" = "0x0" /\ mask "1_000" = "0x0".
Proof.
  destruct mask_index_shifted_out as [Hp He]. split.
  - apply (Hp "0x40" 64); [reflexivity | lia].
  - apply (He "1_000"); reflexivity.
Defined.

Lemma top_range_agrees_below_63 : forallb top_range_agrees (seqZ 0 63) = true.
Proof. vm_compute. reflexivity. Qed.

Lemma range_text_top (hi lo : Z) :
  63 <= hi <= 255 -> range_text hi lo = range_text 63 lo.
Proof.
  intros Hh. unfold range_text.
  assert (Hs : forall x, 63 <= x <= 255 -> shl_int 1 (u64 (x + 1)) = 0).
  { intros x Hx. rewrite u64_small by (unfold maxUint64; lia).
    unfold shl_int, intSize.
    destruct (x + 1 >=? 64) eqn:E; [reflexivity|].
    rewrite Z.geb_leb in E. apply Z.leb_gt in E. lia. }
  now rewrite (Hs hi Hh), (Hs 63 ltac:(lia)).
Qed.

(** X8. A range that reaches bit 63 or beyond does not give the mask of
    its bits: for [hi >= 63] and [lo <= 62] the result is the negative
    literal [0x-] followed by the hexadecimal digits of [2^lo]. *)
Theorem mask_range_past_int (p0 p1 : string) (hi lo : Z) :
  parses_as p0 hi -> parses_as p1 lo -> 63 <= hi -> lo <= 62 ->
  mask (p0 +:+ ":" +:+ p1) = top_range_text lo.
Proof.
  intros H0 H1 Hh Hl.
  destruct (mask_parsed_range p0 p1 hi lo H0 H1) as (-> & _ & Hlo).
  pose proof (ParseUint8_ok_le p0 hi H0) as Hle.
  rewrite (range_text_top hi lo) by lia.
  pose proof top_range_agrees_below_63 as H.
  rewrite forallb_forall in H.
  specialize (H lo (in_seqZ_63 lo ltac:(lia))).
  now apply String.eqb_eq in H.
Qed.

Lemma mask_range_past_int_witness : mask "63:4" = "0x-10".
Proof.
  apply (mask_range_past_int "63" "4" 63 4); [reflexivity | reflexivity | lia | lia].
Defined.

(** X9. With two colons or more the text is not split into a range: the
    whole of it is parsed as one index, the parse fails on the colon or
    on a range error before it, and the result is ["0x1"] or ["0x0"]
    whatever the numbers are. *)
Theorem mask_stray_colons (s : string) :
  (2 <= count_byte ":" s)%nat -> mask s = "0x1" \/ mask s = "0x0".
Proof.
  intros Hc. unfold mask.
  pose proof (Split_length s ":") as Hl.
  assert (Hv : fst (strconv.ParseUint s 0 8) = 0
               \/ fst (strconv.ParseUint s 0 8) = 255).
  { destruct (strconv.ParseUint s 0 8) as [v [e|]] eqn:E.
    - exact (ParseUint8_error s v e E).
    - exfalso.
      pose proof (ParseUint_ok_bytes s 8 v ltac:(lia) E) as Hb.
      apply literal_no_colon, has_byte_count in Hb. lia. }
  destruct (strings.Split s ":") as [|p0 [|p1 [|p2 ps]]];
    simpl in Hl; try lia;
    destruct Hv as [-> | ->]; [now left | now right].
Qed.

Lemma mask_stray_colons_witness :
  mask "7:4:2" = "0x1" \/ mask "7:4:2" = "0x0".
Proof. apply (mask_stray_colons "7:4:2"). vm_compute. lia. Defined.

(** ** msgtypename on ASCII input *)

Lemma ToLower_ascii (mapLower : string -> string) (s : string) :
  cases.isASCII s = true ->
  cases.ToLower mapLower s = cases.map_bytes cases.lower_byte s.
Proof. intros H. unfold cases.ToLower. now rewrite H. Qed.

(** X10. On ASCII input [msgtypename] does not see the case of the
    letters: two inputs with the same lower-cased text give the same
    name. *)
Theorem msgtypename_ignores_case (mapLower mapTitle : string -> string)
    (s s' : string) :
  cases.isASCII s = true -> cases.isASCII s' = true ->
  cases.map_bytes cases.lower_byte s = cases.map_bytes cases.lower_byte s' ->
  msgtypename mapLower mapTitle s = msgtypename mapLower mapTitle s'.
Proof.
  intros Ha Ha' He. rewrite !msgtypename_eq.
  now rewrite (ToLower_ascii _ s Ha), (ToLower_ascii _ s' Ha'), He.
Qed.

Lemma msgtypename_ignores_case_witness :
  msgtypename (fun t => t) (fun t => t) "Nav-posLLH"
  = msgtypename (fun t => t) (fun t => t) "NAV-POSLLH".
Proof. apply msgtypename_ignores_case; reflexivity. Defined.

Lemma Split_app_sep (a r : string) (sep : ascii) :
  has_byte sep a = false ->
  strings.Split (a +:+ String sep r) sep = a :: strings.Split r sep.
Proof.
  induction a as [|c a IH]; simpl.
  - intros _. now rewrite Ascii.eqb_refl.
  - intros H. apply orb_false_iff in H as [Hc Ha].
    now rewrite Hc, (IH Ha).
Qed.

Lemma map_bytes_app (f : ascii -> ascii) (a b : string) :
  cases.map_bytes f (a +:+ b) = cases.map_bytes f a +:+ cases.map_bytes f b.
Proof. induction a as [|c a IH]; simpl; [reflexivity | now rewrite IH]. Qed.

Lemma isASCII_app (a b : string) :
  cases.isASCII (a +:+ b) = cases.isASCII a && cases.isASCII b.
Proof.
  induction a as [|c a IH]; simpl; [reflexivity|].
  now rewrite IH, andb_assoc.
Qed.

(** X11. The segment before the first hyphen has no part in the result:
    on ASCII input the name is made of the segments after it alone. *)
Theorem msgtypename_leading_segment (mapLower mapTitle : string -> string)
    (a r : string) :
  cases.isASCII a = true -> cases.isASCII r = true ->
  has_byte "-" a = false ->
  msgtypename mapLower mapTitle (a +:+ "-" +:+ r)
  = Some (strings.Join
            (map (cases.Title mapTitle)
                 (strings.Split (cases.map_bytes cases.lower_byte r) "-"))).
Proof.
  intros Ha Hr Hh. rewrite msgtypename_eq.
  assert (Hs : cases.isASCII (a +:+ "-" +:+ r) = true).
  { rewrite isASCII_app, Ha. simpl. now rewrite Hr. }
  rewrite (ToLower_ascii _ _ Hs), map_bytes_app.
  change (cases.map_bytes cases.lower_byte ("-" +:+ r))
    with (String "-" (cases.map_bytes cases.lower_byte r)).
  rewrite Split_app_sep by now apply map_lower_no_hyphen.
  reflexivity.
Qed.

Lemma msgtypename_leading_segment_witness :
  msgtypename (fun t => t) (fun t => t) "RXM-RAWX"
  = msgtypename (fun t => t) (fun t => t) "anything-RAWX".
Proof.
  exact (eq_trans
           (msgtypename_leading_segment (fun t => t) (fun t => t)
              "RXM" "RAWX" eq_refl eq_refl eq_refl)
           (eq_sym
              (msgtypename_leading_segment (fun t => t) (fun t => t)
                 "anything" "RAWX" eq_refl eq_refl eq_refl))).
Defined.

Lemma Split_parts_no_sep (s : string) (sep : ascii) :
  Forall (fun p => has_byte sep p = false) (strings.Split s sep).
Proof.
  induction s as [|c s IH]; simpl.
  - constructor; [reflexivity | constructor].
  - destruct (Ascii.eqb c sep) eqn:Ec.
    + constructor; [reflexivity | exact IH].
    + destruct (strings.Split s sep) as [|q qs].
      * constructor; [simpl; now rewrite Ec | constructor].
      * inversion IH as [|? ? Hq Hqs]; subst.
        constructor; [simpl; now rewrite Ec, Hq | exact Hqs].
Qed.

Lemma Split_parts_ascii (s : string) (sep : ascii) :
  cases.isASCII s = true ->
  Forall (fun p => cases.isASCII p = true) (strings.Split s sep).
Proof.
  induction s as [|c s IH]; simpl.
  - intros _. constructor; [reflexivity | constructor].
  - intros H. apply andb_true_iff in H as [Hc Hs]. specialize (IH Hs).
    destruct (Ascii.eqb c sep).
    + constructor; [reflexivity | exact IH].
    + destruct (strings.Split s sep) as [|q qs].
      * constructor; [simpl; now rewrite Hc | constructor].
      * inversion IH as [|? ? Hq Hqs]; subst.
        constructor; [simpl; now rewrite Hc, Hq | exact Hqs].
Qed.

Lemma lower_byte_ascii (c : ascii) :
  (byte c <? 128) = true -> (byte (cases.lower_byte c) <? 128) = true.
Proof.
  destruct c as [[] [] [] [] [] [] [] []]; intros H; vm_compute in H |- *;
    congruence.
Qed.

Lemma map_lower_ascii (s : string) :
  cases.isASCII s = true ->
  cases.isASCII (cases.map_bytes cases.lower_byte s) = true.
Proof.
  induction s as [|c s IH]; simpl; [reflexivity|].
  intros H. apply andb_true_iff in H as [Hc Hs].
  now rewrite (lower_byte_ascii c Hc), (IH Hs).
Qed.

Lemma upper_byte_hyphen (c : ascii) :
  Ascii.eqb c "-" = false -> Ascii.eqb (cases.upper_byte c) "-" = false.
Proof.
  destruct c as [[] [] [] [] [] [] [] []]; intros H; vm_compute in H |- *;
    congruence.
Qed.

Lemma title_from_no_hyphen (prev : ascii) (p : string) :
  has_byte "-" p = false -> has_byte "-" (cases.title_from prev p) = false.
Proof.
  revert prev. induction p as [|c p IH]; intros prev; simpl; [reflexivity|].
  intros H. apply orb_false_iff in H as [Hc Hp]. rewrite (IH c Hp).
  destruct (cases.isSeparator prev);
    [now rewrite (upper_byte_hyphen c Hc) | now rewrite Hc].
Qed.

Lemma has_byte_app (c : ascii) (a b : string) :
  has_byte c (a +:+ b) = has_byte c a || has_byte c b.
Proof.
  induction a as [|x a IH]; simpl; [reflexivity|].
  now rewrite IH, orb_assoc.
Qed.

Lemma Join_no_byte (c : ascii) (l : list string) :
  Forall (fun p => has_byte c p = false) l ->
  has_byte c (strings.Join l) = false.
Proof.
  induction 1 as [|p l Hp _ IH]; simpl; [reflexivity|].
  now rewrite has_byte_app, Hp, IH.
Qed.

(** X12. On ASCII input the name that [msgtypename] returns holds no
    hyphen. *)
Theorem msgtypename_no_hyphen_left (mapLower mapTitle : string -> string)
    (s : string) :
  cases.isASCII s = true ->
  exists t, msgtypename mapLower mapTitle s = Some t
            /\ has_byte "-" t = false.
Proof.
  intros Ha. rewrite msgtypename_eq. eexists. split; [reflexivity|].
  rewrite (ToLower_ascii _ s Ha).
  pose proof (map_lower_ascii s Ha) as Hl.
  pose proof (Split_parts_ascii _ "-" Hl) as Hpa.
  pose proof (Split_parts_no_sep (cases.map_bytes cases.lower_byte s) "-") as Hps.
  apply Join_no_byte.
  apply Forall_drop, Forall_map.
  induction Hpa as [|p l Hp Hpa IH]; [constructor|].
  inversion Hps as [|? ? Hq Hqs]; subst.
  constructor; [| now apply IH].
  simpl. unfold cases.Title. rewrite Hp. now apply title_from_no_hyphen.
Qed.

Lemma msgtypename_no_hyphen_left_witness :
  exists t, msgtypename (fun t => t) (fun t => t) "MON-HW-2" = Some t
            /\ has_byte "-" t = false.
Proof. apply msgtypename_no_hyphen_left. reflexivity. Defined.

(** ** Hex.UnmarshalXML: what is stored, and overflow *)

(** X13. [UnmarshalXML] stores into the field only when it returns no
    error: on an error of the decoder or of the parse the field keeps
    its value, and the decoder's error is passed on as it is. A value
    that is stored is the value of the element's text, read as an
    integer literal, and fits 64 bits. *)
Theorem Hex_UnmarshalXML_stores (decoded : result string string) (old : Hex) :
  (forall v e, Hex_UnmarshalXML decoded old = (v, Some e) -> v = old)
  /\ (forall msg, decoded = Err msg ->
        Hex_UnmarshalXML decoded old = (old, Some (DecodeError msg)))
  /\ (forall v, Hex_UnmarshalXML decoded old = (v, None) ->
        exists f, decoded = Ok f /\ literal.int_lit f v
                  /\ 0 <= v <= maxUint64).
Proof.
  unfold Hex_UnmarshalXML. split; [| split].
  - intros v e. destruct decoded as [f | msg]; [| now intros [= <- _]].
    destruct (strconv.ParseUint f 0 64) as [vv [err|]];
      [now intros [= <- _] | discriminate].
  - now intros msg ->.
  - intros v. destruct decoded as [f | msg]; [| discriminate].
    destruct (strconv.ParseUint f 0 64) as [vv [err|]] eqn:E; [discriminate|].
    intros [= <-]. exists f. split; [reflexivity|].
    split; [now apply ParseUint_ok_literal|].
    split; [apply (ParseUint_ok_nonneg f 64 vv); [lia | exact E]
           | exact (ParseUint_ok_le f vv E)].
Qed.

Lemma Hex_UnmarshalXML_stores_witness :
  5 = 5
  /\ Hex_UnmarshalXML (Err "unexpected EOF") 5
     = (5, Some (DecodeError "unexpected EOF"))
  /\ exists f, (Ok "0x2A" : result string string) = Ok f
               /\ literal.int_lit f 42
               /\ 0 <= 42 <= maxUint64.
Proof.
  split; [| split].
  - destruct (Hex_UnmarshalXML_stores (Ok "12ab") 5) as (H & _ & _).
    apply (H 5 (NumError strconv.ErrSyntax)). reflexivity.
  - destruct (Hex_UnmarshalXML_stores (Err "unexpected EOF") 5) as (_ & H & _).
    now apply H.
  - destruct (Hex_UnmarshalXML_stores (Ok "0x2A") 5) as (_ & _ & H).
    apply (H 42). reflexivity.
Defined.

(** One turn of the digit loop on a digit of the grammar. *)
Lemma digits_step_cases (base : Z) (c : ascii) (d : Z) (s : string) (n : Z)
    (u : bool) :
  literal.digit_of base c = Some d -> 2 <= base <= 16 ->
  0 <= n <= maxUint64 ->
  strconv.digits true base (maxUint64 / base + 1) maxUint64 (String c s) n u
  = if (n >=? maxUint64 / base + 1) || (n * base + d >? maxUint64)
    then inl (maxUint64, strconv.ErrRange)
    else strconv.digits true base (maxUint64 / base + 1) maxUint64 s
                        (n * base + d) u.
Proof.
  intros Hd Hb Hn.
  destruct (digit_of_digit_val base c d Hd) as (E95 & Ev & Hr).
  cbn [strconv.digits]. rewrite E95, Ev. cbn [andb].
  assert (Eb : (d >=? base) = false)
    by (rewrite Z.geb_leb; apply Z.leb_gt; lia).
  rewrite Eb.
  destruct (n >=? maxUint64 / base + 1) eqn:Ec; [reflexivity|].
  rewrite Z.geb_leb in Ec. apply Z.leb_gt in Ec.
  assert (Hnb : 0 <= n * base <= maxUint64).
  { split; [apply Z.mul_nonneg_nonneg; lia|].
    pose proof (Z.mul_div_le maxUint64 base ltac:(lia)) as Hq.
    transitivity (maxUint64 / base * base);
      [apply Z.mul_le_mono_nonneg_r; lia | now rewrite Z.mul_comm]. }
  rewrite (u64_small (n * base) Hnb). cbn [orb].
  destruct (n * base + d >? maxUint64) eqn:Eo.
  - rewrite Z.gtb_ltb in Eo. apply Z.ltb_lt in Eo.
    assert (Ew : u64 (n * base + d) = n * base + d - 2 ^ 64).
    { unfold u64, maxUint64 in *. symmetry.
      apply (Z.mod_unique (n * base + d) (2 ^ 64) 1); lia. }
    rewrite Ew.
    assert (El : (n * base + d - 2 ^ 64 <? n * base) = true).
    { apply Z.ltb_lt. unfold maxUint64 in *. lia. }
    now rewrite El.
  - rewrite Z.gtb_ltb in Eo. apply Z.ltb_ge in Eo.
    rewrite (u64_small (n * base + d)) by lia.
    assert (E1 : (n * base + d <? n * base) = false) by (apply Z.ltb_ge; lia).
    assert (E2 : (n * base + d >? maxUint64) = false)
      by (rewrite Z.gtb_ltb; apply Z.ltb_ge; lia).
    now rewrite E1, E2.
Qed.

(** The loop stops with a range error on a digit sequence whose value
    is past 64 bits. *)
Lemma digits_lit_overflow (base n : Z) (t : string) (v : Z) :
  literal.digits_lit base n t v -> 2 <= base <= 16 ->
  0 <= n <= maxUint64 -> maxUint64 < v ->
  forall u,
    strconv.digits true base (maxUint64 / base + 1) maxUint64 t n u
    = inl (maxUint64, strconv.ErrRange).
Proof.
  intros H Hb.
  induction H as [n c d Hd | n c d s v Hd H IH | n c d s v Hd H IH];
    intros Hn Hv u; rewrite (digits_step_cases base c d _ n u Hd Hb Hn);
    destruct (digit_of_digit_val base c d Hd) as (_ & _ & Hr);
    destruct ((n >=? maxUint64 / base + 1) || (n * base + d >? maxUint64))
      eqn:E; try reflexivity;
    apply orb_false_iff in E as [_ E];
    rewrite Z.gtb_ltb in E; apply Z.ltb_ge in E.
  - lia.
  - apply IH; [| exact Hv].
    split; [| exact E]. assert (0 <= n * base) by (apply Z.mul_nonneg_nonneg; lia). lia.
  - rewrite digits_skip. apply IH; [| exact Hv].
    split; [| exact E]. assert (0 <= n * base) by (apply Z.mul_nonneg_nonneg; lia). lia.
Qed.

Lemma digits_lit_loose (base n : Z) (t : string) (v : Z) :
  literal.digits_lit base n t v -> loose base n t v.
Proof.
  induction 1 as [n c d Hd | n c d s v Hd H IH | n c d s v Hd H IH].
  - apply (loose_digit base n c d); [exact Hd | constructor].
  - now apply (loose_digit base n c d).
  - apply (loose_digit base n c d); [exact Hd | now constructor].
Qed.

(** The base and the digits that [ParseUint] finds in a literal. *)
Lemma int_lit_prefix (s : string) (v : Z) :
  literal.int_lit s v ->
  (s = "0" /\ v = 0)
  \/ exists base body,
       strconv.base_prefix s = (base, body) /\ 2 <= base <= 16
       /\ literal.sep_digits base body v /\ s <> EmptyString.
Proof.
  intros [Hdec | [Hbin | [Hoct | Hhex]]].
  - destruct Hdec as [[-> ->] | (c & t & -> & Hc & Hd)]; [now left|].
    right. exists 10, (String c t). apply Z.eqb_neq in Hc.
    split; [simpl; now rewrite Hc|]. split; [lia|].
    split; [now left | discriminate].
  - destruct Hbin as (x & body & -> & Hx & Hs). right. exists 2, body.
    pose proof (lower_letter x 98 ltac:(lia) ltac:(lia)) as Hl.
    split; [| split; [lia | split; [exact Hs | discriminate]]].
    rewrite base_prefix_zero.
    destruct body; [destruct Hs as [Hs | (? & ? & _)]; [inversion Hs | discriminate]|].
    now rewrite Hl.
  - destruct Hoct as [(x & body & -> & Hx & Hs) | (body & -> & Hs)].
    + right. exists 8, body.
      pose proof (lower_letter x 111 ltac:(lia) ltac:(lia)) as Hl.
      split; [| split; [lia | split; [exact Hs | discriminate]]].
      rewrite base_prefix_zero.
      destruct body; [destruct Hs as [Hs | (? & ? & _)]; [inversion Hs | discriminate]|].
      now rewrite Hl.
    + right. exists 8, body.
      split; [| split; [lia | split; [exact Hs | discriminate]]].
      rewrite base_prefix_zero.
      destruct body as [|c1 t];
        [destruct Hs as [Hs | (? & ? & _)]; [inversion Hs | discriminate]|].
      assert (Hl : loose 8 0 (String c1 t) v).
      { destruct Hs as [Hs | (t' & [= -> ->] & Hs)].
        - now apply digits_lit_loose.
        - constructor. now apply digits_lit_loose. }
      destruct ((lower (byte c1) =? 98) || (lower (byte c1) =? 111)
                || (lower (byte c1) =? 120)) eqn:Ep.
      { now destruct (loose_not_prefix_letter c1 t v Ep Hl). }
      apply orb_false_iff in Ep as [Ep Ex].
      apply orb_false_iff in Ep as [Eb Eo].
      rewrite Eb, Eo, Ex. now destruct t.
  - destruct Hhex as (x & body & -> & Hx & Hs). right. exists 16, body.
    pose proof (lower_letter x 120 ltac:(lia) ltac:(lia)) as Hl.
    split; [| split; [lia | split; [exact Hs | discriminate]]].
    rewrite base_prefix_zero.
    destruct body; [destruct Hs as [Hs | (? & ? & _)]; [inversion Hs | discriminate]|].
    assert (E98 : (lower (byte x) =? 98) = false) by (rewrite Hl; reflexivity).
    assert (E111 : (lower (byte x) =? 111) = false) by (rewrite Hl; reflexivity).
    rewrite E98, E111. now rewrite Hl.
Qed.

(** X14. A literal whose value does not fit 64 bits is refused with a
    range error, and the field keeps its value: the parse never wraps
    around. *)
Theorem Hex_UnmarshalXML_overflow (s : string) (v : Z) (old : Hex) :
  literal.int_lit s v -> maxUint64 < v ->
  Hex_UnmarshalXML (Ok s) old = (old, Some (NumError strconv.ErrRange)).
Proof.
  intros Hl Hv. unfold Hex_UnmarshalXML.
  destruct (int_lit_prefix s v Hl)
    as [[-> ->] | (base & body & Hp & Hb & Hs & Hne)];
    [unfold maxUint64 in Hv; lia|].
  rewrite (ParseUint_base0 s 64 Hne) by lia. rewrite maxVal_64, Hp.
  assert (Hd : strconv.digits true base (maxUint64 / base + 1) maxUint64
                 body 0 false = inl (maxUint64, strconv.ErrRange)).
  { assert (H0 : 0 <= 0 <= maxUint64) by (unfold maxUint64; lia).
    destruct Hs as [Hs | (t & -> & Hs)].
    - now apply (digits_lit_overflow base 0 body v).
    - rewrite digits_skip. now apply (digits_lit_overflow base 0 t v). }
  now rewrite Hd.
Qed.

Lemma Hex_UnmarshalXML_overflow_witness :
  Hex_UnmarshalXML (Ok "0x1_0000_0000_0000_0000") 9
  = (9, Some (NumError strconv.ErrRange)).
Proof.
  apply (Hex_UnmarshalXML_overflow _ (2 ^ 64) 9); [| reflexivity].
  right. right. right. exists "x"%char, "1_0000_0000_0000_0000".
  split; [reflexivity|]. split; [now left|]. left.
  refine (literal.dl_sep 16 _ "1" 1 _ _ eq_refl _).
  do 3 (do 3 (refine (literal.dl_more 16 _ "0" 0 _ _ eq_refl _));
        refine (literal.dl_sep 16 _ "0" 0 _ _ eq_refl _)).
  do 3 (refine (literal.dl_more 16 _ "0" 0 _ _ eq_refl _)).
  exact (literal.dl_last 16 _ "0" 0 eq_refl).
Defined.

(** ** Link: what it leaves alone, shared blocks, nil pointers *)



Lemma links_shape (h0 : heap) (f : heap -> outcome)
    (R : ptr -> loc -> Prop) (h h' : heap) :
  links h0 f R -> same_shape h h0 -> f h = Done h' -> same_shape h' h0.
Proof.
  intros Hf Hs Hrun. destruct (Hf h h' Hs Hrun) as (w & He & _).
  exact (effect_shape h0 f w h h' He Hs Hrun).
Qed.

(** In a loop that returns, every turn returned. *)
Lemma forEach_each (h0 : heap) (l : list ptr)
    (body : ptr -> heap -> outcome) :
  (forall x h1 h2, x ∈ l -> same_shape h1 h0 -> body x h1 = Done h2 ->
                   same_shape h2 h0) ->
  forall h h', same_shape h h0 -> forEach l body h = Done h' ->
    forall x, x ∈ l ->
      exists h1 h2, same_shape h1 h0 /\ body x h1 = Done h2.
Proof.
  induction l as [|y l IH]; intros Hb h h' Hs Hrun x Hx.
  - now apply elem_of_nil in Hx.
  - simpl in Hrun. destruct (body y h) as [h1 | |] eqn:E1; try discriminate.
    simpl in Hrun. apply elem_of_cons in Hx as [-> | Hx]; [eauto|].
    apply (IH (fun z a b Hz => Hb z a b (list_elem_of_further z y l Hz))
              h1 h'); auto.
    apply (Hb y h h1); auto. apply list_elem_of_here.
Qed.

Lemma store_Field_shape (h0 : heap) (v b : ptr) (h1 h2 : heap) :
  same_shape h1 h0 -> store_Field v b h1 = Done h2 -> same_shape h2 h0.
Proof.
  intros Hs Hrun.
  destruct (store_Field_Done v b h1 h2 Hrun) as (a & -> & Ha).
  apply (effect_shape h0 _ _ h1 h2
           (store_Field_effect h0 a b (same_shape_is_bitdef h0 h1 a Hs Ha))
           Hs Hrun).
Qed.

(** A call of [Block.Link] that returns was made on a block of the
    heap, and every block it reached has sound slices. *)
Lemma Block_Link_Done_sound (h0 : heap) (fuel : nat) :
  forall b m h h',
    same_shape h h0 -> Block_Link fuel b m h = Done h' ->
    exists a0, b = Some a0 /\ is_Some (blocks h0 !! a0)
               /\ forall a, reach h0 b a -> sound_block h0 a.
Proof.
  induction fuel as [|fuel IH]; intros b m h h' Hs Hrun; [discriminate|].
  destruct b as [a0|]; [| discriminate].
  assert (H0 : is_Some (blocks h0 !! a0)).
  { cbn [Block_Link] in Hrun.
    destruct (store_Message (Some a0) m h) as [h1 | |] eqn:E1;
      try discriminate.
    destruct (store_Message_Done _ _ _ _ E1) as (a1 & [= <-] & Hb).
    now apply (same_shape_is_block h0 h a0 Hs). }
  destruct H0 as [blk0 H0].
  exists a0. split; [reflexivity|]. split; [eauto|].
  rewrite (Block_Link_step h0 fuel a0 m blk0 h Hs H0) in Hrun.
  unfold link_own in Hrun.
  destruct (store_Message (Some a0) m h) as [h1 | |] eqn:E1; try discriminate.
  cbn [andThen] in Hrun.
  assert (Hs1 : same_shape h1 h0)
    by exact (effect_shape h0 _ _ h h1
                (store_Message_effect h0 a0 m ltac:(eauto)) Hs E1).
  destruct (forEach (Block_Bitfield blk0) (fun v => store_Field v (Some a0)) h1)
    as [h2 | |] eqn:E2; try discriminate.
  cbn [andThen] in Hrun.
  assert (Hs2 : same_shape h2 h0).
  { destruct (fields_effect h0 (Some a0) _ h1 h2 Hs1 E2) as (fw & He & _).
    exact (effect_shape h0 _ _ h1 h2 He Hs1 E2). }
  assert (Hfields : forall p, p ∈ Block_Bitfield blk0 ->
            exists v, p = Some v /\ is_Some (bitdefs h0 !! v)).
  { intros p Hp.
    destruct (forEach_each h0 _ _
                (fun x a b _ => store_Field_shape h0 x (Some a0) a b)
                h1 h2 Hs1 E2 p Hp) as (ha & hb & Hsa & Hst).
    destruct (store_Field_Done _ _ _ _ Hst) as (v & -> & Hv).
    exists v. split; [reflexivity|].
    now apply (same_shape_is_bitdef h0 ha v Hsa). }
  assert (Hnested : forall p, p ∈ Block_Nested blk0 ->
            exists a', p = Some a' /\ is_Some (blocks h0 !! a')
                       /\ forall a, reach h0 p a -> sound_block h0 a).
  { intros p Hp.
    destruct (forEach_each h0 _ _
                (fun x a b _ => links_shape h0 _ _ a b
                                  (Block_Link_links h0 fuel x m))
                h2 h' Hs2 Hrun p Hp) as (ha & hb & Hsa & Hst).
    exact (IH p m ha hb Hsa Hst). }
  intros a Hr. apply (reach_inv h0 a0 blk0 a H0) in Hr.
  destruct Hr as [-> | (x & Hx & Hr)].
  - exists blk0. split; [exact H0|]. split; [exact Hfields|].
    intros p Hp. destruct (Hnested p Hp) as (a' & -> & Ha' & _). eauto.
  - destruct (Hnested x Hx) as (_ & _ & _ & Hsound). now apply Hsound.
Qed.

Lemma Link_Done_sound (fuel : nat) (d : Definitions)
    (h h' : heap) :
  Definitions_Link fuel d h = Done h' ->
  (forall p, p ∈ Definitions_Message d ->
     exists m msg,
       p = Some m /\ messages h !! m = Some msg
       /\ forall q, q ∈ Message_Blocks msg ->
            exists a, q = Some a /\ is_Some (blocks h !! a))
  /\ (forall a, in_graph h d a -> sound_block h a).
Proof.
  intros Hrun. assert (Hs : same_shape h h) by reflexivity.
  assert (Hmsg : forall p, p ∈ Definitions_Message d ->
            exists m msg,
              p = Some m /\ messages h !! m = Some msg
              /\ forall q, q ∈ Message_Blocks msg ->
                   exists a, q = Some a /\ is_Some (blocks h !! a)
                             /\ forall a', reach h q a' -> sound_block h a').
  { intros p Hp.
    destruct (forEach_each h _ _
                (fun x a b _ => links_shape h _ _ a b
                                  (Message_Link_links h fuel x))
                h h' Hs Hrun p Hp) as (ha & hb & Hsa & Hst).
    unfold Message_Link, load_message in Hst.
    destruct p as [m|]; [| discriminate].
    rewrite (same_shape_messages ha h Hsa) in Hst.
    destruct (messages h !! m) as [msg|] eqn:Em; [| discriminate].
    exists m, msg. split; [reflexivity|]. split; [exact Em|].
    intros q Hq.
    destruct (forEach_each h _ _
                (fun x a b _ => links_shape h _ _ a b
                                  (Block_Link_links h fuel x (Some m)))
                ha hb Hsa Hst q Hq) as (hc & hd & Hsc & Hbl).
    exact (Block_Link_Done_sound h fuel q (Some m) hc hd Hsc Hbl). }
  split.
  - intros p Hp. destruct (Hmsg p Hp) as (m & msg & -> & Hm & Hq).
    exists m, msg. split; [reflexivity|]. split; [exact Hm|].
    intros q Hin. destruct (Hq q Hin) as (a & -> & Ha & _). eauto.
  - intros a (m & Hin & msg & q & Hm & Hq & Hr).
    destruct (Hmsg (Some m) Hin) as (m' & msg' & [= <-] & Hm' & Hall).
    rewrite Hm in Hm'. injection Hm' as <-.
    destruct (Hall q Hq) as (_ & _ & _ & Hsound). now apply Hsound.
Qed.

(** X16. [Link] returns only on a graph without a nil or a dangling
    pointer: after a run that returned, every pointer of the
    definitions is a message of the heap, every top-level pointer of
    such a message is a block of the heap, and the slices of every
    enclosed block are sound. *)
Theorem Link_returns_on_sound_graph (fuel : nat) (d : Definitions)
    (h h' : heap) :
  Definitions_Link fuel d h = Done h' ->
  (forall p, p ∈ Definitions_Message d ->
     exists m msg,
       p = Some m /\ messages h !! m = Some msg
       /\ forall q, q ∈ Message_Blocks msg ->
            exists a, q = Some a /\ is_Some (blocks h !! a))
  /\ (forall a, in_graph h d a -> sound_block h a).
Proof. exact (Link_Done_sound fuel d h h'). Qed.

Lemma Link_returns_on_sound_graph_witness :
  (forall p, p ∈ Definitions_Message ex_definitions ->
     exists m msg,
       p = Some m /\ messages ex_heap !! m = Some msg
       /\ forall q, q ∈ Message_Blocks msg ->
            exists a, q = Some a /\ is_Some (blocks ex_heap !! a))
  /\ (forall a, in_graph ex_heap ex_definitions a -> sound_block ex_heap a).
Proof.
  exact (Link_returns_on_sound_graph 2 ex_definitions ex_heap ex_linked
           ex_Link).
Defined.



Lemma with_Message_twice (m : ptr) (blk : Block) :
  with_Message m (with_Message None blk) = with_Message m blk.
Proof. reflexivity. Qed.

Lemma with_Field_twice (b : ptr) (bd : BitDef) :
  with_Field b (with_Field None bd) = with_Field b bd.
Proof. reflexivity. Qed.

(** X18. [Link] does not read the back-references it finds: on two
    heaps that differ in back-references only, a run returns on both or
    on neither, and the enclosed blocks and their bit definitions come
    out the same. Stale references are overwritten. *)
Theorem Link_overwrites_back_references (fuel : nat) (d : Definitions)
    (h1 h2 h1' : heap) :
  same_shape h2 h1 ->
  Definitions_Link fuel d h1 = Done h1' ->
  exists h2',
    Definitions_Link fuel d h2 = Done h2'
    /\ (forall a, in_graph h1 d a -> blocks h2' !! a = blocks h1' !! a)
    /\ (forall a v, in_graph h1 d a -> owns h1 a v ->
          bitdefs h2' !! v = bitdefs h1' !! v).
Proof.
  intros Hs21 Hrun. assert (Hs : same_shape h1 h1) by reflexivity.
  destruct (Definitions_Link_links h1 fuel d h1 h1' Hs Hrun)
    as (w & He & HA & HB & HC & HD).
  rewrite (He h1 Hs) in Hrun. injection Hrun as <-.
  exists (apply_writes w h2). split; [now apply He|].
  assert (HR : forall a, in_graph h1 d a ->
            exists ma, Some ma ∈ Definitions_Message d
                       /\ Some ma = Some ma /\ encloses h1 ma a).
  { intros a (ma & Hin & Henc). eauto. }
  split.
  - intros a Hg. destruct (HR a Hg) as (ma & Hin & _ & Henc).
    destruct (HB a (Some ma) ltac:(eauto)) as [mw Hmw].
    rewrite !lookup_apply_blocks. unfold write_Message. rewrite Hmw.
    pose proof (same_shape_block h2 h1 a Hs21) as Hb.
    destruct (blocks h2 !! a) as [b2|], (blocks h1 !! a) as [b1|];
      try discriminate; [| reflexivity].
    assert (E : with_Message None b2 = with_Message None b1)
      by (apply (inj Some); exact Hb).
    cbn [fmap option_fmap option_map]. f_equal.
    rewrite <- (with_Message_twice mw b2), <- (with_Message_twice mw b1).
    now rewrite E.
  - intros a v Hg Ho. destruct (HR a Hg) as (ma & Hin & _ & Henc).
    destruct (HD v a (Some ma) ltac:(eauto) Ho) as [b Hb].
    rewrite !lookup_apply_bitdefs. unfold write_Field. rewrite Hb.
    pose proof (same_shape_bitdef h2 h1 v Hs21) as Hd.
    destruct (bitdefs h2 !! v) as [d2|], (bitdefs h1 !! v) as [d1|];
      try discriminate; [| reflexivity].
    assert (E : with_Field None d2 = with_Field None d1)
      by (apply (inj Some); exact Hd).
    cbn [fmap option_fmap option_map]. f_equal.
    rewrite <- (with_Field_twice b d2), <- (with_Field_twice b d1).
    now rewrite E.
Qed.

Lemma Link_overwrites_back_references_witness :
  exists h2',
    Definitions_Link 2 ex_definitions ex_linked = Done h2'
    /\ (forall a, in_graph ex_heap ex_definitions a ->
                  blocks h2' !! a = blocks ex_linked !! a)
    /\ (forall a v, in_graph ex_heap ex_definitions a -> owns ex_heap a v ->
          bitdefs h2' !! v = bitdefs ex_linked !! v).
Proof.
  apply (Link_overwrites_back_references 2 ex_definitions ex_heap ex_linked
           ex_linked); [| exact ex_Link].
  vm_compute. reflexivity.
Defined.

(** ** Link: graphs with a cycle of nesting *)

Lemma reach_chain (h : heap) (p : ptr) (a : loc) :
  reach h p a -> exists n, nested_chain h n p a.
Proof.
  induction 1 as [a blk Hb | a blk p a' Hb Hp Hr [n IH]].
  - exists 0%nat. now apply (chain_here h a blk).
  - exists (S n). now apply (chain_step h n a blk p a').
Qed.

Lemma chain_app (h : heap) (n : nat) (p : ptr) (a : loc) :
  nested_chain h n p a ->
  forall n' a', nested_chain h n' (Some a) a' ->
    nested_chain h (n + n') p a'.
Proof.
  induction 1 as [a blk Hb | n a blk p a1 Hb Hp Hc IH]; intros n' a' Hc'.
  - exact Hc'.
  - simpl. apply (chain_step h (n + n') a blk p a' Hb Hp). now apply IH.
Qed.

(** Going round a cycle gives chains as long as one likes. *)
Lemma chain_cycle (h : heap) (n : nat) (a : loc) :
  nested_chain h (S n) (Some a) a ->
  forall j, exists k, (j <= k)%nat /\ nested_chain h k (Some a) a.
Proof.
  intros Hc. induction j as [|j (k & Hk & IH)].
  - exists (S n). split; [lia | exact Hc].
  - exists (S n + k)%nat. split; [lia|].
    exact (chain_app h (S n) (Some a) a Hc k a IH).
Qed.

(** A call of [Block.Link] that returns went down every chain of
    nesting below its block: the calls are one deeper than the chain. *)
Lemma Block_Link_Done_depth (h0 : heap) (fuel : nat) :
  forall b m h h',
    same_shape h h0 -> Block_Link fuel b m h = Done h' ->
    forall n a, nested_chain h0 n b a -> (n < fuel)%nat.
Proof.
  induction fuel as [|fuel IH]; intros b m h h' Hs Hrun n a Hc;
    [discriminate|].
  inversion Hc as [a0 blk0 H0 | n0 a0 blk0 p a' H0 Hp Hc']; subst; [lia|].
  rewrite (Block_Link_step h0 fuel a0 m blk0 h Hs H0) in Hrun.
  unfold link_own in Hrun.
  destruct (store_Message (Some a0) m h) as [h1 | |] eqn:E1; try discriminate.
  cbn [andThen] in Hrun.
  assert (Hs1 : same_shape h1 h0)
    by exact (effect_shape h0 _ _ h h1
                (store_Message_effect h0 a0 m ltac:(eauto)) Hs E1).
  destruct (forEach (Block_Bitfield blk0) (fun v => store_Field v (Some a0)) h1)
    as [h2 | |] eqn:E2; try discriminate.
  cbn [andThen] in Hrun.
  assert (Hs2 : same_shape h2 h0).
  { destruct (fields_effect h0 (Some a0) _ h1 h2 Hs1 E2) as (fw & He & _).
    exact (effect_shape h0 _ _ h1 h2 He Hs1 E2). }
  destruct (forEach_each h0 _ _
              (fun x a b _ => links_shape h0 _ _ a b
                                (Block_Link_links h0 fuel x m))
              h2 h' Hs2 Hrun p Hp) as (ha & hb & Hsa & Hst).
  pose proof (IH p m ha hb Hsa Hst n0 a Hc') as Hlt. lia.
Qed.

(** X20. [Link] returns on no graph in which a block of a message is
    nested, through one or more steps, in itself: however deep the
    recursion may go, the run does not come back with a linked graph. *)
Theorem Link_never_returns_on_cycle (fuel : nat) (d : Definitions)
    (h : heap) (a : loc) (n : nat) :
  in_graph h d a -> nested_chain h (S n) (Some a) a ->
  forall h', Definitions_Link fuel d h <> Done h'.
Proof.
  intros (m & Hm & msg & p & Emsg & Hp & Hr) Hc h' Hrun.
  assert (Hs : same_shape h h) by reflexivity.
  destruct (forEach_each h _ _
              (fun x a b _ => links_shape h _ _ a b
                                (Message_Link_links h fuel x))
              h h' Hs Hrun (Some m) Hm) as (ha & hb & Hsa & Hst).
  unfold Message_Link, load_message in Hst.
  rewrite (same_shape_messages ha h Hsa), Emsg in Hst.
  destruct (forEach_each h _ _
              (fun x a b _ => links_shape h _ _ a b
                                (Block_Link_links h fuel x (Some m)))
              ha hb Hsa Hst p Hp) as (hc & hd & Hsc & Hst').
  destruct (reach_chain h p a Hr) as (k & Hk).
  destruct (chain_cycle h n a Hc fuel) as (j & Hj & Hcj).
  pose proof (Block_Link_Done_depth h fuel p (Some m) hc hd Hsc Hst'
                (k + j) a (chain_app h k p a Hk j a Hcj)) as Hlt.
  lia.
Qed.

Lemma Link_never_returns_on_cycle_witness :
  Definitions_Link 9 ex_definitions ex_loop_heap <> Done ex_loop_heap.
Proof.
  assert (Hb : blocks ex_loop_heap !! 1%positive = Some ex_loop_block)
    by reflexivity.
  assert (Hin : Some 1%positive ∈ [Some 1%positive])
    by apply list_elem_of_here.
  assert (Hc : nested_chain ex_loop_heap 1 (Some 1%positive) 1%positive)
    by exact (chain_step ex_loop_heap 0 1%positive ex_loop_block
                (Some 1%positive) 1%positive Hb Hin
                (chain_here ex_loop_heap 1%positive ex_loop_block Hb)).
  apply (Link_never_returns_on_cycle 9 ex_definitions ex_loop_heap
           1%positive 0%nat); [| exact Hc].
  exists 1%positive. split; [exact Hin|].
  exists ex_message, (Some 1%positive).
  split; [reflexivity|]. split; [exact Hin|].
  exact (reach_here ex_loop_heap 1%positive ex_loop_block Hb).
Defined.

(** ** Link: the graphs on which it returns *)

(** On a block whose graph is sound and less than [fuel] deep,
    [Block.Link] returns, shared blocks or not. *)
Lemma Block_Link_returns (h0 : heap) (fuel : nat) :
  forall a m h,
    same_shape h h0 ->
    (forall a', reach h0 (Some a) a' -> sound_block h0 a') ->
    is_Some (blocks h0 !! a) ->
    (forall k a', nested_chain h0 k (Some a) a' -> (k < fuel)%nat) ->
    exists h', Block_Link fuel (Some a) m h = Done h' /\ same_shape h' h0.
Proof.
  induction fuel as [|fuel IH]; intros a m h Hs Hsound [blk0 H0] Hd.
  - pose proof (Hd 0%nat a (chain_here h0 a blk0 H0)). lia.
  - rewrite (Block_Link_step h0 fuel a m blk0 h Hs H0).
    destruct (Hsound a (reach_here h0 a blk0 H0)) as (blk & Hb & Hf & Hn).
    rewrite H0 in Hb. injection Hb as <-.
    unfold link_own.
    destruct (effect_total h0 _ _ h
                (store_Message_effect h0 a m ltac:(eauto)) Hs)
      as (h1 & -> & Hs1).
    cbn [andThen].
    assert (Hfields : exists h2,
              forEach (Block_Bitfield blk0)
                      (fun v => store_Field v (Some a)) h1 = Done h2
              /\ same_shape h2 h0).
    { apply (forEach_total h0); [| exact Hs1].
      intros x hx Hx Hsx. destruct (Hf x Hx) as (v & -> & Hv).
      exact (effect_total h0 _ _ hx (store_Field_effect h0 v (Some a) Hv)
               Hsx). }
    destruct Hfields as (h2 & -> & Hs2). cbn [andThen].
    apply (forEach_total h0); [| exact Hs2].
    intros x hx Hx Hsx. destruct (Hn x Hx) as (a' & -> & Ha').
    apply IH; [exact Hsx | | exact Ha' |].
    + intros a2 Hr. apply Hsound.
      exact (reach_nested h0 a blk0 (Some a') a2 H0 Hx Hr).
    + intros k a2 Hc.
      pose proof (Hd (S k) a2
                    (chain_step h0 k a blk0 (Some a') a2 H0 Hx Hc)).
      lia.
Qed.

Lemma Link_returns (d : Definitions) (h : heap) (n : nat) :
  sound_graph h d -> nesting_below h d n ->
  exists h', Definitions_Link n d h = Done h' /\ same_shape h' h.
Proof.
  intros [Hmsgs Hsound] Hdepth.
  assert (Hs : same_shape h h) by reflexivity.
  unfold Definitions_Link. apply (forEach_total h); [| exact Hs].
  intros p hp Hp Hsp.
  destruct (Hmsgs p Hp) as (m & msg & -> & Hmsg & Hblocks).
  unfold Message_Link, load_message.
  rewrite (same_shape_messages hp h Hsp), Hmsg.
  apply (forEach_total h); [| exact Hsp].
  intros q hq Hq Hsq. destruct (Hblocks q Hq) as (a & -> & Ha).
  assert (Hin : forall a', reach h (Some a) a' -> in_graph h d a').
  { intros a' Hr. exists m. split; [exact Hp|].
    now exists msg, (Some a). }
  destruct Ha as [blk Hb].
  apply (Block_Link_returns h n a (Some m) hq Hsq); [| now exists blk |].
  - intros a' Hr. apply Hsound. now apply Hin.
  - intros k a' Hc. apply (Hdepth a k a'); [| exact Hc].
    apply Hin. exact (reach_here h a blk Hb).
Qed.

(** X19. [Link] returns exactly on the graphs in which no pointer that
    it follows is nil or dangles and in which the nesting of the blocks
    is of bounded depth, whether blocks are shared or not: on such a
    graph a run returns, and on every other graph no run does, however
    deep the recursion may go. *)
Theorem Link_returns_exactly (d : Definitions) (h : heap) :
  (exists fuel h', Definitions_Link fuel d h = Done h')
  <-> (sound_graph h d /\ exists n, nesting_below h d n).
Proof.
  split.
  - intros (fuel & h' & Hrun).
    split; [exact (Link_Done_sound fuel d h h' Hrun)|].
    exists fuel. intros a k a' (m & Hm & msg & p & Emsg & Hp & Hr) Hc.
    assert (Hs : same_shape h h) by reflexivity.
    destruct (forEach_each h _ _
                (fun x a b _ => links_shape h _ _ a b
                                  (Message_Link_links h fuel x))
                h h' Hs Hrun (Some m) Hm) as (ha & hb & Hsa & Hst).
    unfold Message_Link, load_message in Hst.
    rewrite (same_shape_messages ha h Hsa), Emsg in Hst.
    destruct (forEach_each h _ _
                (fun x a b _ => links_shape h _ _ a b
                                  (Block_Link_links h fuel x (Some m)))
                ha hb Hsa Hst p Hp) as (hc & hd & Hsc & Hst').
    destruct (reach_chain h p a Hr) as (j & Hj).
    pose proof (Block_Link_Done_depth h fuel p (Some m) hc hd Hsc Hst'
                  (j + k) a' (chain_app h j p a Hj k a' Hc)) as Hlt.
    lia.
  - intros (Hsound & n & Hdepth).
    destruct (Link_returns d h n Hsound Hdepth) as (h' & Hrun & _).
    now exists n, h'.
Qed.

Lemma Link_returns_exactly_witness :
  sound_graph ex_heap ex_definitions
  /\ exists n, nesting_below ex_heap ex_definitions n.
Proof.
  apply (proj1 (Link_returns_exactly ex_definitions ex_heap)).
  exists 2%nat, ex_linked. exact ex_Link.
Defined.
